(** * visa_watcher: a shallow embedding of the slot watcher and its properties

    The watcher is a single JavaScript program (src/index.js) with an earlier
    variant of the same file.  This development embeds

    - the JavaScript string primitives the program relies on (strings are
      sequences of UTF-16 code units),
    - a backtracking matcher for the regular expressions that the markup
      extractor is written with,
    - the markup extractor, the cookie merge, the message splitter, the
      state store and the seen-filter of the polling cycle,

    and proves the properties of the specification against them. *)

From Stdlib Require Import ZArith NArith List Bool Ascii String Lia Sorted.
From Stdlib Require Import DecimalString DecimalZ.
From stdpp Require Import gmap.
Import ListNotations.

Set Warnings "-register-all".

Local Open Scope N_scope.

(** ** JavaScript strings *)

(** A JavaScript string is a sequence of 16-bit code units. *)
Abbreviation jsstring := (list N).

(** An ASCII literal as a JavaScript string. *)
Definition str (s : string) : jsstring :=
  map N_of_ascii (list_ascii_of_string s).

Arguments str _ : simpl never.

Module Js.

(** WhiteSpace and LineTerminator code units: what [String.prototype.trim]
    strips and what the class escape [\s] matches. *)
Definition isWhiteSpace (c : N) : bool :=
  (9 <=? c) && (c <=? 13)
  || (c =? 32) || (c =? 160) || (c =? 5760)
  || (8192 <=? c) && (c <=? 8202)
  || (c =? 8232) || (c =? 8233) || (c =? 8239) || (c =? 8287)
  || (c =? 12288) || (c =? 65279).

Definition isDigit (c : N) : bool := (48 <=? c) && (c <=? 57).

(** Word characters of [\b]: [A-Za-z0-9_]. *)
Definition isWordChar (c : N) : bool :=
  (65 <=? c) && (c <=? 90) || (97 <=? c) && (c <=? 122)
  || isDigit c || (c =? 95).

Fixpoint trimStart (s : jsstring) : jsstring :=
  match s with
  | c :: s' => if isWhiteSpace c then trimStart s' else s
  | [] => []
  end.

Definition trimEnd (s : jsstring) : jsstring := rev (trimStart (rev s)).

Definition trim (s : jsstring) : jsstring := trimEnd (trimStart s).

(** [s.split(sep)] for a one-unit separator: never the empty list. *)
Fixpoint split (sep : N) (s : jsstring) : list jsstring :=
  match s with
  | [] => [[]]
  | c :: s' =>
      if c =? sep then [] :: split sep s'
      else match split sep s' with
           | l :: ls => (c :: l) :: ls
           | [] => [[c]]
           end
  end.

(** [parts.join(sep)]. *)
Fixpoint join (sep : jsstring) (parts : list jsstring) : jsstring :=
  match parts with
  | [] => []
  | [p] => p
  | p :: ps => p ++ sep ++ join sep ps
  end.

(** [s.indexOf(c)] for a one-unit needle: the index, or -1. *)
Fixpoint indexOf (c : N) (s : jsstring) : Z :=
  match s with
  | [] => (-1)%Z
  | x :: s' =>
      if x =? c then 0%Z
      else let i := indexOf c s' in
           if (i <? 0)%Z then (-1)%Z else (i + 1)%Z
  end.

(** [s.slice(a, b)] and [s.slice(a)] for indices within [0, length]. *)
Definition slice (a b : nat) (s : jsstring) : jsstring :=
  firstn (b - a) (skipn a s).
Definition sliceFrom (a : nat) (s : jsstring) : jsstring := skipn a s.

(** [s.padStart(n, "0")]. *)
Definition padStart0 (n : nat) (s : jsstring) : jsstring :=
  repeat 48 (n - length s) ++ s.

(** [String(n)] for an integer-valued number (plain decimal notation,
    which is what JavaScript prints below 10^21). *)
Definition numToString (z : Z) : jsstring :=
  str (NilEmpty.string_of_int (Z.to_int z)).

(** The mathematical value of a run of decimal digits. *)
Definition digitsValue (s : jsstring) : Z :=
  fold_left (fun acc c => (acc * 10 + (Z.of_N c - 48))%Z) s 0%Z.

(** Round-to-nearest-even onto the 53-bit significand of a double;
    [None] stands for [Infinity]. *)
Definition roundDouble (z : Z) : option Z :=
  if (z <? 2 ^ 53)%Z then Some z
  else
    let e := (Z.log2 z - 52)%Z in
    let q := (z / 2 ^ e)%Z in
    let r := (z mod 2 ^ e)%Z in
    let half := (2 ^ (e - 1))%Z in
    let q' := if (half <? r)%Z || (r =? half)%Z && Z.odd q
              then (q + 1)%Z else q in
    let v := (q' * 2 ^ e)%Z in
    if (v <? 2 ^ 1024)%Z then Some v else None.

(** [Number(s)] for a string of one or more decimal digits (the only
    strings this program converts from a capture): an integer, or
    [None] when the value overflows to [Infinity], for which
    [Number.isInteger] is false. *)
Definition NumberOfDigits (s : jsstring) : option Z :=
  roundDouble (digitsValue s).

(** Truthiness of a string: non-empty. *)
Definition truthyStr (s : jsstring) : bool :=
  match s with [] => false | _ => true end.

End Js.

(** ** Regular expressions *)

Module Regex.

(** Members of a character class. *)
Inductive citem :=
| CChar (c : N)
| CDigit
| CSpace
| CNotSpace.

Inductive regex :=
| REmpty
| RChar (c : N)
| RClass (negated : bool) (items : list citem)
| RSeq (r1 r2 : regex)
| RQuant (greedy : bool) (lo : nat) (hi : option nat) (r : regex)
| RGroup (n : nat) (r : regex)
| RBackref (n : nat)
| RBol
| REol
| RWordB.

(** Canonicalize of the [i] flag (no [u] flag): upper-casing of a single
    code unit.  Only ASCII letters are folded here; the literals of the
    program's patterns are ASCII or uncased. *)
Definition canon (ci : bool) (c : N) : N :=
  if ci && (97 <=? c) && (c <=? 122) then c - 32 else c.

Definition item_mem (ci : bool) (x : N) (it : citem) : bool :=
  match it with
  | CChar c => canon ci x =? canon ci c
  | CDigit => Js.isDigit x
  | CSpace => Js.isWhiteSpace x
  | CNotSpace => negb (Js.isWhiteSpace x)
  end.

Definition class_mem (ci : bool) (neg : bool) (items : list citem) (x : N)
  : bool :=
  xorb neg (existsb (item_mem ci x) items).

(** The matcher's position in the input. *)
Record mstate := MState {
  m_pos : nat;
  m_prev : option N;
  m_rest : jsstring;
  m_caps : list (nat * jsstring)
}.

Definition cont := mstate -> option mstate.

Fixpoint cap_lookup (n : nat) (caps : list (nat * jsstring))
  : option jsstring :=
  match caps with
  | [] => None
  | (i, w) :: caps' => if Nat.eqb i n then Some w else cap_lookup n caps'
  end.

Definition advance1 (x : N) (rest : jsstring) (s : mstate) : mstate :=
  MState (S (m_pos s)) (Some x) rest (m_caps s).

Fixpoint advance (w : jsstring) (s : mstate) : option mstate :=
  match w with
  | [] => Some s
  | c :: w' =>
      match m_rest s with
      | x :: rest => advance w' (advance1 x rest s)
      | [] => None
      end
  end.

Fixpoint prefix_ci (ci : bool) (w s : jsstring) : bool :=
  match w, s with
  | [], _ => true
  | c :: w', x :: s' => (canon ci x =? canon ci c) && prefix_ci ci w' s'
  | _ :: _, [] => false
  end.

Definition set_cap (n : nat) (w : jsstring) (s : mstate) : mstate :=
  MState (m_pos s) (m_prev s) (m_rest s) ((n, w) :: m_caps s).

Definition is_word (o : option N) : bool :=
  match o with Some c => Js.isWordChar c | None => false end.

(** The repeat matcher of a quantifier, over the matcher [m] of its
    atom: past [lo] iterations, one that consumes nothing is rejected;
    a greedy quantifier tries one more iteration before the
    continuation, a lazy one after it.  [fuel] bounds the number of
    iterations. *)
Fixpoint rep (m : cont -> cont) (g : bool) (fuel lo : nat)
  (hi : option nat) (k : cont) (s : mstate) {struct fuel}
  : option mstate :=
  match fuel with
  | O => None
  | S fuel' =>
      let again (_ : unit) :=
        m (fun s' =>
             if Nat.eqb lo 0
                && Nat.eqb (length (m_rest s')) (length (m_rest s))
             then None
             else rep m g fuel' (Nat.pred lo) (option_map Nat.pred hi) k s')
          s in
      match hi with
      | Some O => k s
      | _ =>
          if Nat.ltb 0 lo then again tt
          else if g
               then match again tt with
                    | Some res => Some res
                    | None => k s
                    end
               else match k s with
                    | Some res => Some res
                    | None => again tt
                    end
      end
  end.

(** The backtracking matcher in continuation-passing style, after the
    matcher semantics of ECMA-262: [rmatch ci r k s] matches [r] at [s]
    and hands every candidate end state to [k], in priority order.  A
    quantifier is given fuel for [lo + length rest + 1] iterations,
    which it never uses up. *)
Fixpoint rmatch (ci : bool) (r : regex) (k : cont) (s : mstate)
  {struct r} : option mstate :=
  match r with
  | REmpty => k s
  | RChar c =>
      match m_rest s with
      | x :: rest =>
          if canon ci x =? canon ci c then k (advance1 x rest s) else None
      | [] => None
      end
  | RClass neg items =>
      match m_rest s with
      | x :: rest =>
          if class_mem ci neg items x then k (advance1 x rest s) else None
      | [] => None
      end
  | RSeq r1 r2 => rmatch ci r1 (fun s' => rmatch ci r2 k s') s
  | RQuant g lo hi r' =>
      rep (rmatch ci r') g (lo + length (m_rest s) + 1)%nat lo hi k s
  | RGroup n r' =>
      rmatch ci r'
        (fun s' =>
           k (set_cap n
                (firstn (length (m_rest s) - length (m_rest s')) (m_rest s))
                s'))
        s
  | RBackref n =>
      match cap_lookup n (m_caps s) with
      | None => k s
      | Some w =>
          if prefix_ci ci w (m_rest s)
          then match advance w s with Some s' => k s' | None => None end
          else None
      end
  | RBol => if Nat.eqb (m_pos s) 0 then k s else None
  | REol => match m_rest s with [] => k s | _ => None end
  | RWordB =>
      if xorb (is_word (m_prev s)) (is_word (head (m_rest s)))
      then k s else None
  end.

(** The result of a successful match: [index], the end index, the
    matched text [m[0]] and the captures [m[n]]. *)
Record mresult := MResult {
  r_index : nat;
  r_end : nat;
  r_text : jsstring;
  r_caps : list (nat * jsstring)
}.

(** [m[n]], with an unset capture read as the empty string. *)
Definition capture (n : nat) (res : mresult) : jsstring :=
  match cap_lookup n (r_caps res) with Some w => w | None => [] end.

(** The leftmost match at or after the current position. *)
Fixpoint search (ci : bool) (r : regex) (pos : nat) (prev : option N)
  (rest : jsstring) : option mresult :=
  match rmatch ci r Some (MState pos prev rest []) with
  | Some s' =>
      Some (MResult pos (m_pos s') (firstn (m_pos s' - pos) rest)
              (m_caps s'))
  | None =>
      match rest with
      | [] => None
      | x :: rest' => search ci r (S pos) (Some x) rest'
      end
  end.

(** [s.match(re)] and [re.exec(s)] for a regex without the [g] flag. *)
Definition exec (ci : bool) (r : regex) (s : jsstring) : option mresult :=
  search ci r 0 None s.

(** [re.test(s)]. *)
Definition test (ci : bool) (r : regex) (s : jsstring) : bool :=
  match exec ci r s with Some _ => true | None => false end.

(** All matches of a [g] regex, left to right, each search resuming at
    the end of the previous match (one unit further after an empty
    match, as [matchAll] and [replace] do). *)
Fixpoint matchesFrom (fuel : nat) (ci : bool) (r : regex) (pos : nat)
  (prev : option N) (rest : jsstring) : list mresult :=
  match fuel with
  | O => []
  | S fuel' =>
      match search ci r pos prev rest with
      | None => []
      | Some res =>
          let consumed := (r_end res - pos)%nat in
          let rest' := skipn consumed rest in
          let prev' := match consumed with
                       | O => prev
                       | S _ => nth_error rest (consumed - 1)
                       end in
          if Nat.eqb (r_end res) (r_index res) then
            match rest' with
            | [] => [res]
            | x :: rest'' =>
                res :: matchesFrom fuel' ci r (S (r_end res)) (Some x) rest''
            end
          else res :: matchesFrom fuel' ci r (r_end res) prev' rest'
      end
  end.

Definition matchAll (ci : bool) (r : regex) (s : jsstring) : list mresult :=
  matchesFrom (S (length s)) ci r 0 None s.

(** [s.replace(re, f)] for a [g] regex: the text between the matches is
    kept, each match is replaced by [f] of it. *)
Fixpoint spliceFrom (pos : nat) (rest : jsstring) (ms : list mresult)
  (f : mresult -> jsstring) : jsstring :=
  match ms with
  | [] => rest
  | res :: ms' =>
      firstn (r_index res - pos) rest ++ f res
      ++ spliceFrom (r_end res) (skipn (r_end res - pos) rest) ms' f
  end.

Definition replaceAll (ci : bool) (r : regex) (f : mresult -> jsstring)
  (s : jsstring) : jsstring :=
  spliceFrom 0 s (matchAll ci r s) f.

(** Pattern combinators. *)
Fixpoint lit (w : jsstring) : regex :=
  match w with
  | [] => REmpty
  | [c] => RChar c
  | c :: w' => RSeq (RChar c) (lit w')
  end.

Fixpoint seq (rs : list regex) : regex :=
  match rs with
  | [] => REmpty
  | [r] => r
  | r :: rs' => RSeq r (seq rs')
  end.

Definition star (r : regex) : regex := RQuant true 0 None r.
Definition plus (r : regex) : regex := RQuant true 1 None r.
Definition opt (r : regex) : regex := RQuant true 0 (Some 1%nat) r.
Definition lazyStar (r : regex) : regex := RQuant false 0 None r.
Definition times (lo hi : nat) (r : regex) : regex :=
  RQuant true lo (Some hi) r.

Definition chars (w : string) : list citem := map CChar (str w).

(** The classes of the program's patterns: a digit, a white-space unit,
    any unit, any unit but the closing angle bracket, a quote (single or
    double: written q in the patterns quoted below) and any unit but a
    quote. *)
Definition digit : regex := RClass false [CDigit].
Definition space : regex := RClass false [CSpace].
Definition anyUnit : regex := RClass false [CSpace; CNotSpace].
Definition notGt : regex := RClass true (chars ">").
Definition quote : regex := RClass false [CChar 34; CChar 39].
Definition notQuote : regex := RClass true [CChar 34; CChar 39].

End Regex.

(** ** Markup extractor (src/index.js) *)

Import Regex.

Record Plan := { id : Z; label : jsstring }.

Record JsDate := { getFullYear : Z; getMonth : Z }.

Record YearMonth := { year : Z; month : Z }.

(** [text.replace(/<[^>]*>/g, '')] *)
Definition stripTags (text : jsstring) : jsstring :=
  replaceAll false (seq [lit (str "<"); star notGt; lit (str ">")])
    (fun _ => []) text.

(** [text.replace(/[.*+?^${}()|[\]\\]/g, '\\$&')] *)
Definition escapeRegExp (text : jsstring) : jsstring :=
  replaceAll false (RClass false (chars ".*+?^${}()|[]" ++ [CChar 92]))
    (fun m => 92 :: r_text m) text.

Definition replaceLit (pat : string) (by_ : jsstring) (text : jsstring)
  : jsstring :=
  replaceAll false (lit (str pat)) (fun _ => by_) text.

Definition decodeHtml (text : jsstring) : jsstring :=
  Js.trim
    (replaceLit "&nbsp;" (str " ")
       (replaceLit "&#39;" (str "'")
          (replaceLit "&quot;" [34]
             (replaceLit "&gt;" (str ">")
                (replaceLit "&lt;" (str "<")
                   (replaceLit "&amp;" (str "&") text)))))).

(** The patterns are quoted from the source with q for the class of the
    two quote characters (and a blank between a star and a closing
    parenthesis).

    [<input[^>]*name=qNAMEq[^>]*value=q([^q]* )q[^>]*>], flag [i].  The
    name is spliced in through [escapeRegExp], which makes the pattern
    match it as a literal. *)
Definition inputValuePattern (name : jsstring) : regex :=
  seq [lit (str "<input"); star notGt; lit (str "name="); quote; lit name;
       quote; star notGt; lit (str "value="); quote;
       RGroup 1 (star notQuote); quote; star notGt; lit (str ">")].

(** The same with [checked=qcheckedq[^>]*>] after the value. *)
Definition checkedValuePattern (name : jsstring) : regex :=
  seq [lit (str "<input"); star notGt; lit (str "name="); quote; lit name;
       quote; star notGt; lit (str "value="); quote;
       RGroup 1 (star notQuote); quote; star notGt; lit (str "checked=");
       quote; lit (str "checked"); quote; star notGt; lit (str ">")].

Definition extractInputValue (html name : jsstring) : jsstring :=
  match exec true (inputValuePattern name) html with
  | Some m => decodeHtml (capture 1 m)
  | None => []
  end.

Definition parseSelectedValue (html name : jsstring) : jsstring :=
  let hidden := extractInputValue html name in
  if Js.truthyStr hidden then hidden
  else
    match exec true (checkedValuePattern name) html with
    | Some m => decodeHtml (capture 1 m)
    | None => []
    end.

(** [<input[^>]*name=qplanq[^>]*id=qplan-(\d+)q[^>]*>\s*
     <label[^>]*for=qplan-\1q[^>]*>([\s\S]*?)<\/label>], flags [gi]. *)
Definition planPattern : regex :=
  seq [lit (str "<input"); star notGt; lit (str "name="); quote;
       lit (str "plan"); quote; star notGt; lit (str "id="); quote;
       lit (str "plan-"); RGroup 1 (plus digit); quote; star notGt;
       lit (str ">"); star space; lit (str "<label"); star notGt;
       lit (str "for="); quote; lit (str "plan-"); RBackref 1; quote;
       star notGt; lit (str ">"); RGroup 2 (lazyStar anyUnit);
       lit (str "</label>")].

(** The key of the [Set] in [dedupePlans]: [`${p.id}|${p.label}`]. *)
Definition planKey (p : Plan) : jsstring :=
  Js.numToString (id p) ++ str "|" ++ label p.

Definition dedupePlans (plans : list Plan) : list Plan :=
  snd (fold_left
         (fun (acc : gset jsstring * list Plan) p =>
            let '(seen, out) := acc in
            let key := planKey p in
            if bool_decide (key ∈ seen) then acc
            else ({[key]} ∪ seen, out ++ [p]))
         plans (∅, [])).

(** One iteration of the [while] loop of [parsePlans]. *)
Definition planStep (plans : list Plan) (m : mresult) : list Plan :=
  let labelRaw :=
    Js.trim (replaceAll false (plus space) (fun _ => str " ")
               (stripTags (capture 2 m))) in
  match Js.NumberOfDigits (capture 1 m) with
  | Some n =>
      if Js.truthyStr labelRaw
      then plans ++ [{| id := n; label := decodeHtml labelRaw |}]
      else plans
  | None => plans
  end.

(** The [plans] array when the loop ends. *)
Definition parsedPlans (html : jsstring) : list Plan :=
  fold_left planStep (matchAll true planPattern html) [].

Definition parsePlans (html : jsstring) : list Plan :=
  dedupePlans (parsedPlans html).

(** [<div class=qdateq>[\s\S]*?(\d{4})年[\s\S]*?<b>(\d{1,2})<\/b>月
     [\s\S]*?<\/div>], flag [i]; 年 is U+5E74 and 月 is U+6708. *)
Definition bannerPattern : regex :=
  seq [lit (str "<div class="); quote; lit (str "date"); quote;
       lit (str ">"); lazyStar anyUnit; RGroup 1 (times 4 4 digit);
       RChar 24180; lazyStar anyUnit; lit (str "<b>");
       RGroup 2 (times 1 2 digit); lit (str "</b>"); RChar 26376;
       lazyStar anyUnit; lit (str "</div>")].

Definition fallbackYearMonth (fallbackDate : JsDate) : YearMonth :=
  {| year := getFullYear fallbackDate;
     month := (getMonth fallbackDate + 1)%Z |}.

Definition parseYearMonth (html : jsstring) (fallbackDate : JsDate)
  : YearMonth :=
  match exec true bannerPattern html with
  | None => fallbackYearMonth fallbackDate
  | Some blockMatch =>
      match Js.NumberOfDigits (capture 1 blockMatch),
            Js.NumberOfDigits (capture 2 blockMatch) with
      | Some y, Some m => {| year := y; month := m |}
      | _, _ => fallbackYearMonth fallbackDate
      end
  end.

(** [^(\d{4})\/(\d{2})\/(\d{2})$] *)
Definition rsvDatePattern : regex :=
  seq [RBol; RGroup 1 (times 4 4 digit); lit (str "/");
       RGroup 2 (times 2 2 digit); lit (str "/");
       RGroup 3 (times 2 2 digit); REol].

Definition rsvDateToIso (raw : jsstring) : jsstring :=
  match exec false rsvDatePattern raw with
  | None => []
  | Some m => capture 1 m ++ str "-" ++ capture 2 m ++ str "-" ++ capture 3 m
  end.

Definition toIsoDate (y m d : Z) : jsstring :=
  Js.padStart0 4 (Js.numToString y) ++ str "-"
  ++ Js.padStart0 2 (Js.numToString m) ++ str "-"
  ++ Js.padStart0 2 (Js.numToString d).

(** [<td\b[^>]*>([\s\S]*?)<\/td>], flags [gi]. *)
Definition tdPattern : regex :=
  seq [lit (str "<td"); RWordB; star notGt; lit (str ">");
       RGroup 1 (lazyStar anyUnit); lit (str "</td>")].

(** [icon_circle\.svg] and [icon_disabled\.svg], flag [i]. *)
Definition iconCirclePattern : regex := lit (str "icon_circle.svg").
Definition iconDisabledPattern : regex := lit (str "icon_disabled.svg").

(** [Available], flag [i], and 受付中 (U+53D7 U+4ED8 U+4E2D). *)
Definition availablePattern : regex := lit (str "Available").
Definition uketsukePattern : regex := lit [21463; 20184; 20013].

(** [\d{4}\/\d{2}\/\d{2}] *)
Definition slashedDatePattern : regex :=
  seq [times 4 4 digit; lit (str "/"); times 2 2 digit; lit (str "/");
       times 2 2 digit].

(** [data-date=q(\d{4}\/\d{2}\/\d{2})q], flags [gi]. *)
Definition dataDatePattern : regex :=
  seq [lit (str "data-date="); quote; RGroup 1 slashedDatePattern; quote].

(** [<div class=qsc_cal_date(?:[^q]* )q>\s*(?:<a[^>]*>)?(\d{1,2})
     (?:<\/a>)?\s*<\/div>], flag [i]. *)
Definition dayPattern : regex :=
  seq [lit (str "<div class="); quote; lit (str "sc_cal_date");
       star notQuote; quote; lit (str ">"); star space;
       opt (seq [lit (str "<a"); star notGt; lit (str ">")]);
       RGroup 1 (times 1 2 digit); opt (lit (str "</a>")); star space;
       lit (str "</div>")].

(** [[...new Set(dates)]]: insertion order, first occurrence kept. *)
Definition setOf (dates : list jsstring) : list jsstring :=
  fold_left
    (fun out d => if bool_decide (d ∈ out) then out else out ++ [d])
    dates [].

(** The default comparison of [Array.prototype.sort]: code units,
    lexicographically. *)
Fixpoint strLe (a b : jsstring) : bool :=
  match a, b with
  | [], _ => true
  | _ :: _, [] => false
  | x :: a', y :: b' => (x <? y) || (x =? y) && strLe a' b'
  end.

Fixpoint insertSorted (d : jsstring) (l : list jsstring) : list jsstring :=
  match l with
  | [] => [d]
  | x :: l' => if strLe d x then d :: l else x :: insertSorted d l'
  end.

(** [dates.sort()]; on the duplicate-free lists it is applied to, every
    sorting algorithm returns this list. *)
Definition sortStrings (l : list jsstring) : list jsstring :=
  fold_right insertSorted [] l.

(** The dates pushed for the [data-date] matches of a cell. *)
Definition pushDataDates (dates : list jsstring) (dateMatches : list mresult)
  : list jsstring :=
  fold_left
    (fun ds m =>
       let iso := rsvDateToIso (capture 1 m) in
       if Js.truthyStr iso then ds ++ [iso] else ds)
    dateMatches dates.

(** The text fallback of a cell: its tail after the two icon tests. *)
Definition textStep (ym : YearMonth) (dates : list jsstring)
  (cell : jsstring) : list jsstring :=
  if negb (test true availablePattern cell)
     && negb (test false uketsukePattern cell)
  then dates
  else
    match exec true dayPattern cell with
    | None => dates
    | Some dayMatch =>
        match Js.NumberOfDigits (capture 1 dayMatch) with
        | None => dates
        | Some day =>
            if (day <? 1)%Z || (31 <? day)%Z then dates
            else dates ++ [toIsoDate (year ym) (month ym) day]
        end
    end.

(** One iteration of the [while] loop of [parseAvailableDates]. *)
Definition cellStep (ym : YearMonth) (dates : list jsstring)
  (cell : jsstring) : list jsstring :=
  let dateMatches :=
    if test true iconCirclePattern cell
    then matchAll true dataDatePattern cell else [] in
  if Nat.ltb 0 (length dateMatches) then pushDataDates dates dateMatches
  else if test true iconDisabledPattern cell then dates
  else textStep ym dates cell.

Definition tdCells (html : jsstring) : list jsstring :=
  map (capture 1) (matchAll true tdPattern html).

Definition parseAvailableDates (html : jsstring) (fallbackDate : JsDate)
  : list jsstring :=
  let ym := parseYearMonth html fallbackDate in
  sortStrings (setOf (fold_left (cellStep ym) (tdCells html) [])).

(** ** Session client: cookie merge (src/index.js) *)

(** [map.set(k, v)] on a [Map]: an existing key keeps its position and
    takes the new value, a new key goes last. *)
Fixpoint mapSet (k v : jsstring) (m : list (jsstring * jsstring))
  : list (jsstring * jsstring) :=
  match m with
  | [] => [(k, v)]
  | (k', v') :: m' =>
      if bool_decide (k' = k) then (k, v) :: m' else (k', v') :: mapSet k v m'
  end.

(** One iteration of the [for] loop of [mergeCookieHeaders]. *)
Definition cookieStep (m : list (jsstring * jsstring)) (part : jsstring)
  : list (jsstring * jsstring) :=
  let trimmed := Js.trim part in
  if negb (Js.truthyStr trimmed) then m
  else
    let eq := Js.indexOf 61 trimmed in
    if (eq <=? 0)%Z then m
    else
      let k := Js.trim (Js.slice 0 (Z.to_nat eq) trimmed) in
      let v := Js.trim (Js.sliceFrom (Z.to_nat eq + 1) trimmed) in
      mapSet k v m.

Definition cookieEntry (kv : jsstring * jsstring) : jsstring :=
  fst kv ++ str "=" ++ snd kv.

Definition cookieMap (existingCookie newCookie : jsstring)
  : list (jsstring * jsstring) :=
  fold_left cookieStep
    (Js.split 59 (existingCookie ++ str "; " ++ newCookie)) [].

Definition mergeCookieHeaders (existingCookie newCookie : jsstring)
  : jsstring :=
  Js.join (str "; ") (map cookieEntry (cookieMap existingCookie newCookie)).

(** ** Notification dispatcher: message splitting (src/index.js) *)

(** The inner [while (rest.length > maxLen)] loop.  [None] is the loop
    that never ends (a limit of zero on a non-empty rest); with a
    positive limit the fuel [length rest] is never used up. *)
Fixpoint hardSplit (fuel maxLen : nat) (chunks : list jsstring)
  (rest : jsstring) : option (list jsstring * jsstring) :=
  if Nat.leb (length rest) maxLen then Some (chunks, rest)
  else
    match fuel with
    | O => None
    | S fuel' =>
        hardSplit fuel' maxLen (chunks ++ [firstn maxLen rest])
          (skipn maxLen rest)
    end.

(** One iteration of the [for] loop over the lines: from
    [(chunks, current)] to the next pair. *)
Definition splitStep (maxLen : nat) (st : option (list jsstring * jsstring))
  (line : jsstring) : option (list jsstring * jsstring) :=
  match st with
  | None => None
  | Some (chunks, current) =>
      let candidate :=
        if Js.truthyStr current then current ++ [10] ++ line else line in
      if Nat.leb (length candidate) maxLen then Some (chunks, candidate)
      else
        let chunks1 :=
          if Js.truthyStr current then chunks ++ [current] else chunks in
        if Nat.leb (length line) maxLen then Some (chunks1, line)
        else hardSplit (length line) maxLen chunks1 line
  end.

Definition splitForTelegram (text : jsstring) (maxLen : nat)
  : option (list jsstring) :=
  if Nat.leb (length text) maxLen then Some [text]
  else
    match fold_left (splitStep maxLen) (Js.split 10 text) (Some ([], []))
    with
    | None => None
    | Some (chunks, current) =>
        Some (if Js.truthyStr current then chunks ++ [current] else chunks)
    end.

(** The limit [sendTelegramMessage] splits at. *)
Definition telegramLimit : nat := 3900.

(** ** Dedup state store *)

(** Values of a parsed JSON document.  Numbers are kept as integers: the
    program only observes whether a value is truthy. *)
Inductive jsval :=
| JNull
| JBool (b : bool)
| JNum (z : Z)
| JStr (s : jsstring)
| JArr (items : list jsval)
| JObj (fields : gmap jsstring jsval).

Definition truthy (v : jsval) : bool :=
  match v with
  | JNull => false
  | JBool b => b
  | JNum z => negb (z =? 0)%Z
  | JStr s => Js.truthyStr s
  | JArr _ | JObj _ => true
  end.

(** Truthiness of a property read; [None] is [undefined]. *)
Definition truthyOpt (o : option jsval) : bool :=
  match o with Some v => truthy v | None => false end.

Inductive jstype := TUndefined | TObject | TBoolean | TNumber | TString.

(** [typeof v]; [None] is [undefined], and [typeof null] is ['object']. *)
Definition typeof (o : option jsval) : jstype :=
  match o with
  | None => TUndefined
  | Some JNull => TObject
  | Some (JBool _) => TBoolean
  | Some (JNum _) => TNumber
  | Some (JStr _) => TString
  | Some (JArr _) | Some (JObj _) => TObject
  end.

(** [data.seen]: a [TypeError] on [null], the own property of an object,
    [undefined] on arrays and primitives. *)
Definition getSeen (data : jsval) : jsstring + option jsval :=
  match data with
  | JNull => inl (str "Cannot read properties of null (reading 'seen')")
  | JObj fields => inr (fields !! str "seen")
  | _ => inr None
  end.

(** What [loadState] meets on disk: [existsSync] is false; [readFileSync]
    throws; [JSON.parse] throws a [SyntaxError]; or the text parses to a
    document. *)
Inductive FileCondition :=
| FileMissing
| ReadFails (message : jsstring)
| ParseFails (message : jsstring)
| Parsed (data : jsval).

(** [{ seen: {} }] *)
Definition emptyState : jsval := JObj {[ str "seen" := JObj ∅ ]}.

Definition jtype_is_object (t : jstype) : bool :=
  match t with TObject => true | _ => false end.

(** The body of the [try] block of [loadState]: the returned state or the
    message of the error thrown. *)
Definition loadStateBody (file : FileCondition) : jsstring + jsval :=
  match file with
  | FileMissing => inr emptyState
  | ReadFails message => inl message
  | ParseFails message => inl message
  | Parsed data =>
      if negb (truthy data) then inr emptyState
      else if negb (jtype_is_object (typeof (Some data))) then inr emptyState
      else
        match getSeen data with
        | inl message => inl message
        | inr seen =>
            if negb (jtype_is_object (typeof seen)) then inr emptyState
            else inr data
        end
  end.

(** The line [console.warn] writes in the [catch] block; [now] is the
    reading of [nowIso()] there. *)
Definition loadWarning (now message : jsstring) : jsstring :=
  str "[" ++ now ++ str "] state load failed: " ++ message.

(** [loadState]: the state and the warnings written to the console. *)
Definition loadState (file : FileCondition) (now : jsstring)
  : jsval * list jsstring :=
  match loadStateBody file with
  | inr state => (state, [])
  | inl message => (emptyState, [loadWarning now message])
  end.

(** ** Polling cycle: the tail of [checkOnce] *)

Record Slot := {
  planId : Z;
  planLabel : jsstring;
  date : jsstring;
  key : jsstring
}.

(** The slot pushed to [found] for a plan and one of its dates. *)
Definition mkSlot (plan : Plan) (slotDate : jsstring) : Slot :=
  {| planId := id plan; planLabel := label plan; date := slotDate;
     key := Js.numToString (id plan) ++ str "|" ++ slotDate |}.

(** A reading of the clock, in UTC, and [toISOString] of it (for years
    0 to 9999). *)
Record Instant := {
  utcYear : Z; utcMonth : Z; utcDay : Z;
  utcHours : Z; utcMinutes : Z; utcSeconds : Z; utcMillis : Z
}.

Definition toISOString (t : Instant) : jsstring :=
  Js.padStart0 4 (Js.numToString (utcYear t)) ++ str "-"
  ++ Js.padStart0 2 (Js.numToString (utcMonth t)) ++ str "-"
  ++ Js.padStart0 2 (Js.numToString (utcDay t)) ++ str "T"
  ++ Js.padStart0 2 (Js.numToString (utcHours t)) ++ str ":"
  ++ Js.padStart0 2 (Js.numToString (utcMinutes t)) ++ str ":"
  ++ Js.padStart0 2 (Js.numToString (utcSeconds t)) ++ str "."
  ++ Js.padStart0 3 (Js.numToString (utcMillis t)) ++ str "Z".

(** The process as the cycle sees it: the in-memory [state.seen], the
    [seen] mapping last written to the state file, and the batches of
    slots handed to [sendTelegramMessage], oldest first. *)
Record World := {
  seen : gmap jsstring jsval;
  disk : gmap jsstring jsval;
  dispatched : list (list Slot)
}.

(** What one cycle meets: the slots discovery pushed to [found] ([None]
    when discovery threw), the readings of [nowIso()] and whether the
    dispatch succeeds. *)
Record Cycle := {
  found : option (list Slot);
  clock : nat -> Instant;
  sendOk : bool
}.

(** The lines of one slot in the alert. *)
Definition alertLines (slot : Slot) : list jsstring :=
  [str "Plan: " ++ planLabel slot ++ str " (ID: "
   ++ Js.numToString (planId slot) ++ str ")";
   str "Date: " ++ date slot;
   []].

(** [buildAlertText(foundSlots)]; [now] is the reading of [nowIso()] and
    [calendarUrl] the configured URL. *)
Definition buildAlertText (foundSlots : list Slot)
  (now calendarUrl : jsstring) : jsstring :=
  Js.join [10]
    ([str "Japan visa slot available"; []]
     ++ flat_map alertLines foundSlots
     ++ [str "Checked at: " ++ now; str "URL: " ++ calendarUrl]).

(** src/index.js *)

(** The comparison of [dedupeFoundSlots]: date, then plan id.  Dates are
    ISO strings, which [localeCompare] orders as their code units do. *)
Definition slotLe (a b : Slot) : bool :=
  if bool_decide (date a = date b) then (planId a <=? planId b)%Z
  else strLe (date a) (date b).

Fixpoint insertSlot (x : Slot) (l : list Slot) : list Slot :=
  match l with
  | [] => [x]
  | y :: l' => if slotLe x y then x :: l else y :: insertSlot x l'
  end.

Definition dedupeFoundSlots (slots : list Slot) : list Slot :=
  let byKey :=
    fold_left
      (fun (acc : list Slot) slot =>
         if existsb (fun s => bool_decide (key s = key slot)) acc
         then acc else acc ++ [slot])
      slots [] in
  fold_right insertSlot [] byKey.

(** The tail of [checkOnce] from [dedupeFoundSlots] on: the world after
    the cycle and whether the cycle threw. *)
Definition checkOnce (c : Cycle) (w : World) : World * bool :=
  match found c with
  | None => (w, true)
  | Some found =>
      let uniqueFound := dedupeFoundSlots found in
      if Nat.ltb 0 (length uniqueFound) then
        ({| seen := seen w; disk := disk w;
            dispatched := dispatched w ++ [uniqueFound] |},
         negb (sendOk c))
      else (w, false)
  end.

(** The [while (true)] loop of [main], cycle by cycle: a cycle that
    throws is logged and the loop goes on. *)
Definition runCycles (cycles : list Cycle) (w : World) : World :=
  fold_left (fun w c => fst (checkOnce c w)) cycles w.

(** ** The earlier variant of src/index.js *)

Module Legacy.

(** [<div class=qsc_cal_date(?:[^q]* )q>(\d{1,2})<\/div>], flag [i]. *)
Definition dayPattern : regex :=
  seq [lit (str "<div class="); quote; lit (str "sc_cal_date");
       star notQuote; quote; lit (str ">"); RGroup 1 (times 1 2 digit);
       lit (str "</div>")].

(** One iteration of the [while] loop of [parseAvailableDates]. *)
Definition cellStep (ym : YearMonth) (dates : list jsstring)
  (cell : jsstring) : list jsstring :=
  if negb (test true availablePattern cell)
     && negb (test false uketsukePattern cell)
  then dates
  else
    match exec true dayPattern cell with
    | None => dates
    | Some dayMatch =>
        match Js.NumberOfDigits (capture 1 dayMatch) with
        | None => dates
        | Some day =>
            if (day <? 1)%Z || (31 <? day)%Z then dates
            else dates ++ [toIsoDate (year ym) (month ym) day]
        end
    end.

Definition parseAvailableDates (html : jsstring) (fallbackDate : JsDate)
  : list jsstring :=
  let ym := parseYearMonth html fallbackDate in
  sortStrings (setOf (fold_left (cellStep ym) (tdCells html) [])).

(** One iteration of the seen-filter loop: the state's mapping, the new
    matches and the number of clock readings so far. *)
Definition filterStep (clock : nat -> Instant)
  (acc : gmap jsstring jsval * list Slot * nat) (slot : Slot)
  : gmap jsstring jsval * list Slot * nat :=
  let '(seen, newMatches, reads) := acc in
  if negb (truthyOpt (seen !! key slot))
  then (<[key slot := JStr (toISOString (clock reads))]> seen,
        newMatches ++ [slot], S reads)
  else acc.

Definition filterNew (clock : nat -> Instant) (found : list Slot)
  (seen : gmap jsstring jsval) : gmap jsstring jsval * list Slot :=
  fst (fold_left (filterStep clock) found (seen, [], O)).

(** The tail of [checkOnce] from the seen-filter on. *)
Definition checkOnce (c : Cycle) (w : World) : World * bool :=
  match found c with
  | None => (w, true)
  | Some found =>
      let '(seen', newMatches) := filterNew (clock c) found (seen w) in
      if Nat.ltb 0 (length newMatches) then
        let attempted :=
          {| seen := seen'; disk := disk w;
             dispatched := dispatched w ++ [newMatches] |} in
        if sendOk c
        then ({| seen := seen'; disk := seen';
                 dispatched := dispatched attempted |}, false)
        else (attempted, true)
      else ({| seen := seen'; disk := disk w;
               dispatched := dispatched w |}, false)
  end.

Definition runCycles (cycles : list Cycle) (w : World) : World :=
  fold_left (fun w c => fst (checkOnce c w)) cycles w.

End Legacy.

(** * Specification-level definitions *)

(** ** Trimmed strings *)

(** The string does not start with white space. *)
Definition noLeadingWs (s : jsstring) : Prop :=
  match s with c :: _ => Js.isWhiteSpace c = false | [] => True end.

(** ** The language of a pattern *)

Module RegexSpec.


(** The numbers of iterations of a quantifier [{lo,hi}]. *)
Definition count_ok (lo : nat) (hi : option nat) (n : nat) : Prop :=
  match hi with
  | Some h => (n <= h /\ (lo <= n \/ n = h))%nat
  | None => (lo <= n)%nat
  end.

(** The texts of a quantified atom with language [L]. *)
Definition quantLang (L : jsstring -> Prop) (lo : nat) (hi : option nat)
  (w : jsstring) : Prop :=
  exists ws, w = concat ws /\ Forall L ws /\ count_ok lo hi (length ws).

(** The texts a pattern can match, captures and assertions left out (a
    back-reference stands for any text, an assertion for the empty
    one): an upper bound on what the matcher accepts. *)
Fixpoint lang (ci : bool) (r : regex) (w : jsstring) : Prop :=
  match r with
  | REmpty => w = []
  | RChar c => exists x, w = [x] /\ canon ci x = canon ci c
  | RClass neg items => exists x, w = [x] /\ class_mem ci neg items x = true
  | RSeq r1 r2 => exists w1 w2, w = w1 ++ w2 /\ lang ci r1 w1 /\ lang ci r2 w2
  | RQuant _ lo hi r' => quantLang (lang ci r') lo hi w
  | RGroup _ r' => lang ci r' w
  | RBackref _ => True
  | RBol | REol | RWordB => w = []
  end.

(** The result comes from a successful run of the matcher of [r]. *)
Definition matchOf (ci : bool) (r : regex) (res : mresult) : Prop :=
  exists pos prev rest s',
    rmatch ci r Some (MState pos prev rest []) = Some s'
    /\ r_caps res = m_caps s'.

(** A matcher only succeeds through its continuation, past a text of
    the language [L]. *)
Definition sound (L : jsstring -> Prop) (m : cont -> cont) : Prop :=
  forall k s res,
    m k s = Some res ->
    exists w s',
      m_rest s = w ++ m_rest s' /\ L w
      /\ m_pos s' = (m_pos s + length w)%nat /\ k s' = Some res.

End RegexSpec.

(** ** Attribute order inside a tag *)

Module AttrOrder.









End AttrOrder.

(** ** The seen-filter, as the specification words it *)

Module SeenSpec.

(** A slot is new iff its key is not (truthily) in the seen mapping when
    the slot is examined, and examining a new slot marks its key. *)
Fixpoint newSlots (isSeen : jsstring -> bool) (found : list Slot)
  : list Slot :=
  match found with
  | [] => []
  | slot :: rest =>
      if isSeen (key slot) then newSlots isSeen rest
      else slot :: newSlots
                     (fun k => bool_decide (k = key slot) || isSeen k) rest
  end.

Definition isSeenIn (seen : gmap jsstring jsval) (k : jsstring) : bool :=
  truthyOpt (seen !! k).

End SeenSpec.

(** ** The cookie merge, as the specification words it *)

Module CookieSpec.

(** The text before and after the first [=], if there is one. *)
Fixpoint splitAtEq (s : jsstring) : option (jsstring * jsstring) :=
  match s with
  | [] => None
  | c :: s' =>
      if c =? 61 then Some ([], s')
      else match splitAtEq s' with
           | Some (k, v) => Some (c :: k, v)
           | None => None
           end
  end.

(** The pair of a well-formed segment; a segment with no [=] or with
    an empty key has none. *)
Definition segmentPair (segment : jsstring)
  : option (jsstring * jsstring) :=
  match splitAtEq (Js.trim segment) with
  | None => None
  | Some (rawKey, rawValue) =>
      let k := Js.trim rawKey in
      if Js.truthyStr k then Some (k, Js.trim rawValue) else None
  end.

(** The well-formed pairs of a header, in order: what the header sets
    when it is read as a cookie header. *)
Definition headerPairs (header : jsstring) : list (jsstring * jsstring) :=
  omap segmentPair (Js.split 59 header).

(** The well-formed pairs of the two headers, in order. *)
Definition cookiePairs (existingCookie newCookie : jsstring)
  : list (jsstring * jsstring) :=
  omap segmentPair (Js.split 59 (existingCookie ++ str "; " ++ newCookie)).

(** The value of the last pair with key [k] (keys compared exactly). *)
Fixpoint lastValue (k : jsstring) (pairs : list (jsstring * jsstring))
  : option jsstring :=
  match pairs with
  | [] => None
  | (k', v) :: rest =>
      match lastValue k rest with
      | Some v' => Some v'
      | None => if bool_decide (k' = k) then Some v else None
      end
  end.

(** The value a key is mapped to. *)
Fixpoint valueOf (k : jsstring) (m : list (jsstring * jsstring))
  : option jsstring :=
  match m with
  | [] => None
  | (k', v) :: m' => if bool_decide (k' = k) then Some v else valueOf k m'
  end.

End CookieSpec.

(** ** The message splitter, as the specification words it *)

Module SplitSpec.

(** A line cut into consecutive pieces of [maxLen] units, the last one
    possibly shorter; a line within the limit is its only piece. *)
Fixpoint pieces (fuel maxLen : nat) (line : jsstring) : list jsstring :=
  if Nat.leb (length line) maxLen then [line]
  else
    match fuel with
    | O => [line]
    | S fuel' =>
        firstn maxLen line :: pieces fuel' maxLen (skipn maxLen line)
    end.

Definition hardPieces (maxLen : nat) (line : jsstring) : list jsstring :=
  pieces (length line) maxLen line.

(** The non-empty strings of a list. *)
Definition nonEmpty (l : list jsstring) : list jsstring :=
  List.filter Js.truthyStr l.

(** A text without its line breaks. *)
Definition noBreaks (text : jsstring) : jsstring :=
  List.filter (fun c => negb (c =? 10)) text.

(** The first and the last line of the text are not empty. *)
Definition framed (text : jsstring) : bool :=
  Js.truthyStr (hd [] (Js.split 10 text))
  && Js.truthyStr (List.last (Js.split 10 text) []).

(** What a first non-empty line brings: as long as no chunk has been
    pushed the current chunk is the lines processed, joined; and after a
    non-empty line the current chunk is not empty. *)
Definition flowInv (processed : list jsstring)
  (chunks : list jsstring) (current : jsstring) : Prop :=
  match processed with
  | [] => chunks = [] /\ current = []
  | first :: _ =>
      first <> []
      /\ (chunks = [] -> current = Js.join [10] processed)
      /\ (List.last processed [] <> [] -> current <> [])
  end.

(** The loop invariant of [splitForTelegram]: the chunks pushed are
    non-empty and within the limit, so is the current one (which may be
    empty), and their lines are, empty ones apart, the pieces of the
    lines processed. *)
Definition splitInv (maxLen : nat) (processed : list jsstring)
  (st : option (list jsstring * jsstring)) : Prop :=
  exists chunks current,
    st = Some (chunks, current)
    /\ Forall (fun c => (0 < length c <= maxLen)%nat) chunks
    /\ (length current <= maxLen)%nat
    /\ nonEmpty (flat_map (Js.split 10) chunks ++ Js.split 10 current)
       = nonEmpty (flat_map (hardPieces maxLen) processed).

(** Line breaks only. *)
Definition lineBreaks (s : jsstring) : Prop := Forall (fun c => c = 10) s.

(** The text is the chunks, in order, with nothing but line breaks
    before, between and after them. *)
Fixpoint woven (chunks : list jsstring) (text : jsstring) : Prop :=
  match chunks with
  | [] => lineBreaks text
  | c :: cs =>
      exists gap rest,
        text = gap ++ c ++ rest /\ lineBreaks gap /\ woven cs rest
  end.

(** The first unit of the chunk is not a line break. *)
Definition startsLine (c : jsstring) : Prop := hd 10 c <> 10.

(** The loop invariant for the places of the chunks in the text: the
    lines processed, joined, are the chunks pushed, woven with line
    breaks, followed by the current chunk. *)
Definition weaveInv (processed : list jsstring)
  (chunks : list jsstring) (current : jsstring) : Prop :=
  Forall startsLine chunks
  /\ (current = [] \/ startsLine current)
  /\ exists pre,
       woven chunks pre /\ Js.join [10] processed = pre ++ current.

End SplitSpec.

(** ** Plan de-duplication, as the specification words it *)

Module PlanSpec.

#[global] Instance Plan_eq_dec : EqDecision Plan.
Proof. solve_decision. Defined.

(** The entries with no equal [(id, label)] entry in [before] or
    earlier in the list, in order. *)
Fixpoint keepFirst (before plans : list Plan) : list Plan :=
  match plans with
  | [] => []
  | p :: rest =>
      if bool_decide (p ∈ before) then keepFirst before rest
      else p :: keepFirst (p :: before) rest
  end.

(** Two [plan-N] input/label pairs with the same id and label. *)
Definition twoIdenticalPairs : jsstring :=
  str "<input type='radio' name='plan' id='plan-20'><label for='plan-20'>VISA up to 4</label>"
  ++ str "<input type='radio' name='plan' id='plan-20'><label for='plan-20'>VISA up to 4</label>".

(** The same id with two different label texts. *)
Definition sameIdTwoLabels : jsstring :=
  str "<input type='radio' name='plan' id='plan-20'><label for='plan-20'>VISA up to 4</label>"
  ++ str "<input type='radio' name='plan' id='plan-20'><label for='plan-20'>VISA with COE</label>".

End PlanSpec.

(** ** The classification of a calendar cell, as the specification words it *)

Module CellSpec.

Definition hasAvailableIcon (cell : jsstring) : bool :=
  test true iconCirclePattern cell.

Definition hasDisabledIcon (cell : jsstring) : bool :=
  test true iconDisabledPattern cell.

(** The cell holds Available (any case) or 受付中. *)
Definition hasAvailableText (cell : jsstring) : bool :=
  test true availablePattern cell || test false uketsukePattern cell.

(** The values of the [data-date] attributes of the cell that are
    written as four, two and two digits between slashes. *)
Definition dataDates (cell : jsstring) : list jsstring :=
  map (capture 1) (matchAll true dataDatePattern cell).

(** Four, two and two digits between slashes. *)
Definition slashedDate (w : jsstring) : Prop :=
  exists a b c d e f g h,
    w = [a; b; c; d; 47; e; f; 47; g; h]
    /\ Forall (fun x => Js.isDigit x = true) [a; b; c; d; e; f; g; h].

(** The ISO form of such a date: a hyphen for each slash. *)
Definition slashedToIso (w : jsstring) : jsstring :=
  map (fun c => if c =? 47 then 45 else c) w.

(** Those values, ISO-formatted. *)
Definition isoDataDates (cell : jsstring) : list jsstring :=
  map slashedToIso (dataDates cell).

(** The day of the date label of the cell, read with the pattern
    [pat]: no label, or the number captured ([None] for a capture that
    is not an integer). *)
Definition labelDayWith (pat : regex) (cell : jsstring)
  : option (option Z) :=
  match exec true pat cell with
  | Some dayMatch => Some (Js.NumberOfDigits (capture 1 dayMatch))
  | None => None
  end.

Definition validDay (d : Z) : bool := (1 <=? d)%Z && (d <=? 31)%Z.

(** Rule (c): text-based detection with the day of the date label and
    the ambient year and month. *)
Definition textDatesWith (pat : regex) (ym : YearMonth) (cell : jsstring)
  : list jsstring :=
  if hasAvailableText cell then
    match labelDayWith pat cell with
    | Some (Some d) =>
        if validDay d then [toIsoDate (year ym) (month ym) d] else []
    | _ => []
    end
  else [].

Definition labelDay := labelDayWith dayPattern.
Definition textDates := textDatesWith dayPattern.


(** The rule list of the code: rule (a) needs the available icon and at
    least one [data-date] value. *)
Definition cellDates (ym : YearMonth) (cell : jsstring) : list jsstring :=
  if hasAvailableIcon cell && Nat.ltb 0 (length (dataDates cell))
  then isoDataDates cell
  else if hasDisabledIcon cell then []
  else textDates ym cell.

(** The earlier variant knows rule (c) only, with its own pattern for
    the date label. *)
Definition legacyCellDates := textDatesWith Legacy.dayPattern.

(** Strictly ascending in the order of [sort()]. *)
Definition ascending (l : list jsstring) : Prop :=
  StronglySorted (fun a b => strLe a b = true /\ a <> b) l.


(** A cell with the available icon and no [data-date]. *)
Definition iconOnlyCalendar : jsstring :=
  str "<td><img src='icon_circle.svg' alt='Available'><div class='sc_cal_date'>5</div></td>".

Definition march2025 : JsDate := {| getFullYear := 2025; getMonth := 2 |}.

End CellSpec.

(** ** Scenarios *)

Definition demoInstant : Instant :=
  {| utcYear := 2025; utcMonth := 3; utcDay := 1; utcHours := 9;
     utcMinutes := 30; utcSeconds := 0; utcMillis := 0 |}.

Definition laterInstant : Instant :=
  {| utcYear := 2025; utcMonth := 3; utcDay := 2; utcHours := 9;
     utcMinutes := 30; utcSeconds := 0; utcMillis := 0 |}.

Definition demoSlot : Slot :=
  mkSlot {| id := 20; label := str "VISA Application" |} (str "2025-03-12").

Definition otherSlot : Slot :=
  mkSlot {| id := 34; label := str "Working Holiday" |} (str "2025-03-12").

(** A cycle that discovers [demoSlot] and whose dispatch succeeds. *)
Definition demoCycle : Cycle :=
  {| found := Some [demoSlot]; clock := fun _ => demoInstant;
     sendOk := true |}.

Definition laterCycle : Cycle :=
  {| found := Some [demoSlot; otherSlot]; clock := fun _ => laterInstant;
     sendOk := true |}.

(** The process right after [loadState] met no state file. *)
Definition freshWorld : World :=
  {| seen := ∅; disk := ∅; dispatched := [] |}.

(** * The rest of the program *)

(** ** Plan selection (src/index.js) *)

(** [{ id, label: `Plan ${id}` }]: the plan made up for an id that no
    parsed plan carries. *)
Definition namedPlan (planId : Z) : Plan :=
  {| id := planId; label := str "Plan " ++ Js.numToString planId |}.

(** [selectTargetPlans(allPlans)]; [planIds] is [config.planIds]. *)
Definition selectTargetPlans (planIds : list Z) (allPlans : list Plan)
  : list Plan :=
  if Nat.ltb 0 (length planIds) then
    let fromPage :=
      List.filter (fun plan => bool_decide (id plan ∈ planIds)) allPlans in
    if Nat.ltb 0 (length fromPage) then fromPage
    else map namedPlan planIds
  else allPlans.

(** The [found] array after the two nested loops of [checkOnce]: one
    entry of [results] per calendar fetched, with the plan it was fetched
    for and the dates [parseAvailableDates] read from it. *)
Definition foundSlots (results : list (Plan * list jsstring)) : list Slot :=
  flat_map (fun r => map (mkSlot (fst r)) (snd r)) results.

Module LegacyPlans.

(** [visa], flag [i]. *)
Definition visaPattern : regex := lit (str "visa").

(** [selectTargetPlans(allPlans)] of the earlier variant. *)
Definition selectTargetPlans (planIds : list Z) (allPlans : list Plan)
  : list Plan :=
  if Nat.ltb 0 (length planIds) then
    List.filter (fun plan => bool_decide (id plan ∈ planIds)) allPlans
  else
    let visaPlans :=
      List.filter (fun plan => test true visaPattern (label plan)) allPlans in
    if Nat.ltb 0 (length visaPlans) then visaPlans else allPlans.

End LegacyPlans.

(** ** Found slots, at the level of the specification *)

(** The order of the comparison function, spelled out. *)
Definition slotOrder (a b : Slot) : Prop :=
  strLe (date a) (date b) = true
  /\ (date a = date b -> (planId a <= planId b)%Z).

(** The first slot of a list with the key of [s]. *)
Definition firstWithKey (slots : list Slot) (s : Slot) : option Slot :=
  find (fun x => bool_decide (key x = key s)) slots.

(** ** Notification dispatcher: sending (src/index.js) *)

(** The part of [config] that [sendTelegramMessage] reads. *)
Record TelegramConfig := {
  dryRun : bool;
  telegramBotToken : jsstring;
  telegramChatId : jsstring
}.

(** What a call of [fetchWithTimeout] to the Bot API comes to: the call
    throws (network error, abort on timeout); the response is not [ok],
    with its status and its text or the message of the error that
    reading the text throws; the response is [ok]. *)
Inductive Reply :=
| FetchThrows (message : jsstring)
| NotOk (status : Z) (body : jsstring + jsstring)
| Accepted.

(** A call of [fetchWithTimeout]: the URL and the [chat_id] and [text]
    fields of the JSON body. *)
Record Post := {
  postUrl : jsstring;
  chat_id : jsstring;
  postText : jsstring
}.

Inductive Outcome :=
| Returns
| Throws (message : jsstring).

Definition postOf (url chatId chunk : jsstring) : Post :=
  {| postUrl := url; chat_id := chatId; postText := chunk |}.

(** The [for] loop over the chunks; [n] counts the calls made so far and
    [replies n] is what call [n] comes to. *)
Fixpoint postChunks (url chatId : jsstring) (replies : nat -> Reply)
  (n : nat) (chunks : list jsstring) : list Post * Outcome :=
  match chunks with
  | [] => ([], Returns)
  | chunk :: rest =>
      let post := postOf url chatId chunk in
      match replies n with
      | FetchThrows message => ([post], Throws message)
      | NotOk status (inl message) => ([post], Throws message)
      | NotOk status (inr body) =>
          ([post],
           Throws (str "telegram send failed: " ++ Js.numToString status
                   ++ str " " ++ body))
      | Accepted =>
          let '(posts, outcome) :=
            postChunks url chatId replies (S n) rest in
          (post :: posts, outcome)
      end
  end.

(** [`https://api.telegram.org/bot${config.telegramBotToken}/sendMessage`] *)
Definition sendMessageUrl (config : TelegramConfig) : jsstring :=
  str "https://api.telegram.org/bot" ++ telegramBotToken config
  ++ str "/sendMessage".

(** [sendTelegramMessage(text)]: the calls made, the lines logged and how
    the function ends; [None] if it never ends.  [now] is the reading of
    [nowIso()]. *)
Definition sendTelegramMessage (config : TelegramConfig) (now : jsstring)
  (replies : nat -> Reply) (text : jsstring)
  : option (list Post * list jsstring * Outcome) :=
  if dryRun config then
    Some ([],
          [str "[" ++ now ++ str "] DRY_RUN telegram message:" ++ [10]
           ++ text],
          Returns)
  else if negb (Js.truthyStr (telegramBotToken config))
          || negb (Js.truthyStr (telegramChatId config)) then
    Some ([], [],
          Throws (str "TELEGRAM_BOT_TOKEN and TELEGRAM_CHAT_ID are required (unless DRY_RUN=true)"))
  else
    match splitForTelegram text telegramLimit with
    | None => None
    | Some chunks =>
        let '(posts, outcome) :=
          postChunks (sendMessageUrl config) (telegramChatId config)
            replies 0 chunks in
        Some (posts, [], outcome)
    end.

(** ** Session client: the cookies of a response (src/index.js) *)






(** ** The captures of a pattern *)

Module CaptureSpec.
Import RegexSpec.

(** The texts that group [n] of a pattern can capture. *)
Fixpoint groupLang (ci : bool) (r : regex) (n : nat) (w : jsstring) : Prop :=
  match r with
  | RGroup m r' => (m = n /\ lang ci r' w) \/ groupLang ci r' n w
  | RSeq r1 r2 => groupLang ci r1 n w \/ groupLang ci r2 n w
  | RQuant _ _ _ r' => groupLang ci r' n w
  | _ => False
  end.

(** Every capture recorded in a state satisfies [P]. *)
Definition capsIn (P : nat -> jsstring -> Prop) (s : mstate) : Prop :=
  Forall (fun c => P (fst c) (snd c)) (m_caps s).

(** [sound] with captures: a matcher that keeps the captures in [P]. *)
Definition soundCaps (P : nat -> jsstring -> Prop) (L : jsstring -> Prop)
  (m : cont -> cont) : Prop :=
  forall k s res,
    m k s = Some res -> capsIn P s ->
    exists w s',
      m_rest s = w ++ m_rest s' /\ L w /\ capsIn P s' /\ k s' = Some res.

End CaptureSpec.

(** [String(n).padStart(2, '0')] *)
Definition pad2 (n : Z) : jsstring := Js.padStart0 2 (Js.numToString n).

(** ** Replacement of all matches, at the level of the specification *)

Module RewriteSpec.

(** The replacement of every match of a pattern whose match at a
    position is determined by the text from there on: [matchLen rest] is
    the length of the match that starts [rest], if there is one, and [g]
    gives the replacement of a matched text.  [skip] is the number of
    units still to pass over after a match. *)
Fixpoint rewriteWith (matchLen : jsstring -> option nat)
  (g : jsstring -> jsstring) (skip : nat) (rest : jsstring) : jsstring :=
  match rest with
  | [] => []
  | x :: rest' =>
      match skip with
      | S k => rewriteWith matchLen g k rest'
      | O =>
          match matchLen rest with
          | Some n => g (firstn n rest) ++ rewriteWith matchLen g (n - 1) rest'
          | None => x :: rewriteWith matchLen g 0 rest'
          end
      end
  end.

(** The pattern matches at a position as [matchLen] says. *)
Definition locates (ci : bool) (r : regex)
  (matchLen : jsstring -> option nat) : Prop :=
  (forall pos prev rest,
     match rmatch ci r Some (MState pos prev rest []) with
     | Some s' =>
         exists n, matchLen rest = Some n /\ m_pos s' = (pos + n)%nat
     | None => matchLen rest = None
     end)
  /\ (forall rest n,
        matchLen rest = Some n -> (0 < n <= length rest)%nat).

End RewriteSpec.

(** The match of a one-unit class at a position. *)
Definition classLen (neg : bool) (items : list citem) (rest : jsstring)
  : option nat :=
  match rest with
  | x :: _ => if class_mem false neg items x then Some 1%nat else None
  | [] => None
  end.

(** The match of a literal at a position (no [i] flag). *)
Definition litLen (w rest : jsstring) : option nat :=
  if prefix_ci false w rest then Some (length w) else None.

(** The characters that [escapeRegExp] escapes. *)
Definition specialChars : jsstring := str ".*+?^${}()|[]" ++ [92].

(** The number of units before the first closing angle bracket. *)
Fixpoint untilGt (s : jsstring) : option nat :=
  match s with
  | [] => None
  | c :: s' => if c =? 62 then Some O else option_map S (untilGt s')
  end.

(** The tag that starts a text: an opening angle bracket and everything
    up to the first closing one. *)
Definition tagLen (rest : jsstring) : option nat :=
  match rest with
  | c :: rest' =>
      if c =? 60 then option_map (fun n => (n + 2)%nat) (untilGt rest')
      else None
  | [] => None
  end.

(** No opening angle bracket of the text has a closing one after it. *)
Definition tagFree (s : jsstring) : Prop :=
  forall a b, s = a ++ 60 :: b -> ~ In 62 b.

(** The greedy star of a class in front of the continuation [k]: the
    longest run first, then one unit less, down to none. *)
Fixpoint starTry (neg : bool) (items : list citem) (k : cont)
  (rest : jsstring) (s : mstate) : option mstate :=
  match rest with
  | x :: rest' =>
      if class_mem false neg items x then
        match starTry neg items k rest' (advance1 x rest' s) with
        | Some res => Some res
        | None => k s
        end
      else k s
  | [] => k s
  end.

(** ** Numbers and the conversion of strings to numbers *)

Module JsNumber.

(** A Number: [NaN], an infinity, or the finite value
    [(-1)^negative * m * 2^e].  A value has several such forms (4 is
    [1 * 2^2] and [4 * 2^0]); the functions below depend on the value
    only.  [Fin true 0 _] is the negative zero. *)
Inductive t :=
| NaN
| Inf (negative : bool)
| Fin (negative : bool) (m : N) (e : Z).

(** [Number.isFinite(n)] *)
Definition isFinite (n : t) : bool :=
  match n with Fin _ _ _ => true | _ => false end.

(** [n <= 0], [n < 0] and [n > 0] *)
Definition le0 (n : t) : bool :=
  match n with
  | NaN => false
  | Inf negative => negative
  | Fin negative m _ => negative || (m =? 0)
  end.

Definition lt0 (n : t) : bool :=
  match n with
  | NaN => false
  | Inf negative => negative
  | Fin negative m _ => negative && negb (m =? 0)
  end.

Definition gt0 (n : t) : bool :=
  match n with
  | NaN => false
  | Inf negative => negb negative
  | Fin negative m _ => negb negative && negb (m =? 0)
  end.

(** [Number.isInteger(n)] *)
Definition isInteger (n : t) : bool :=
  match n with
  | Fin _ m e => (0 <=? e)%Z || (Z.of_N m mod 2 ^ (- e) =? 0)%Z
  | _ => false
  end.

(** [Math.floor(n)] of a finite number, as an integer (the negative
    zero is read as zero). *)
Definition floor (n : t) : Z :=
  match n with
  | Fin negative m e =>
      let v := if negative then (- Z.of_N m)%Z else Z.of_N m in
      if (0 <=? e)%Z then (v * 2 ^ e)%Z else (v / 2 ^ (- e))%Z
  | _ => 0%Z
  end.

(** The Number nearest to [p / q] (for [0 <= p] and [0 < q]), ties to
    the even significand: 53 bits of significand, exponents from -1074,
    and an infinity from [2^1024] on. *)
Definition roundRatio (negative : bool) (p q : Z) : t :=
  if (p =? 0)%Z then Fin negative 0 0
  else
    let e1 := (Z.log2 p - Z.log2 q - 52)%Z in
    let quot :=
      if (0 <=? e1)%Z then (p / (q * 2 ^ e1))%Z
      else (p * 2 ^ (- e1) / q)%Z in
    let e2 := if (quot <? 2 ^ 52)%Z then (e1 - 1)%Z else e1 in
    let e := Z.max e2 (-1074) in
    let num := if (0 <=? e)%Z then p else (p * 2 ^ (- e))%Z in
    let den := if (0 <=? e)%Z then (q * 2 ^ e)%Z else q in
    let q0 := (num / den)%Z in
    let r := (num mod den)%Z in
    let m := if (den <? 2 * r)%Z || (2 * r =? den)%Z && Z.odd q0
             then (q0 + 1)%Z else q0 in
    if (0 <=? e)%Z && (2 ^ 1024 <=? m * 2 ^ e)%Z then Inf negative
    else Fin negative (Z.to_N m) e.

(** The value of a digit in a base up to 16, if the unit is one. *)
Definition digitOf (base : Z) (c : N) : option Z :=
  let v :=
    if (48 <=? c) && (c <=? 57) then Some (Z.of_N c - 48)%Z
    else if (97 <=? c) && (c <=? 102) then Some (Z.of_N c - 87)%Z
    else if (65 <=? c) && (c <=? 70) then Some (Z.of_N c - 55)%Z
    else None in
  match v with
  | Some d => if (d <? base)%Z then Some d else None
  | None => None
  end.

(** The value of a non-empty run of digits of a base. *)
Fixpoint digitsIn (base : Z) (acc : Z) (s : jsstring) : option Z :=
  match s with
  | [] => Some acc
  | c :: s' =>
      match digitOf base c with
      | Some d => digitsIn base (acc * base + d) s'
      | None => None
      end
  end.

(** NonDecimalIntegerLiteral: [0x], [0o] or [0b] (either case) and
    digits of the base.  [None]: the text does not start that way. *)
Definition nonDecimal (s : jsstring) : option t :=
  match s with
  | 48 :: x :: ds =>
      let base :=
        if (x =? 120) || (x =? 88) then Some 16%Z
        else if (x =? 111) || (x =? 79) then Some 8%Z
        else if (x =? 98) || (x =? 66) then Some 2%Z
        else None in
      match base with
      | Some b =>
          match ds, digitsIn b 0 ds with
          | _ :: _, Some v => Some (roundRatio false v 1)
          | _, _ => Some NaN
          end
      | None => None
      end
  | _ => None
  end.

(** The longest run of decimal digits at the start, and the rest. *)
Fixpoint spanDigits (s : jsstring) : jsstring * jsstring :=
  match s with
  | c :: s' =>
      if Js.isDigit c
      then let '(ds, rest) := spanDigits s' in (c :: ds, rest)
      else ([], s)
  | [] => ([], [])
  end.

(** ExponentPart, or nothing, up to the end of the text: the exponent,
    or [None] when the text is neither. *)
Definition exponentPart (s : jsstring) : option Z :=
  match s with
  | [] => Some 0%Z
  | c :: s' =>
      if (c =? 101) || (c =? 69) then
        let '(negative, ds) :=
          match s' with
          | 45 :: ds => (true, ds)
          | 43 :: ds => (false, ds)
          | _ => (false, s')
          end in
        match spanDigits ds with
        | (d :: es, []) =>
            Some (if negative then (- Js.digitsValue (d :: es))%Z
                  else Js.digitsValue (d :: es))
        | _ => None
        end
      else None
  end.

(** The Number of [digits * 10^exp10]. *)
Definition ofDecimal (negative : bool) (digits exp10 : Z) : t :=
  if (0 <=? exp10)%Z then roundRatio negative (digits * 10 ^ exp10) 1
  else roundRatio negative digits (10 ^ (- exp10)).

(** StrUnsignedDecimalLiteral, up to the end of the text. *)
Definition unsignedDecimal (negative : bool) (s : jsstring) : t :=
  if bool_decide (s = str "Infinity") then Inf negative
  else
    let '(ints, rest) := spanDigits s in
    let '(fracs, rest') :=
      match rest with
      | 46 :: rest1 => spanDigits rest1
      | _ => ([], rest)
      end in
    let dotted := match rest with 46 :: _ => true | _ => false end in
    match ints, fracs with
    | [], [] => NaN
    | _, _ =>
        match exponentPart rest' with
        | Some e =>
            ofDecimal negative (Js.digitsValue (ints ++ fracs))
              (e - Z.of_nat (length fracs))
        | None => NaN
        end
    end.

(** StringToNumber: [Number(s)] for a string. *)
Definition ofString (s : jsstring) : t :=
  match Js.trim s with
  | [] => Fin false 0 0
  | text =>
      match nonDecimal text with
      | Some n => n
      | None =>
          match text with
          | 45 :: rest => unsignedDecimal true rest
          | 43 :: rest => unsignedDecimal false rest
          | _ => unsignedDecimal false text
          end
      end
  end.

End JsNumber.

(** [Number(value)] for a string or [undefined] ([None]). *)
Definition Number (value : option jsstring) : JsNumber.t :=
  match value with
  | Some s => JsNumber.ofString s
  | None => JsNumber.NaN
  end.

(** ** Configuration (src/index.js) *)

Definition toPositiveInt (value : option jsstring) (fallback : Z) : Z :=
  let n := Number value in
  if negb (JsNumber.isFinite n) || JsNumber.le0 n then fallback
  else JsNumber.floor n.

Definition toNonNegativeInt (value : option jsstring) (fallback : Z) : Z :=
  let n := Number value in
  if negb (JsNumber.isFinite n) || JsNumber.lt0 n then fallback
  else JsNumber.floor n.

(** [parseCsvInts(raw)]: the integers are returned by their values. *)
Definition parseCsvInts (raw : jsstring) : list Z :=
  map JsNumber.floor
    (List.filter (fun n => JsNumber.isInteger n && JsNumber.gt0 n)
       (map JsNumber.ofString
          (List.filter Js.truthyStr (map Js.trim (Js.split 44 raw))))).

(** ** Polling cycle: the plans to check (src/index.js) *)

(** [allPlans] after the first [if] of [checkOnce]: the plans parsed
    from the page of the visa category or, when there is none and the
    selected plan id is a positive integer, the plan made up for that
    id. *)
Definition pagePlans (visaContextHtml : jsstring) : list Plan :=
  let selectedPlanId :=
    Number (Some (parseSelectedValue visaContextHtml (str "plan"))) in
  let allPlans := parsePlans visaContextHtml in
  if Nat.eqb (length allPlans) 0
     && JsNumber.isInteger selectedPlanId && JsNumber.gt0 selectedPlanId
  then allPlans ++ [namedPlan (JsNumber.floor selectedPlanId)]
  else allPlans.

(** [targetPlans]: [seedHtml] is the calendar fetched without a plan,
    which is asked for only when no plan id is configured. *)
Definition targetPlans (planIds : list Z)
  (visaContextHtml seedHtml : jsstring) : list Plan :=
  let allPlans := pagePlans visaContextHtml in
  let allPlans :=
    if Nat.eqb (length planIds) 0 then
      let discoveredPlans := parsePlans seedHtml in
      if Nat.ltb 0 (length discoveredPlans)
      then dedupePlans discoveredPlans else allPlans
    else allPlans in
  selectTargetPlans planIds allPlans.

(** ** Dates: the time values of ECMAScript *)

Module JsTime.
Local Open Scope Z_scope.

Definition msPerDay : Z := 86400000.

(** [Day(t)] and [TimeWithinDay(t)] *)
Definition Day (t : Z) : Z := t / msPerDay.
Definition TimeWithinDay (t : Z) : Z := t mod msPerDay.

Definition DaysInYear (y : Z) : Z :=
  if negb (y mod 4 =? 0) then 365
  else if negb (y mod 100 =? 0) then 366
  else if negb (y mod 400 =? 0) then 365
  else 366.

(** [DayFromYear(y)]: the day number of the first day of year [y]. *)
Definition DayFromYear (y : Z) : Z :=
  365 * (y - 1970) + (y - 1969) / 4 - (y - 1901) / 100 + (y - 1601) / 400.

(** The year of a day number: the largest [y] with
    [DayFromYear y <= day] (see [YearFromDay_spec]), found within the
    cycle of 400 years and 146097 days that starts with the year 2000,
    on day 10957. *)
Definition YearFromDay (day : Z) : Z :=
  let z := day - 10957 in
  let r := z mod 146097 in
  let k0 := r / 366 in
  let k :=
    if DayFromYear (2000 + k0 + 2) - 10957 <=? r then k0 + 2
    else if DayFromYear (2000 + k0 + 1) - 10957 <=? r then k0 + 1
    else k0 in
  2000 + 400 * (z / 146097) + k.

Definition YearFromTime (t : Z) : Z := YearFromDay (Day t).

(** 1 in a leap year, else 0. *)
Definition InLeapYear (y : Z) : Z := DaysInYear y - 365.

(** The number of days of year [y] before its month [mn] (0 to 12). *)
Definition monthStart (y mn : Z) : Z :=
  let leap := InLeapYear y in
  if mn <=? 0 then 0
  else if mn =? 1 then 31
  else if mn =? 2 then 59 + leap
  else if mn =? 3 then 90 + leap
  else if mn =? 4 then 120 + leap
  else if mn =? 5 then 151 + leap
  else if mn =? 6 then 181 + leap
  else if mn =? 7 then 212 + leap
  else if mn =? 8 then 243 + leap
  else if mn =? 9 then 273 + leap
  else if mn =? 10 then 304 + leap
  else if mn =? 11 then 334 + leap
  else 365 + leap.

Definition DayWithinYear (t : Z) : Z :=
  Day t - DayFromYear (YearFromTime t).

(** [MonthFromTime(t)]: 0 for January to 11 for December. *)
Definition MonthFromTime (t : Z) : Z :=
  let y := YearFromTime t in
  let d := DayWithinYear t in
  if d <? monthStart y 1 then 0
  else if d <? monthStart y 2 then 1
  else if d <? monthStart y 3 then 2
  else if d <? monthStart y 4 then 3
  else if d <? monthStart y 5 then 4
  else if d <? monthStart y 6 then 5
  else if d <? monthStart y 7 then 6
  else if d <? monthStart y 8 then 7
  else if d <? monthStart y 9 then 8
  else if d <? monthStart y 10 then 9
  else if d <? monthStart y 11 then 10
  else 11.

(** [DateFromTime(t)]: the day of the month, from 1. *)
Definition DateFromTime (t : Z) : Z :=
  DayWithinYear t - monthStart (YearFromTime t) (MonthFromTime t) + 1.

(** [MakeDay(year, month, date)] for integers: the day number of the
    first day of month [month mod 12] of year [year + month / 12] (see
    [MakeDay_first]), moved on by [date - 1] days. *)
Definition MakeDay (year month date : Z) : Z :=
  let ym := year + month / 12 in
  let mn := month mod 12 in
  DayFromYear ym + monthStart ym mn + date - 1.

Definition MakeDate (day time : Z) : Z := day * msPerDay + time.

(** [TimeClip(time)]: [None] is [NaN]. *)
Definition TimeClip (time : Z) : option Z :=
  if 8640000000000000 <? Z.abs time then None else Some time.

(** [f] holds on the [n] integers from [z] on. *)
Fixpoint holdsFrom (f : Z -> bool) (n : nat) (z : Z) : bool :=
  match n with
  | O => true
  | S n' => f z && holdsFrom f n' (z + 1)
  end.

End JsTime.

(** A [Date] object: its time value, [None] for an invalid date.  The
    time zone of the host is given by [toLocal], the local time of a
    time value ([LocalTime(t)]), and [toUTC], the time value of a local
    time ([UTC(t)]). *)
Module DateObj.
Import JsTime.

Section Zone.

Variables toLocal toUTC : Z -> Z.

Definition getFullYear (d : option Z) : option Z :=
  option_map (fun t => YearFromTime (toLocal t)) d.

Definition getMonth (d : option Z) : option Z :=
  option_map (fun t => MonthFromTime (toLocal t)) d.

Definition getDate (d : option Z) : option Z :=
  option_map (fun t => DateFromTime (toLocal t)) d.

(** [d.setMonth(month)]: the new time value of [d]. *)
Definition setMonth (d : option Z) (month : option Z) : option Z :=
  match d, month with
  | Some tv, Some m =>
      let t := toLocal tv in
      let newDate :=
        MakeDate (MakeDay (YearFromTime t) m (DateFromTime t))
          (TimeWithinDay t) in
      TimeClip (toUTC newDate)
  | _, _ => None
  end.

End Zone.

End DateObj.

(** ** The dates of the calendars (src/index.js) *)

Section CalendarDates.

Variables toLocal toUTC : Z -> Z.

(** [addMonths(dateObj, months)] *)
Definition addMonths (dateObj : option Z) (months : Z) : option Z :=
  let d := dateObj in
  DateObj.setMonth toLocal toUTC d
    (option_map (fun m => (m + months)%Z) (DateObj.getMonth toLocal d)).

(** [String(n)] for the reading of a date: [NaN] on an invalid date. *)
Definition showField (n : option Z) : jsstring :=
  match n with
  | Some z => Js.numToString z
  | None => str "NaN"
  end.

(** [formatRsvDate(dateObj)] *)
Definition formatRsvDate (dateObj : option Z) : jsstring :=
  showField (DateObj.getFullYear toLocal dateObj) ++ str "/"
  ++ Js.padStart0 2
       (showField (option_map (fun m => (m + 1)%Z)
                     (DateObj.getMonth toLocal dateObj)))
  ++ str "/"
  ++ Js.padStart0 2 (showField (DateObj.getDate toLocal dateObj)).

(** The fallback date that [checkOnce] hands to [parseAvailableDates]
    with a calendar, as that function reads it. *)
Definition fallbackOf (tv : Z) : JsDate :=
  {| getFullYear := JsTime.YearFromTime (toLocal tv);
     getMonth := JsTime.MonthFromTime (toLocal tv) |}.

End CalendarDates.

(** The number of days of month [mn] (0 to 11) of year [y]. *)
Definition daysInMonth (y mn : Z) : Z :=
  (JsTime.monthStart y (mn + 1) - JsTime.monthStart y mn)%Z.

(** ** Restart: the state store over two runs (the earlier variant) *)

(** The shape of [state.seen] in the process: a plain object, or an
    array, with the elements it has when the state is written (a state
    file that holds an array under [seen] passes [loadState]). *)
Inductive SeenShape :=
| PlainObject
| ArrayObject (items : list jsval).

(** The document [saveState] leaves in the state file.  Of a plain
    object [JSON.stringify] writes the marks; of an array it writes the
    elements only, not the marks, which the cycles set on it as
    properties (the key of a slot holds a vertical bar and is no array
    index).  Other fields of the state play no part. *)
Definition savedDocument (shape : SeenShape) (w : World) : jsval :=
  JObj {[ str "seen" := match shape with
                        | PlainObject => JObj (disk w)
                        | ArrayObject items => JArr items
                        end ]}.

(** The properties that a read finds on an array: its elements by
    index, and its length. *)
Definition arrayProps (items : list jsval) : gmap jsstring jsval :=
  <[ str "length" := JNum (Z.of_nat (length items)) ]>
    (list_to_map
       (imap (fun i v => (Js.numToString (Z.of_nat i), v)) items)).

(** What the reads [state.seen[key]] find on a loaded state whose
    [seen] is an object. *)
Definition seenOf (state : jsval) : gmap jsstring jsval :=
  match state with
  | JObj fields =>
      match fields !! str "seen" with
      | Some (JObj marks) => marks
      | Some (JArr items) => arrayProps items
      | _ => ∅
      end
  | _ => ∅
  end.

(** The process started anew: [main] loads the state from the file,
    and memory and file agree. *)
Definition restart (shape : SeenShape) (now : jsstring) (w : World)
  : World :=
  let loaded :=
    seenOf (fst (loadState (Parsed (savedDocument shape w)) now)) in
  {| seen := loaded; disk := loaded; dispatched := dispatched w |}.

(** What holds of a world reached from [w0]: no key was dispatched
    twice, every key dispatched is marked as seen and was not at the
    start, and what was seen at the start still is. *)
Definition alertedOnce (w0 w : World) : Prop :=
  List.NoDup (map key (concat (dispatched w)))
  /\ (forall slot, In slot (concat (dispatched w)) ->
        SeenSpec.isSeenIn (seen w) (key slot) = true
        /\ SeenSpec.isSeenIn (seen w0) (key slot) = false)
  /\ (forall k, SeenSpec.isSeenIn (seen w0) k = true ->
                 SeenSpec.isSeenIn (seen w) k = true).

(** * Properties *)

Module RegexFacts.
Import RegexSpec.

Lemma count_ok_succ lo hi n :
  hi <> Some 0%nat ->
  count_ok (Nat.pred lo) (option_map Nat.pred hi) n ->
  count_ok lo hi (S n).
Proof.
  destruct hi as [[|h]|]; simpl; [congruence | |]; intros _ H; lia.
Qed.

Lemma count_ok_zero lo hi :
  hi = Some 0%nat \/ lo = 0%nat -> count_ok lo hi 0.
Proof.
  intros [-> | ->]; simpl; [lia |]. destruct hi; simpl; lia.
Qed.

Lemma rep_sound L m g fuel :
  sound L m ->
  forall lo hi, sound (quantLang L lo hi) (rep m g fuel lo hi).
Proof.
  intros Hm. induction fuel as [|fuel IH]; intros lo hi k s res H.
  - discriminate.
  - assert (Hstop : hi = Some 0%nat \/ lo = 0%nat ->
                    k s = Some res ->
                    exists w s', m_rest s = w ++ m_rest s'
                      /\ quantLang L lo hi w
                      /\ m_pos s' = (m_pos s + length w)%nat
                      /\ k s' = Some res).
    { intros Hz Hk. exists [], s. repeat split; auto.
      exists []. split; [reflexivity | split; [constructor |]].
      apply count_ok_zero. exact Hz. }
    assert (Hagain :
              hi <> Some 0%nat ->
              m (fun s' =>
                   if Nat.eqb lo 0
                      && Nat.eqb (length (m_rest s')) (length (m_rest s))
                   then None
                   else rep m g fuel (Nat.pred lo) (option_map Nat.pred hi)
                          k s') s = Some res ->
              exists w s', m_rest s = w ++ m_rest s'
                /\ quantLang L lo hi w
                /\ m_pos s' = (m_pos s + length w)%nat
                /\ k s' = Some res).
    { intros Hhi Ha. apply Hm in Ha as (w & s1 & Hr & Hw & Hp & Hk).
      destruct (Nat.eqb lo 0
                && Nat.eqb (length (m_rest s1)) (length (m_rest s)));
        [discriminate |].
      apply IH in Hk as (w2 & s2 & Hr2 & (ws & -> & Hws & Hn) & Hp2 & Hk2).
      exists (w ++ concat ws), s2. split; [|split; [|split]].
      - rewrite Hr, Hr2, app_assoc. reflexivity.
      - exists (w :: ws).
        split; [reflexivity | split; [constructor; assumption |]].
        apply count_ok_succ; assumption.
      - rewrite Hp2, Hp, length_app. lia.
      - assumption. }
    simpl in H.
    destruct hi as [[|hi]|].
    + auto.
    + destruct lo as [|lo]; [|apply Hagain; [discriminate | exact H]].
      cbn [Nat.ltb Nat.leb] in H.
      destruct g.
      * match type of H with
        | match ?a with _ => _ end = _ => destruct a eqn:Ea
        end; [inversion H; subst; apply Hagain; [discriminate | reflexivity]
             | auto].
      * destruct (k s) eqn:Ek;
          [inversion H; subst; auto
          | apply Hagain; [discriminate | exact H]].
    + destruct lo as [|lo]; [|apply Hagain; [discriminate | exact H]].
      cbn [Nat.ltb Nat.leb] in H.
      destruct g.
      * match type of H with
        | match ?a with _ => _ end = _ => destruct a eqn:Ea
        end; [inversion H; subst; apply Hagain; [discriminate | reflexivity]
             | auto].
      * destruct (k s) eqn:Ek;
          [inversion H; subst; auto
          | apply Hagain; [discriminate | exact H]].
Qed.

Lemma advance_spec w : forall s s',
  advance w s = Some s' ->
  exists v, m_rest s = v ++ m_rest s'
            /\ m_pos s' = (m_pos s + length v)%nat.
Proof.
  induction w as [|c w IH]; intros s s' H; simpl in H.
  - inversion H; subst. exists []. simpl. split; [reflexivity | lia].
  - destruct (m_rest s) as [|x rest] eqn:Er; [discriminate |].
    apply IH in H as (v & Hv & Hp). simpl in Hv, Hp.
    exists (x :: v). simpl. split; [congruence | lia].
Qed.

(** The matcher stays within the language of its pattern. *)
Lemma rmatch_sound ci r : sound (lang ci r) (rmatch ci r).
Proof.
  induction r as [|c|neg items|r1 IH1 r2 IH2|g lo hi r IH|n r IH|n| | |];
    intros k s res H; simpl in H.
  - exists [], s. simpl. repeat split; auto.
  - destruct (m_rest s) as [|x rest] eqn:Er; [discriminate |].
    destruct (canon ci x =? canon ci c) eqn:Ec; [|discriminate].
    apply N.eqb_eq in Ec.
    exists [x], (advance1 x rest s). simpl. repeat split; eauto; lia.
  - destruct (m_rest s) as [|x rest] eqn:Er; [discriminate |].
    destruct (class_mem ci neg items x) eqn:Ec; [|discriminate].
    exists [x], (advance1 x rest s). simpl. repeat split; eauto; lia.
  - apply IH1 in H as (w1 & s1 & Hr1 & Hw1 & Hp1 & H).
    apply IH2 in H as (w2 & s2 & Hr2 & Hw2 & Hp2 & H).
    exists (w1 ++ w2), s2. split; [|split; [|split]]; auto.
    + rewrite Hr1, Hr2, app_assoc. reflexivity.
    + simpl. eauto.
    + rewrite Hp2, Hp1, length_app. lia.
  - apply (rep_sound (lang ci r) _ g _ IH) in H. exact H.
  - apply IH in H as (w & s1 & Hr & Hw & Hp & H).
    eexists w, (set_cap n _ s1). simpl. repeat split; eauto.
  - destruct (cap_lookup n (m_caps s)) as [w|].
    + destruct (prefix_ci ci w (m_rest s)); [|discriminate].
      destruct (advance w s) as [s1|] eqn:Ea; [|discriminate].
      apply advance_spec in Ea as (v & Hv & Hp).
      exists v, s1. simpl. auto.
    + exists [], s. simpl. repeat split; auto.
  - destruct (Nat.eqb (m_pos s) 0); [|discriminate].
    exists [], s. simpl. repeat split; auto.
  - destruct (m_rest s) eqn:Er; [|discriminate].
    exists [], s. simpl. rewrite Er. repeat split; auto.
  - destruct (xorb _ _); [|discriminate].
    exists [], s. simpl. repeat split; auto.
Qed.

(** A match found by [search] is a text of the language, somewhere in
    the input. *)
Lemma search_sound ci r : forall rest pos prev res,
  search ci r pos prev rest = Some res ->
  exists pre post,
    rest = pre ++ r_text res ++ post /\ lang ci r (r_text res)
    /\ r_index res = (pos + length pre)%nat
    /\ r_end res = (r_index res + length (r_text res))%nat.
Proof.
  induction rest as [|x rest IH]; intros pos prev res H; simpl in H.
  - destruct (rmatch ci r Some (MState pos prev [] [])) as [s'|] eqn:Em;
      [|discriminate].
    inversion H; subst; clear H. simpl.
    apply rmatch_sound in Em as (w & s1 & Hr & Hw & Hp & Hk).
    inversion Hk; subst; clear Hk. simpl in Hr, Hp.
    symmetry in Hr. apply app_eq_nil in Hr as [-> Hr].
    exists [], []. rewrite Hp. simpl.
    replace (pos + 0 - pos)%nat with 0%nat by lia. simpl.
    repeat split; auto; lia.
  - destruct (rmatch ci r Some (MState pos prev (x :: rest) []))
      as [s'|] eqn:Em.
    + inversion H; subst; clear H. simpl.
      apply rmatch_sound in Em as (w & s1 & Hr & Hw & Hp & Hk).
      inversion Hk; subst; clear Hk. simpl in Hr, Hp.
      exists [], (m_rest s'). rewrite Hp.
      replace (pos + length w - pos)%nat with (length w) by lia.
      rewrite Hr, firstn_app, Nat.sub_diag, firstn_all. simpl.
      rewrite app_nil_r. repeat split; auto; lia.
    + apply IH in H as (pre & post & Hr & Hw & Hi & He).
      exists (x :: pre), post. simpl. rewrite <- Hr.
      repeat split; auto; lia.
Qed.

Lemma exec_sound ci r s res :
  exec ci r s = Some res ->
  exists pre post, s = pre ++ r_text res ++ post /\ lang ci r (r_text res).
Proof.
  intros H. apply search_sound in H as (pre & post & Hs & Hw & _).
  eauto.
Qed.

(** ** Languages of the building blocks *)

Lemma canon_fixes ci c : (c < 97 \/ 122 < c)%N -> canon ci c = c.
Proof.
  intros H. unfold canon.
  destruct (97 <=? c) eqn:E1, (c <=? 122) eqn:E2;
    rewrite ?andb_true_r, ?andb_false_r; simpl; auto.
  apply N.leb_le in E1. apply N.leb_le in E2. lia.
Qed.

Lemma canon_range ci x :
  canon ci x = x \/ (65 <= canon ci x <= 90)%N.
Proof.
  unfold canon.
  destruct ci; simpl; auto.
  destruct (97 <=? x) eqn:E1, (x <=? 122) eqn:E2; simpl; auto.
  apply N.leb_le in E1. apply N.leb_le in E2. right. lia.
Qed.

(** Case folding never produces a non-letter from a different unit. *)
Lemma canon_nonletter ci x c :
  (c < 65 \/ 90 < c)%N -> (c < 97 \/ 122 < c)%N ->
  canon ci x = canon ci c -> x = c.
Proof.
  intros H1 H2 H. rewrite (canon_fixes ci c H2) in H.
  destruct (canon_range ci x) as [E|E]; [congruence | lia].
Qed.








Lemma search_matchOf ci r : forall rest pos prev res,
  search ci r pos prev rest = Some res -> matchOf ci r res.
Proof.
  induction rest as [|x rest IH]; intros pos prev res H; simpl in H.
  - destruct (rmatch ci r Some (MState pos prev [] [])) as [s'|] eqn:Em;
      [|discriminate].
    inversion H; subst. exists pos, prev, [], s'. auto.
  - destruct (rmatch ci r Some (MState pos prev (x :: rest) []))
      as [s'|] eqn:Em.
    + inversion H; subst. exists pos, prev, (x :: rest), s'. auto.
    + eapply IH. exact H.
Qed.

(** Every result of a global search is a match of the pattern. *)
Lemma matchesFrom_matchOf ci r fuel : forall pos prev rest,
  Forall (matchOf ci r) (matchesFrom fuel ci r pos prev rest).
Proof.
  induction fuel as [|fuel IH]; intros pos prev rest; simpl;
    [constructor |].
  destruct (search ci r pos prev rest) as [res|] eqn:Es; [|constructor].
  apply search_matchOf in Es.
  destruct (Nat.eqb (r_end res) (r_index res)).
  - destruct (skipn (r_end res - pos) rest);
      constructor; auto.
  - constructor; auto.
Qed.

Lemma matchAll_matchOf ci r s : Forall (matchOf ci r) (matchAll ci r s).
Proof. apply matchesFrom_matchOf. Qed.

(** An atom repeated exactly [n] times over a one-unit class. *)
Lemma quantLang_exact ci neg items n w :
  quantLang (lang ci (RClass neg items)) n (Some n) w ->
  length w = n /\ Forall (fun x => class_mem ci neg items x = true) w.
Proof.
  intros (ws & -> & Hws & Hn). unfold count_ok in Hn.
  assert (Hlen : length ws = n) by lia. clear Hn. subst n.
  induction Hws as [|w ws Hw _ IH]; simpl; [split; [reflexivity | constructor] |].
  destruct Hw as (x & -> & Hx). destruct IH as [IH1 IH2].
  simpl. split; [congruence | constructor; assumption].
Qed.

Lemma lang_digits ci n w :
  lang ci (times n n digit) w ->
  length w = n /\ Forall (fun x => Js.isDigit x = true) w.
Proof.
  intros H. apply quantLang_exact in H as [Hl Hf]. split; [exact Hl |].
  eapply Forall_impl; [exact Hf |]. intros x Hx.
  unfold class_mem in Hx. simpl in Hx. rewrite orb_false_r in Hx. exact Hx.
Qed.

Lemma lang_slash ci w : lang ci (lit (str "/")) w -> w = [47].
Proof.
  intros H. change (lang ci (RChar 47) w) in H.
  destruct H as (x & -> & Hx). apply canon_nonletter in Hx; [|lia|lia].
  subst. reflexivity.
Qed.

End RegexFacts.

(** ** JavaScript string facts *)

Module JsFacts.

Lemma trimStart_noLeadingWs s : noLeadingWs (Js.trimStart s).
Proof.
  induction s as [|c s IH]; simpl; [exact I |].
  destruct (Js.isWhiteSpace c) eqn:E; [exact IH | exact E].
Qed.

Lemma trimStart_fixed s : noLeadingWs s -> Js.trimStart s = s.
Proof. destruct s as [|c s]; simpl; [reflexivity | intros ->; reflexivity]. Qed.

Lemma trimStart_suffix s :
  exists ws, s = ws ++ Js.trimStart s
             /\ Forall (fun c => Js.isWhiteSpace c = true) ws.
Proof.
  induction s as [|c s (ws & IH & Hws)]; simpl.
  - exists []. split; [reflexivity | constructor].
  - destruct (Js.isWhiteSpace c) eqn:E.
    + exists (c :: ws). simpl. split; [congruence | constructor; assumption].
    + exists []. split; [reflexivity | constructor].
Qed.

Lemma trimStart_idem s : Js.trimStart (Js.trimStart s) = Js.trimStart s.
Proof. apply trimStart_fixed, trimStart_noLeadingWs. Qed.

Lemma trimEnd_prefix s :
  exists ws, s = Js.trimEnd s ++ ws
             /\ Forall (fun c => Js.isWhiteSpace c = true) ws.
Proof.
  unfold Js.trimEnd.
  destruct (trimStart_suffix (rev s)) as (ws & H & Hws).
  exists (rev ws). split.
  - rewrite <- rev_app_distr, <- H, rev_involutive. reflexivity.
  - apply List.Forall_rev. exact Hws.
Qed.

Lemma trimEnd_noLeadingWs s : noLeadingWs s -> noLeadingWs (Js.trimEnd s).
Proof.
  intros H. destruct (trimEnd_prefix s) as (ws & Hs & _).
  destruct (Js.trimEnd s) as [|c t]; [exact I |].
  rewrite Hs in H. exact H.
Qed.

Lemma trimEnd_idem s : Js.trimEnd (Js.trimEnd s) = Js.trimEnd s.
Proof.
  unfold Js.trimEnd. rewrite rev_involutive, trimStart_idem. reflexivity.
Qed.

Lemma trim_noLeadingWs s : noLeadingWs (Js.trim s).
Proof. apply trimEnd_noLeadingWs, trimStart_noLeadingWs. Qed.

(** A trimmed string is left alone by [trim]. *)
Lemma trim_idem s : Js.trim (Js.trim s) = Js.trim s.
Proof.
  unfold Js.trim at 1.
  rewrite (trimStart_fixed _ (trim_noLeadingWs s)).
  unfold Js.trim. apply trimEnd_idem.
Qed.

Lemma decodeHtml_trimmed raw : Js.trim (decodeHtml raw) = decodeHtml raw.
Proof. unfold decodeHtml. apply trim_idem. Qed.

End JsFacts.

(** ** Attribute order: what a match of the input patterns implies *)

Module AttrOrderFacts.
Import RegexSpec RegexFacts AttrOrder.















End AttrOrderFacts.

(** ** Markup extractor: hidden fields *)

Section InputValues.
Import RegexFacts AttrOrder AttrOrderFacts.

Variables html name : jsstring.









End InputValues.



Example extractInputValue_name_first :
  extractInputValue
    (str "<input type='hidden' name='_csrfToken' value=' a&amp;b '>")
    (str "_csrfToken") = str "a&b".
Proof. vm_compute. reflexivity. Qed.

Example parseSelectedValue_checked_fallback :
  parseSelectedValue
    (str "<input name='plan' value=''><input name='plan' value='34' checked='checked'>")
    (str "plan") = str "34".
Proof. vm_compute. reflexivity. Qed.

(** ** Markup extractor: the year/month banner *)

Section YearMonth.
Import RegexSpec RegexFacts.

Lemma lang_RChar_In ci c w :
  (c < 65 \/ 90 < c)%N -> (c < 97 \/ 122 < c)%N ->
  lang ci (RChar c) w -> w = [c].
Proof.
  intros H1 H2 (x & -> & Hx). apply canon_nonletter in Hx; auto.
  subst. reflexivity.
Qed.

(** Every text the banner pattern matches holds 年 and 月. *)
Lemma lang_banner_units w :
  lang true bannerPattern w -> In 24180 w /\ In 26376 w.
Proof.
  unfold bannerPattern. cbn [seq lang].
  intros (w1 & ? & -> & _ & w2 & ? & -> & _ & w3 & ? & -> & _
          & w4 & ? & -> & _ & w5 & ? & -> & _ & w6 & ? & -> & _
          & w7 & ? & -> & _ & w8 & ? & -> & H8 & w9 & ? & -> & _
          & w10 & ? & -> & _ & w11 & ? & -> & _ & w12 & ? & -> & _
          & w13 & ? & -> & H13 & _).
  apply lang_RChar_In in H8; [|lia|lia].
  apply lang_RChar_In in H13; [|lia|lia]. subst.
  split; rewrite ?in_app_iff; simpl; tauto.
Qed.

(** C5.  [parseYearMonth] is a total function (it has no failing
    outcome), and it returns exactly the year and the month of the
    fallback date whenever the text lacks the banner block: when the
    banner pattern finds no match, in particular when the text holds no
    年 or no 月, and also when a capture is not an integer. *)
Theorem parseYearMonth_fallback (html : jsstring) (fallbackDate : JsDate) :
  test true bannerPattern html = false
  \/ ~ In 24180 html \/ ~ In 26376 html
  \/ (exists m, exec true bannerPattern html = Some m
                /\ (Js.NumberOfDigits (capture 1 m) = None
                    \/ Js.NumberOfDigits (capture 2 m) = None)) ->
  parseYearMonth html fallbackDate
  = {| year := getFullYear fallbackDate;
       month := (getMonth fallbackDate + 1)%Z |}.
Proof.
  intros H. unfold parseYearMonth, test in *.
  fold (fallbackYearMonth fallbackDate).
  destruct (exec true bannerPattern html) as [m|] eqn:E; [|reflexivity].
  assert (Hin : In 24180 html /\ In 26376 html).
  { apply exec_sound in E as (pre & post & -> & Hw).
    apply lang_banner_units in Hw as [Hy Hm].
    split; apply in_or_app; right; apply in_or_app; left; assumption. }
  destruct H as [H | [H | [H | (m' & Hm' & H)]]].
  - discriminate.
  - tauto.
  - tauto.
  - inversion Hm'; subst m'.
    destruct H as [-> | ->]; [reflexivity |].
    destruct (Js.NumberOfDigits (capture 1 m)); reflexivity.
Qed.

End YearMonth.

Lemma parseYearMonth_fallback_witness :
  parseYearMonth (str "<div class='calendar'><b>4</b></div>")
    {| getFullYear := 2025; getMonth := 2 |}
  = {| year := 2025; month := 3 |}.
Proof.
  apply (parseYearMonth_fallback
           (str "<div class='calendar'><b>4</b></div>")
           {| getFullYear := 2025; getMonth := 2 |}).
  left. vm_compute. reflexivity.
Defined.

Example parseYearMonth_banner :
  parseYearMonth
    (str "<div class='date'>" ++ str "2026" ++ [24180] ++ str " <b>4</b>"
     ++ [26376] ++ str "</div>")
    {| getFullYear := 2025; getMonth := 2 |}
  = {| year := 2026; month := 4 |}.
Proof. vm_compute. reflexivity. Qed.

(** ** Dedup state store *)

Section LoadState.

Variable now : jsstring.

Lemma loadState_missing : loadState FileMissing now = (emptyState, []).
Proof. reflexivity. Qed.

Lemma loadState_unreadable message :
  loadState (ReadFails message) now
  = (emptyState, [loadWarning now message]).
Proof. reflexivity. Qed.

(** A file with invalid syntax: the empty state and one warning. *)
Lemma loadState_corrupt message :
  loadState (ParseFails message) now
  = (emptyState, [loadWarning now message]).
Proof. reflexivity. Qed.

Lemma loadState_not_object data :
  typeof (Some data) <> TObject ->
  loadState (Parsed data) now = (emptyState, []).
Proof.
  intros H. unfold loadState, loadStateBody.
  destruct (truthy data); [|reflexivity].
  destruct data; simpl in H; try congruence; reflexivity.
Qed.

Lemma loadState_seen_not_object fields :
  typeof (fields !! str "seen") <> TObject ->
  loadState (Parsed (JObj fields)) now = (emptyState, []).
Proof.
  intros H. unfold loadState, loadStateBody, getSeen.
  cbn [truthy negb typeof jtype_is_object].
  destruct (typeof (fields !! str "seen")); try reflexivity; congruence.
Qed.

Lemma loadState_array items :
  loadState (Parsed (JArr items)) now = (emptyState, []).
Proof. reflexivity. Qed.

(** An array under [seen] has type ['object'] too and is let through. *)
Lemma loadState_array_seen items :
  loadState (Parsed (JObj {[ str "seen" := JArr items ]})) now
  = (JObj {[ str "seen" := JArr items ]}, []).
Proof.
  unfold loadState, loadStateBody, getSeen.
  cbn [truthy negb typeof jtype_is_object].
  rewrite lookup_singleton_eq. reflexivity.
Qed.

(** What [loadState] returns is the empty state, or the document itself
    when that is an object whose [seen] has type ['object']. *)
Lemma loadState_cases file :
  fst (loadState file now) = emptyState
  \/ exists fields v,
       file = Parsed (JObj fields) /\ fields !! str "seen" = Some v
       /\ typeof (Some v) = TObject
       /\ loadState file now = (JObj fields, []).
Proof.
  destruct file as [| | |data]; try (left; reflexivity).
  destruct data as [|b|z|s|items|fields];
    try (left; reflexivity);
    try (left; unfold loadState, loadStateBody;
         destruct (truthy _); reflexivity).
  unfold loadState, loadStateBody, getSeen.
  cbn [truthy negb typeof jtype_is_object].
  destruct (fields !! str "seen") as [v|] eqn:E; [|left; reflexivity].
  destruct (typeof (Some v)) eqn:Ev; try (left; reflexivity).
  right. exists fields, v. auto.
Qed.

(** C9.  A state file whose document is an object with [seen: null] is
    not turned into the empty state: [typeof null] is ['object'], so the
    shape test lets it through and [loadState] returns the document
    with its null [seen]. *)
Theorem loadState_null_seen :
  loadState (Parsed (JObj {[ str "seen" := JNull ]})) now
  = (JObj {[ str "seen" := JNull ]}, [])
  /\ JObj {[ str "seen" := JNull ]} <> emptyState.
Proof.
  split; [reflexivity |].
  intros H. inversion H.
Qed.

End LoadState.

(** ** The seen-filter and the seen mapping over the cycles *)

Section SeenFilter.
Import SeenSpec.

Lemma toISOString_truthy t : truthy (JStr (toISOString t)) = true.
Proof.
  unfold toISOString. simpl.
  destruct (Js.padStart0 4 (Js.numToString (utcYear t))); reflexivity.
Qed.

Lemma newSlots_ext f g found :
  (forall k, f k = g k) -> newSlots f found = newSlots g found.
Proof.
  revert f g. induction found as [|slot rest IH]; intros f g H; simpl.
  - reflexivity.
  - rewrite <- H. destruct (f (key slot)); [apply IH; exact H |].
    f_equal. apply IH. intros k. rewrite H. reflexivity.
Qed.

Lemma isSeenIn_insert seen k0 t k :
  isSeenIn (<[k0 := JStr (toISOString t)]> seen) k
  = bool_decide (k = k0) || isSeenIn seen k.
Proof.
  unfold isSeenIn. destruct (decide (k = k0)) as [->|Hne].
  - rewrite lookup_insert_eq, bool_decide_eq_true_2 by reflexivity.
    apply toISOString_truthy.
  - rewrite lookup_insert_ne, bool_decide_eq_false_2 by congruence.
    reflexivity.
Qed.

Variable clock : nat -> Instant.

(** The loop, from any accumulator: the new matches are appended as the
    specification says; the mapping afterwards holds as seen what was
    seen before or has been examined; and no truthy entry changes. *)
Lemma filter_fold found : forall seen newMatches reads,
  exists seen' reads',
    fold_left (Legacy.filterStep clock) found (seen, newMatches, reads)
    = (seen', newMatches ++ newSlots (isSeenIn seen) found, reads')
    /\ (forall k, isSeenIn seen' k
                  = isSeenIn seen k || bool_decide (k ∈ map key found))
    /\ (forall k v, seen !! k = Some v -> truthy v = true ->
                    seen' !! k = Some v)
    /\ (forall slot, In slot (newSlots (isSeenIn seen) found) ->
                     exists n, seen' !! key slot
                               = Some (JStr (toISOString (clock n)))).
Proof.
  induction found as [|slot rest IH]; intros seen newMatches reads.
  - exists seen, reads. simpl. rewrite app_nil_r.
    split; [reflexivity | split; [|split; [auto | intros ? []]]].
    intros k. rewrite orb_false_r. reflexivity.
  - cbn [fold_left Legacy.filterStep newSlots map].
    change (truthyOpt (seen !! key slot)) with (isSeenIn seen (key slot)).
    destruct (isSeenIn seen (key slot)) eqn:Es; cbn [negb].
    + destruct (IH seen newMatches reads)
        as (seen' & reads' & Hf & Hs & Hm & Ht).
      exists seen', reads'.
      split; [exact Hf | split; [|split; [exact Hm | exact Ht]]].
      intros k. rewrite Hs.
      destruct (isSeenIn seen k) eqn:Ek; [reflexivity |].
      cbn [orb]. apply bool_decide_ext. rewrite elem_of_cons.
      split; [auto | intros [-> | H]; [|exact H]].
      congruence.
    + destruct (IH (<[key slot := JStr (toISOString (clock reads))]> seen)
                  (newMatches ++ [slot]) (S reads))
        as (seen' & reads' & Hf & Hs & Hm & Ht).
      exists seen', reads'. split; [|split; [|split]].
      * rewrite Hf, <- app_assoc. cbn [app]. do 4 f_equal.
        apply newSlots_ext. intros k. apply isSeenIn_insert.
      * intros k. rewrite Hs, isSeenIn_insert.
        rewrite (orb_comm (bool_decide (k = key slot))), <- orb_assoc.
        f_equal.
        rewrite <- bool_decide_or. apply bool_decide_ext.
        rewrite elem_of_cons. tauto.
      * intros k v Hk Hv. apply Hm; [|exact Hv].
        rewrite lookup_insert_ne; [exact Hk |].
        intros <-. unfold isSeenIn in Es. rewrite Hk in Es.
        simpl in Es. congruence.
      * intros s [<- | Hin].
        -- exists reads. apply Hm; [apply lookup_insert_eq |].
           apply toISOString_truthy.
        -- apply Ht.
           erewrite newSlots_ext; [exact Hin |].
           intros k. apply isSeenIn_insert.
Qed.

(** The seen-filter is the filter of the specification. *)
Lemma filterNew_spec found seen :
  snd (Legacy.filterNew clock found seen)
  = newSlots (isSeenIn seen) found.
Proof.
  unfold Legacy.filterNew.
  destruct (filter_fold found seen [] 0) as (seen' & reads' & -> & _).
  reflexivity.
Qed.

Lemma filterNew_marks found seen k :
  isSeenIn (fst (Legacy.filterNew clock found seen)) k
  = isSeenIn seen k || bool_decide (k ∈ map key found).
Proof.
  unfold Legacy.filterNew.
  destruct (filter_fold found seen [] 0) as (seen' & reads' & -> & H & _).
  apply H.
Qed.

Lemma filterNew_keeps found seen k v :
  seen !! k = Some v -> truthy v = true ->
  fst (Legacy.filterNew clock found seen) !! k = Some v.
Proof.
  unfold Legacy.filterNew.
  destruct (filter_fold found seen [] 0)
    as (seen' & reads' & -> & _ & H & _).
  apply H.
Qed.

(** A new match is stored with a reading of the clock. *)
Lemma filterNew_stamps found seen slot :
  In slot (snd (Legacy.filterNew clock found seen)) ->
  exists n, fst (Legacy.filterNew clock found seen) !! key slot
            = Some (JStr (toISOString (clock n))).
Proof.
  unfold Legacy.filterNew.
  destruct (filter_fold found seen [] 0)
    as (seen' & reads' & -> & _ & _ & H).
  apply H.
Qed.

Lemma newSlots_all_seen f found :
  (forall slot, In slot found -> f (key slot) = true) ->
  newSlots f found = [].
Proof.
  induction found as [|slot rest IH]; intros H; simpl; [reflexivity |].
  rewrite (H slot (or_introl eq_refl)). apply IH.
  intros s Hs. apply H. right. exact Hs.
Qed.

End SeenFilter.

(** Dedup idempotence of the earlier variant: the same discovery result
    run through the filter again, on the state the first run left, yields
    no new match, whatever the clock reads. *)
Lemma legacy_filter_idempotent clock1 clock2 found seen :
  snd (Legacy.filterNew clock2 found
         (fst (Legacy.filterNew clock1 found seen))) = [].
Proof.
  rewrite filterNew_spec. apply newSlots_all_seen.
  intros slot Hin. rewrite filterNew_marks.
  rewrite (bool_decide_eq_true_2 (key slot ∈ map key found)).
  - apply orb_true_r.
  - apply list_elem_of_In, in_map, Hin.
Qed.

(** In the earlier variant the keys are marked by the filter itself,
    before the dispatch and whatever its outcome; the batch dispatched is
    the new matches. *)
Lemma legacy_checkOnce_marks c w slots :
  found c = Some slots ->
  seen (fst (Legacy.checkOnce c w))
  = fst (Legacy.filterNew (clock c) slots (seen w))
  /\ dispatched (fst (Legacy.checkOnce c w))
     = dispatched w
       ++ match snd (Legacy.filterNew (clock c) slots (seen w)) with
          | [] => []
          | newMatches => [newMatches]
          end.
Proof.
  intros Hf. unfold Legacy.checkOnce. rewrite Hf.
  destruct (Legacy.filterNew (clock c) slots (seen w)) as [seen' nm].
  destruct nm as [|slot nm]; simpl.
  - rewrite app_nil_r. auto.
  - destruct (sendOk c); simpl; auto.
Qed.

(** Scenario 2 in the earlier variant: the same discovery result in the
    next cycle dispatches nothing. *)
Lemma legacy_second_run_silent c1 c2 w slots :
  found c1 = Some slots -> found c2 = Some slots ->
  dispatched (fst (Legacy.checkOnce c2 (fst (Legacy.checkOnce c1 w))))
  = dispatched (fst (Legacy.checkOnce c1 w)).
Proof.
  intros H1 H2.
  destruct (legacy_checkOnce_marks c2 (fst (Legacy.checkOnce c1 w)) slots H2)
    as [_ ->].
  destruct (legacy_checkOnce_marks c1 w slots H1) as [-> _].
  rewrite legacy_filter_idempotent. apply app_nil_r.
Qed.

(** ** The seen mapping over the cycles *)

Section Cycles.

Variables (k : jsstring) (v : jsval).
Hypothesis v_truthy : truthy v = true.

Lemma legacy_checkOnce_keeps c w :
  seen w !! k = Some v ->
  seen (fst (Legacy.checkOnce c w)) !! k = Some v
  /\ (disk w !! k = Some v ->
      disk (fst (Legacy.checkOnce c w)) !! k = Some v).
Proof.
  intros Hk. unfold Legacy.checkOnce.
  destruct (found c) as [found|]; [|auto].
  pose proof (filterNew_keeps (clock c) found (seen w) k v Hk v_truthy) as H.
  destruct (Legacy.filterNew (clock c) found (seen w)) as [seen' nm].
  simpl in H.
  destruct (Nat.ltb 0 (length nm)); [destruct (sendOk c) |]; simpl; auto.
Qed.

Lemma legacy_runCycles_keeps cycles : forall w,
  seen w !! k = Some v ->
  seen (Legacy.runCycles cycles w) !! k = Some v
  /\ (disk w !! k = Some v ->
      disk (Legacy.runCycles cycles w) !! k = Some v).
Proof.
  induction cycles as [|c cycles IH]; intros w Hk; [simpl; auto |].
  destruct (legacy_checkOnce_keeps c w Hk) as [Hs Hd].
  destruct (IH _ Hs) as [Hs' Hd'].
  unfold Legacy.runCycles in *. simpl. auto.
Qed.

End Cycles.

Lemma checkOnce_keeps_state c w :
  seen (fst (checkOnce c w)) = seen w /\ disk (fst (checkOnce c w)) = disk w.
Proof.
  unfold checkOnce. destruct (found c) as [found|]; [|auto].
  destruct (Nat.ltb 0 (length (dedupeFoundSlots found))); auto.
Qed.

Lemma runCycles_keeps_state cycles : forall w,
  seen (runCycles cycles w) = seen w /\ disk (runCycles cycles w) = disk w.
Proof.
  induction cycles as [|c cycles IH]; intros w; [auto |].
  unfold runCycles in *. simpl.
  destruct (IH (fst (checkOnce c w))) as [-> ->].
  apply checkOnce_keeps_state.
Qed.

(** C2.  The seen mapping only grows.  A key that is present with a
    truthy value (a first-detection timestamp is a non-empty string, see
    [toISOString_truthy] and [filterNew_stamps]) keeps that very value
    over every sequence of polling cycles, in memory and, once written,
    in the state file: in the earlier variant the filter inserts absent
    keys only and [saveState] writes the whole mapping, and in
    src/index.js no cycle touches the mapping at all. *)
Theorem seen_monotone (cycles : list Cycle) (w : World) (k : jsstring)
  (v : jsval) :
  seen w !! k = Some v -> truthy v = true ->
  seen (Legacy.runCycles cycles w) !! k = Some v
  /\ (disk w !! k = Some v ->
      disk (Legacy.runCycles cycles w) !! k = Some v)
  /\ seen (runCycles cycles w) = seen w
  /\ disk (runCycles cycles w) = disk w.
Proof.
  intros Hk Hv.
  destruct (legacy_runCycles_keeps k v Hv cycles w Hk) as [Hs Hd].
  destruct (runCycles_keeps_state cycles w) as [Hs' Hd'].
  auto.
Qed.

Lemma seen_monotone_witness :
  let w := {| seen := {[ key demoSlot := JStr (toISOString demoInstant) ]};
              disk := ∅; dispatched := [] |} in
  seen (Legacy.runCycles [demoCycle; laterCycle] w) !! key demoSlot
  = Some (JStr (toISOString demoInstant)).
Proof.
  intros w.
  refine (proj1 (seen_monotone [demoCycle; laterCycle] w (key demoSlot)
                   (JStr (toISOString demoInstant)) _ _));
    vm_compute; reflexivity.
Defined.

(** In src/index.js the alert does not depend on the seen mapping: every
    cycle that discovers a slot dispatches all it discovered. *)
Lemma checkOnce_alerts_all c w slots :
  found c = Some slots -> dedupeFoundSlots slots <> [] ->
  dispatched (fst (checkOnce c w))
  = dispatched w ++ [dedupeFoundSlots slots].
Proof.
  intros Hf Hne. unfold checkOnce. rewrite Hf.
  destruct (dedupeFoundSlots slots); [congruence | reflexivity].
Qed.

(** C1.  src/index.js does not filter on the seen mapping: the same
    discovery result, run through two successive cycles from an empty
    state, is alerted twice and the state stays empty, where the claim
    (and the earlier variant, see [filterNew_spec] and
    [legacy_filter_idempotent]) alerts once and records the key. *)
Theorem checkOnce_repeats_alert :
  dispatched (runCycles [demoCycle; demoCycle] freshWorld)
  = [[demoSlot]; [demoSlot]]
  /\ seen (runCycles [demoCycle; demoCycle] freshWorld) = ∅
  /\ dispatched (Legacy.runCycles [demoCycle; demoCycle] freshWorld)
     = [[demoSlot]]
  /\ seen (Legacy.runCycles [demoCycle; demoCycle] freshWorld)
     = {[ key demoSlot := JStr (toISOString demoInstant) ]}.
Proof. vm_compute. repeat split; reflexivity. Qed.

(** ** Session client: cookie merge *)

Section CookieMerge.
Import CookieSpec JsFacts.

Lemma splitAtEq_indexOf s :
  match splitAtEq s with
  | None => Js.indexOf 61 s = (-1)%Z
  | Some (k, v) =>
      Js.indexOf 61 s = Z.of_nat (length k)
      /\ k = firstn (length k) s /\ v = skipn (length k + 1) s
  end.
Proof.
  induction s as [|c s IH]; simpl; [reflexivity |].
  destruct (c =? 61); [simpl; auto |].
  destruct (splitAtEq s) as [[k v]|].
  - destruct IH as (Hi & Hk & Hv). rewrite Hi.
    destruct (Z.of_nat (length k) <? 0)%Z eqn:E;
      [apply Z.ltb_lt in E; lia |].
    simpl. repeat split; [lia | congruence | assumption].
  - rewrite IH. reflexivity.
Qed.

Lemma trimEnd_nonempty s : noLeadingWs s -> s <> [] -> Js.trimEnd s <> [].
Proof.
  intros Hs Hne He. destruct (trimEnd_prefix s) as (ws & E & Hws).
  rewrite He in E. simpl in E. subst ws.
  destruct s as [|c s]; [congruence |].
  inversion Hws; subst. simpl in Hs. congruence.
Qed.

Lemma trim_nonempty s : noLeadingWs s -> s <> [] -> Js.trim s <> [].
Proof.
  intros Hs Hne. unfold Js.trim. rewrite (trimStart_fixed s Hs).
  apply trimEnd_nonempty; assumption.
Qed.

(** One iteration of the loop sets the pair of a well-formed segment
    and skips every other segment. *)
Lemma cookieStep_spec m segment :
  cookieStep m segment
  = match segmentPair segment with
    | Some (k, v) => mapSet k v m
    | None => m
    end.
Proof.
  unfold cookieStep, segmentPair.
  pose proof (trim_noLeadingWs segment) as Hlead.
  pose proof (splitAtEq_indexOf (Js.trim segment)) as H.
  destruct (Js.trim segment) as [|c t] eqn:Et; [reflexivity |].
  cbn [Js.truthyStr negb].
  destruct (splitAtEq (c :: t)) as [[k v]|].
  - destruct H as (Hi & Hk & Hv). rewrite Hi.
    destruct k as [|x k].
    + reflexivity.
    + replace (Z.of_nat (length (x :: k)) <=? 0)%Z with false
        by (symmetry; apply Z.leb_gt; simpl; lia).
      rewrite Nat2Z.id. unfold Js.slice, Js.sliceFrom.
      rewrite Nat.sub_0_r. cbn [skipn] in *.
      rewrite <- Hk, <- Hv.
      assert (Hne : Js.trim (x :: k) <> []).
      { apply trim_nonempty; [|discriminate].
        simpl in Hk. inversion Hk; subst. exact Hlead. }
      destruct (Js.trim (x :: k)); [congruence | reflexivity].
  - rewrite H. reflexivity.
Qed.

Lemma valueOf_mapSet k v m k' :
  valueOf k' (mapSet k v m)
  = if bool_decide (k = k') then Some v else valueOf k' m.
Proof.
  induction m as [|[k0 v0] m IH]; simpl.
  - reflexivity.
  - destruct (decide (k0 = k)) as [->|Hne].
    + rewrite bool_decide_eq_true_2 by reflexivity. simpl.
      destruct (bool_decide (k = k')); reflexivity.
    + rewrite bool_decide_eq_false_2 by exact Hne. simpl.
      rewrite IH.
      destruct (decide (k0 = k')) as [->|Hne'].
      * rewrite bool_decide_eq_true_2 by reflexivity.
        rewrite bool_decide_eq_false_2 by congruence. reflexivity.
      * rewrite (bool_decide_eq_false_2 (k0 = k')) by exact Hne'.
        reflexivity.
Qed.

Lemma mapSet_keys k v m x :
  In x (map fst (mapSet k v m)) <-> x = k \/ In x (map fst m).
Proof.
  induction m as [|[k0 v0] m IH]; simpl.
  - intuition.
  - destruct (decide (k0 = k)) as [->|Hne].
    + rewrite bool_decide_eq_true_2 by reflexivity. simpl. intuition.
    + rewrite bool_decide_eq_false_2 by exact Hne. simpl.
      rewrite IH. intuition.
Qed.

Lemma mapSet_NoDup k v m :
  List.NoDup (map fst m) -> List.NoDup (map fst (mapSet k v m)).
Proof.
  induction m as [|[k0 v0] m IH]; simpl; intros H.
  - repeat constructor. intros [].
  - inversion H as [|? ? Hnin Hnd]; subst.
    destruct (decide (k0 = k)) as [->|Hne].
    + rewrite bool_decide_eq_true_2 by reflexivity. simpl.
      constructor; assumption.
    + rewrite bool_decide_eq_false_2 by exact Hne. simpl.
      constructor; [|apply IH; exact Hnd].
      rewrite mapSet_keys. intros [E | Hin]; [congruence | tauto].
Qed.

Lemma cookie_fold segments : forall m,
  let m' := fold_left cookieStep segments m in
  (forall k, valueOf k m'
             = match lastValue k (omap segmentPair segments) with
               | Some v => Some v
               | None => valueOf k m
               end)
  /\ (List.NoDup (map fst m) -> List.NoDup (map fst m'))
  /\ (forall k, In k (map fst m') ->
                In k (map fst m)
                \/ In k (map fst (omap segmentPair segments))).
Proof.
  induction segments as [|segment rest IH]; intros m.
  - simpl. split; [reflexivity | split; auto].
  - change (fold_left cookieStep (segment :: rest) m)
      with (fold_left cookieStep rest (cookieStep m segment)).
    assert (Eo : omap segmentPair (segment :: rest)
                 = match segmentPair segment with
                   | Some p => p :: omap segmentPair rest
                   | None => omap segmentPair rest
                   end) by reflexivity.
    rewrite Eo. clear Eo. cbv zeta.
    destruct (IH (cookieStep m segment)) as (Hv & Hn & Hk).
    rewrite cookieStep_spec in *.
    destruct (segmentPair segment) as [[k0 v0]|].
    + split; [|split].
      * intros k. rewrite Hv, valueOf_mapSet.
        cbn [lastValue].
        destruct (lastValue k (omap segmentPair rest)); [reflexivity |].
        destruct (bool_decide (k0 = k)); reflexivity.
      * intros H. apply Hn, mapSet_NoDup, H.
      * intros k Hin. apply Hk in Hin as [Hin | Hin].
        -- apply mapSet_keys in Hin as [-> | Hin]; [|auto].
           right. left. reflexivity.
        -- right. right. exact Hin.
    + split; [exact Hv | split; [exact Hn | exact Hk]].
Qed.

Lemma segmentPair_key segment k v :
  segmentPair segment = Some (k, v) -> k <> [].
Proof.
  unfold segmentPair.
  destruct (splitAtEq (Js.trim segment)) as [[rk rv]|]; [|discriminate].
  destruct (Js.trim rk) eqn:E; simpl; [discriminate |].
  intros H. inversion H. discriminate.
Qed.

Lemma splitAtEq_None s : splitAtEq s = None <-> ~ In 61 s.
Proof.
  induction s as [|c s IH]; simpl; [tauto |].
  destruct (c =? 61) eqn:E.
  - apply N.eqb_eq in E. split; [discriminate | tauto].
  - apply N.eqb_neq in E. destruct (splitAtEq s) as [[k v]|].
    + split; [discriminate |]. intros H. exfalso.
      destruct (in_dec N.eq_dec 61 s) as [Hin | Hnin]; [tauto |].
      apply IH in Hnin. discriminate.
    + split; [|reflexivity]. intros _ [H | H]; [congruence |].
      apply IH in H; auto.
Qed.

(** A segment with no [=] is dropped, and so is one whose key is
    empty. *)
Lemma segmentPair_malformed segment :
  ~ In 61 segment \/ (exists rest, Js.trim segment = 61 :: rest) ->
  segmentPair segment = None.
Proof.
  unfold segmentPair. intros [H | (rest & ->)]; [|reflexivity].
  assert (Hn : ~ In 61 (Js.trim segment)).
  { intros Hin. apply H.
    unfold Js.trim in Hin.
    destruct (trimEnd_prefix (Js.trimStart segment)) as (ws & E & _).
    destruct (trimStart_suffix segment) as (ws' & E' & _).
    rewrite E', E. apply in_or_app. right. apply in_or_app. left.
    exact Hin. }
  apply splitAtEq_None in Hn. rewrite Hn. reflexivity.
Qed.

End CookieMerge.

Example mergeCookieHeaders_example :
  mergeCookieHeaders (str "sid=1; Theme=dark; junk; =x; lang = en ")
    (str "sid=9; theme=light")
  = str "sid=9; Theme=dark; lang=en; theme=light".
Proof. vm_compute. reflexivity. Qed.

(** ** Notification dispatcher: message splitting *)

Section Splitting.
Import SplitSpec.

Lemma split_nonempty sep s : Js.split sep s <> [].
Proof.
  destruct s as [|c s]; simpl; [discriminate |].
  destruct (c =? sep); [discriminate |].
  destruct (Js.split sep s); discriminate.
Qed.

Lemma split_app_sep sep a b :
  Js.split sep (a ++ sep :: b) = Js.split sep a ++ Js.split sep b.
Proof.
  induction a as [|c a IH]; simpl.
  - rewrite N.eqb_refl. reflexivity.
  - rewrite IH. destruct (c =? sep); [reflexivity |].
    pose proof (split_nonempty sep a) as Hne.
    destruct (Js.split sep a); [congruence | reflexivity].
Qed.

Lemma split_no_sep sep s : ~ In sep s -> Js.split sep s = [s].
Proof.
  induction s as [|c s IH]; simpl; intros H; [reflexivity |].
  destruct (c =? sep) eqn:E.
  - apply N.eqb_eq in E. tauto.
  - rewrite IH by tauto. reflexivity.
Qed.

Lemma split_lines sep s :
  Forall (fun l => ~ In sep l) (Js.split sep s).
Proof.
  induction s as [|c s IH]; simpl.
  - repeat constructor. intros [].
  - destruct (c =? sep) eqn:E.
    + constructor; [intros [] | exact IH].
    + apply N.eqb_neq in E.
      destruct (Js.split sep s) as [|l ls].
      * repeat constructor. intros [H | []]. congruence.
      * inversion IH; subst. constructor; [|assumption].
        intros [H | H]; [congruence | tauto].
Qed.

Lemma split_concat s : concat (Js.split 10 s) = noBreaks s.
Proof.
  induction s as [|c s IH]; simpl; [reflexivity |].
  destruct (c =? 10); simpl; [exact IH |].
  rewrite <- IH. destruct (Js.split 10 s); reflexivity.
Qed.

Lemma concat_nonEmpty l : concat (nonEmpty l) = concat l.
Proof.
  induction l as [|s l IH]; simpl; [reflexivity |].
  destruct s; simpl; rewrite IH; reflexivity.
Qed.

Lemma nonEmpty_app a b : nonEmpty (a ++ b) = nonEmpty a ++ nonEmpty b.
Proof. apply List.filter_app. Qed.

Variable maxLen : nat.
Hypothesis maxLen_pos : (0 < maxLen)%nat.

(** The inner loop ends, and leaves the pieces of the line. *)
Lemma hardSplit_pieces fuel : forall line chunks,
  (length line <= fuel)%nat ->
  exists ps r,
    hardSplit fuel maxLen chunks line = Some (chunks ++ ps, r)
    /\ pieces fuel maxLen line = ps ++ [r]
    /\ Forall (fun p => length p = maxLen) ps
    /\ (length r <= maxLen)%nat
    /\ (line <> [] -> r <> [])
    /\ concat ps ++ r = line.
Proof.
  induction fuel as [|fuel IH]; intros line chunks Hlen.
  - destruct line; [|simpl in Hlen; lia].
    exists [], []. simpl. rewrite app_nil_r.
    repeat split; auto; lia.
  - simpl. destruct (Nat.leb (length line) maxLen) eqn:E.
    + apply Nat.leb_le in E. exists [], line. simpl. rewrite app_nil_r.
      repeat split; auto.
    + apply Nat.leb_gt in E.
      destruct (IH (skipn maxLen line) (chunks ++ [firstn maxLen line]))
        as (ps & r & Hs & Hp & Hf & Hr & Hne & Hc).
      { rewrite length_skipn. lia. }
      exists (firstn maxLen line :: ps), r.
      split; [|split; [|split; [|split; [|split]]]].
      * rewrite Hs, <- app_assoc. reflexivity.
      * rewrite Hp. reflexivity.
      * constructor; [rewrite length_firstn; lia | exact Hf].
      * exact Hr.
      * intros _. apply Hne. intros H0.
        apply (f_equal (@length N)) in H0. rewrite length_skipn in H0.
        simpl in H0. lia.
      * simpl. rewrite <- app_assoc, Hc. apply firstn_skipn.
Qed.

Lemma pieces_within line fuel :
  (length line <= maxLen)%nat -> pieces fuel maxLen line = [line].
Proof.
  intros H. destruct fuel; simpl;
    (destruct (Nat.leb (length line) maxLen) eqn:E;
     [reflexivity | apply Nat.leb_gt in E; lia]).
Qed.

Lemma truthyStr_length s : Js.truthyStr s = true <-> (0 < length s)%nat.
Proof. destruct s; simpl; split; intros; (reflexivity || lia || discriminate). Qed.

Lemma flat_map_snoc {A B} (f : A -> list B) l x :
  flat_map f (l ++ [x]) = flat_map f l ++ f x.
Proof. rewrite flat_map_app. simpl. rewrite app_nil_r. reflexivity. Qed.

Lemma nonEmpty_split_nil : nonEmpty (Js.split 10 []) = [].
Proof. reflexivity. Qed.

Lemma pieces_lines fuel : forall line,
  ~ In 10 line ->
  flat_map (Js.split 10) (pieces fuel maxLen line)
  = pieces fuel maxLen line.
Proof.
  induction fuel as [|fuel IH]; intros line H; simpl.
  - destruct (Nat.leb (length line) maxLen); simpl;
      rewrite (split_no_sep 10 line H); reflexivity.
  - destruct (Nat.leb (length line) maxLen); simpl.
    + rewrite (split_no_sep 10 line H). reflexivity.
    + rewrite IH.
      * rewrite split_no_sep; [reflexivity |].
        intros Hin. apply H. rewrite <- (firstn_skipn maxLen line).
        apply in_or_app. left. exact Hin.
      * intros Hin. apply H. rewrite <- (firstn_skipn maxLen line).
        apply in_or_app. right. exact Hin.
Qed.

Lemma nonEmpty_all l :
  Forall (fun p => (0 < length p)%nat) l -> nonEmpty l = l.
Proof.
  induction 1 as [|p l Hp _ IH]; simpl; [reflexivity |].
  destruct p; [simpl in Hp; lia |]. simpl. rewrite IH. reflexivity.
Qed.

Lemma splitStep_inv processed st line :
  ~ In 10 line ->
  splitInv maxLen processed st ->
  splitInv maxLen (processed ++ [line]) (splitStep maxLen st line).
Proof.
  intros Hline (chunks & current & -> & Hc & Hcur & Hl).
  unfold splitInv. rewrite flat_map_snoc, nonEmpty_app, <- Hl.
  cbn [splitStep].
  assert (Hcand :
            nonEmpty (Js.split 10
                        (if Js.truthyStr current
                         then current ++ [10] ++ line else line))
            = nonEmpty (Js.split 10 current) ++ nonEmpty [line]).
  { destruct current as [|c0 cur];
      [cbn [Js.truthyStr]; rewrite (split_no_sep 10 line Hline);
       reflexivity |].
    cbn [Js.truthyStr]. change ([10] ++ line) with (10 :: line).
    rewrite split_app_sep, nonEmpty_app, (split_no_sep 10 line Hline).
    reflexivity. }
  destruct (Nat.leb (length (if Js.truthyStr current
                             then current ++ [10] ++ line else line))
              maxLen) eqn:E.
  - apply Nat.leb_le in E.
    assert (Hlen : (length line <= maxLen)%nat).
    { destruct (Js.truthyStr current); [|exact E].
      rewrite !length_app in E. lia. }
    exists chunks, (if Js.truthyStr current
                    then current ++ [10] ++ line else line).
    split; [reflexivity | split; [exact Hc | split; [exact E |]]].
    rewrite !nonEmpty_app, Hcand. unfold hardPieces.
    rewrite (pieces_within line _ Hlen), <- app_assoc. reflexivity.
  - set (chunks1 := if Js.truthyStr current
                    then chunks ++ [current] else chunks).
    assert (Hc1 : Forall (fun c => (0 < length c <= maxLen)%nat) chunks1).
    { subst chunks1. destruct (Js.truthyStr current) eqn:Et; [|exact Hc].
      apply Forall_app. split; [exact Hc |]. constructor; [|constructor].
      apply truthyStr_length in Et. lia. }
    assert (Hl1 : nonEmpty (flat_map (Js.split 10) chunks1)
                  = nonEmpty (flat_map (Js.split 10) chunks)
                    ++ nonEmpty (Js.split 10 current)).
    { subst chunks1. destruct current as [|c0 cur].
      - simpl. rewrite app_nil_r. reflexivity.
      - cbn [Js.truthyStr]. rewrite flat_map_snoc, nonEmpty_app.
        reflexivity. }
    destruct (Nat.leb (length line) maxLen) eqn:E2.
    + apply Nat.leb_le in E2.
      exists chunks1, line.
      split; [reflexivity | split; [exact Hc1 | split; [exact E2 |]]].
      rewrite !nonEmpty_app, Hl1. unfold hardPieces.
      rewrite (pieces_within line _ E2), (split_no_sep 10 line Hline).
      rewrite <- app_assoc. reflexivity.
    + apply Nat.leb_gt in E2.
      destruct (hardSplit_pieces (length line) line chunks1 (le_n _))
        as (ps & r & Hs & Hp & Hf & Hr & Hne & Hcat).
      exists (chunks1 ++ ps), r.
      split; [exact Hs | split; [|split; [exact Hr |]]].
      * apply Forall_app. split; [exact Hc1 |].
        eapply Forall_impl; [exact Hf |]. simpl. intros p ->. lia.
      * pose proof (pieces_lines (length line) line Hline) as Hpl.
        unfold hardPieces. rewrite Hp in *.
        assert (Hr10 : Js.split 10 r = [r]).
        { apply split_no_sep. intros Hin. apply Hline.
          rewrite <- Hcat. apply in_or_app. right. exact Hin. }
        rewrite flat_map_snoc, Hr10 in Hpl.
        apply app_inv_tail in Hpl.
        rewrite flat_map_app, Hr10, Hpl.
        rewrite !nonEmpty_app, Hl1, <- !app_assoc. reflexivity.
Qed.

Lemma split_fold_inv lines : forall processed st,
  Forall (fun l => ~ In 10 l) lines ->
  splitInv maxLen processed st ->
  splitInv maxLen (processed ++ lines)
    (fold_left (splitStep maxLen) lines st).
Proof.
  induction lines as [|line lines IH]; intros processed st Hl Hi.
  - rewrite app_nil_r. exact Hi.
  - inversion Hl; subst. simpl.
    replace (processed ++ line :: lines)
      with ((processed ++ [line]) ++ lines)
      by (rewrite <- app_assoc; reflexivity).
    apply IH; [assumption |]. apply splitStep_inv; assumption.
Qed.

Lemma concat_hardPieces line : concat (hardPieces maxLen line) = line.
Proof.
  unfold hardPieces.
  destruct (hardSplit_pieces (length line) line [] (le_n _))
    as (ps & r & _ & -> & _ & _ & _ & Hcat).
  rewrite concat_app. simpl. rewrite app_nil_r. exact Hcat.
Qed.

Lemma concat_flat_map_hardPieces lines :
  concat (flat_map (hardPieces maxLen) lines) = concat lines.
Proof.
  induction lines as [|l lines IH]; simpl; [reflexivity |].
  rewrite concat_app, concat_hardPieces, IH. reflexivity.
Qed.

Lemma noBreaks_app a b : noBreaks (a ++ b) = noBreaks a ++ noBreaks b.
Proof. apply List.filter_app. Qed.

Lemma noBreaks_join l :
  noBreaks (Js.join [10] l) = concat (flat_map (Js.split 10) l).
Proof.
  induction l as [|c l IH]; [reflexivity |].
  cbn [flat_map]. rewrite concat_app, split_concat, <- IH.
  destruct l as [|c' l]; [simpl; rewrite app_nil_r; reflexivity |].
  change (Js.join [10] (c :: c' :: l))
    with (c ++ [10] ++ Js.join [10] (c' :: l)).
  rewrite !noBreaks_app. reflexivity.
Qed.

Lemma noBreaks_length s : (length (noBreaks s) <= length s)%nat.
Proof. apply List.filter_length_le. Qed.

Lemma join_snoc sep (l : list jsstring) x :
  l <> [] -> Js.join sep (l ++ [x]) = Js.join sep l ++ sep ++ x.
Proof.
  induction l as [|y l IH]; intros Hne; [congruence |].
  destruct l as [|z l]; [reflexivity |].
  change (Js.join sep ((y :: z :: l) ++ [x]))
    with (y ++ sep ++ Js.join sep ((z :: l) ++ [x])).
  rewrite IH by discriminate.
  change (Js.join sep (y :: z :: l)) with (y ++ sep ++ Js.join sep (z :: l)).
  rewrite <- !app_assoc. reflexivity.
Qed.

Lemma join_split sep s : Js.join [sep] (Js.split sep s) = s.
Proof.
  induction s as [|c s IH]; simpl; [reflexivity |].
  destruct (c =? sep) eqn:E.
  - apply N.eqb_eq in E. subst.
    pose proof (split_nonempty sep s) as Hne.
    destruct (Js.split sep s) as [|l ls]; [congruence |].
    simpl in *. rewrite IH. reflexivity.
  - pose proof (split_nonempty sep s) as Hne.
    destruct (Js.split sep s) as [|l ls]; [congruence |].
    destruct ls as [|l' ls]; simpl in *; rewrite <- IH; reflexivity.
Qed.

Lemma join_first_nonempty sep first rest :
  first <> [] -> Js.join sep (first :: rest) <> [].
Proof.
  intros Hne. destruct first as [|c first]; [congruence |].
  destruct rest; discriminate.
Qed.

Lemma last_snoc (l : list jsstring) x : List.last (l ++ [x]) [] = x.
Proof. apply last_last. Qed.

Lemma hardSplit_pushes line chunks chunks' r :
  (maxLen < length line)%nat ->
  hardSplit (length line) maxLen chunks line = Some (chunks', r) ->
  chunks' <> [] /\ r <> [].
Proof.
  intros Hlong Hs.
  destruct (hardSplit_pieces (length line) line chunks (le_n _))
    as (ps & r' & Hs' & _ & Hf & Hr & Hne & Hcat).
  rewrite Hs' in Hs. injection Hs as <- <-. split.
  - destruct ps as [|p ps].
    + simpl in Hcat. rewrite Hcat in Hr. lia.
    + intros E. apply app_eq_nil in E as [_ E]. discriminate.
  - apply Hne. intros E. rewrite E in Hlong. simpl in Hlong. lia.
Qed.

Lemma splitStep_flow processed chunks current line chunks' current' :
  (processed = [] -> line <> []) ->
  flowInv processed chunks current ->
  splitStep maxLen (Some (chunks, current)) line = Some (chunks', current') ->
  flowInv (processed ++ [line]) chunks' current'.
Proof.
  intros Hfirst Hinv Hstep. cbn [splitStep] in Hstep.
  assert (Hcand : line <> [] ->
                  (if Js.truthyStr current
                   then current ++ [10] ++ line else line) <> []).
  { intros Hl. destruct current; [exact Hl | discriminate]. }
  destruct processed as [|first rest].
  - destruct Hinv as [-> ->]. specialize (Hfirst eq_refl).
    cbn [Js.truthyStr app] in *. unfold flowInv. simpl List.last.
    destruct (Nat.leb (length line) maxLen) eqn:E.
    + inversion Hstep; subst. auto.
    + apply Nat.leb_gt in E.
      apply hardSplit_pushes in Hstep as [Hc Hr]; [|exact E].
      split; [exact Hfirst | split; [congruence | auto]].
  - destruct Hinv as (Hf & Hjoin & Hlast).
    change ((first :: rest) ++ [line]) with (first :: (rest ++ [line])).
    unfold flowInv.
    change (first :: (rest ++ [line])) with ((first :: rest) ++ [line]).
    rewrite last_snoc.
    destruct (Nat.leb (length (if Js.truthyStr current
                               then current ++ [10] ++ line else line))
                maxLen) eqn:E.
    + inversion Hstep; subst. split; [exact Hf | split; [|exact Hcand]].
      intros Hc. specialize (Hjoin Hc).
      pose proof (join_first_nonempty [10] first rest Hf) as Hne.
      rewrite <- Hjoin in Hne.
      destruct current as [|c0 cur]; [congruence |].
      cbn [Js.truthyStr]. rewrite join_snoc by discriminate.
      rewrite <- Hjoin. reflexivity.
    + assert (Hc1 : (if Js.truthyStr current
                     then chunks ++ [current] else chunks) <> []).
      { destruct current as [|c0 cur]; cbn [Js.truthyStr].
        - intros Hc. specialize (Hjoin Hc).
          apply (join_first_nonempty [10] first rest Hf). congruence.
        - intros Hc. apply app_eq_nil in Hc as [_ Hc]. discriminate. }
      destruct (Nat.leb (length line) maxLen) eqn:E2.
      * inversion Hstep; subst.
        split; [exact Hf | split; [congruence | auto]].
      * apply Nat.leb_gt in E2.
        apply hardSplit_pushes in Hstep as [Hc Hr]; [|exact E2].
        split; [exact Hf | split; [congruence | auto]].
Qed.

Lemma splitStep_None lines :
  fold_left (splitStep maxLen) lines None = None.
Proof. induction lines; simpl; auto. Qed.

Lemma split_fold_flow lines : forall processed chunks current chunks' current',
  (processed = [] -> hd [] lines <> [] \/ lines = []) ->
  flowInv processed chunks current ->
  fold_left (splitStep maxLen) lines (Some (chunks, current))
  = Some (chunks', current') ->
  flowInv (processed ++ lines) chunks' current'.
Proof.
  induction lines as [|line lines IH];
    intros processed chunks current chunks' current' Hfirst Hinv Hfold.
  - simpl in Hfold. inversion Hfold; subst. rewrite app_nil_r. exact Hinv.
  - cbn [fold_left] in Hfold.
    destruct (splitStep maxLen (Some (chunks, current)) line)
      as [[chunks1 current1]|] eqn:Es;
      [|rewrite splitStep_None in Hfold; discriminate].
    replace (processed ++ line :: lines)
      with ((processed ++ [line]) ++ lines)
      by (rewrite <- app_assoc; reflexivity).
    apply (IH _ chunks1 current1); [| |exact Hfold].
    + intros E. apply app_eq_nil in E as [_ E]. discriminate.
    + eapply splitStep_flow; [|exact Hinv | exact Es].
      intros E. destruct (Hfirst E) as [H | H]; [exact H | discriminate].
Qed.

(** *** The places of the chunks in the text *)

Lemma woven_gap chunks : forall pre gap,
  woven chunks pre -> lineBreaks gap -> woven chunks (pre ++ gap).
Proof.
  induction chunks as [|c cs IH]; intros pre gap Hw Hg; cbn [woven] in *.
  - apply Forall_app. split; assumption.
  - destruct Hw as (g & rest & -> & Hgap & Hrest).
    exists g, (rest ++ gap). split; [|split; [exact Hgap | auto]].
    rewrite <- !app_assoc. reflexivity.
Qed.

Lemma woven_snoc chunks : forall pre c,
  woven chunks pre -> woven (chunks ++ [c]) (pre ++ c).
Proof.
  induction chunks as [|c0 cs IH]; intros pre c Hw; cbn [woven app] in *.
  - exists pre, []. split; [rewrite app_nil_r; reflexivity |].
    split; [exact Hw | constructor].
  - destruct Hw as (g & rest & -> & Hgap & Hrest).
    exists g, (rest ++ c). split; [|split; [exact Hgap | auto]].
    rewrite <- !app_assoc. reflexivity.
Qed.

Lemma line_starts (s : jsstring) : ~ In 10 s -> s = [] \/ startsLine s.
Proof.
  destruct s as [|x s]; [left; reflexivity | right].
  unfold startsLine. simpl. intros E. apply H. left. exact E.
Qed.

Lemma hardSplit_woven fuel : forall chunks line pre chunks' r,
  woven chunks pre -> Forall startsLine chunks -> ~ In 10 line ->
  hardSplit fuel maxLen chunks line = Some (chunks', r) ->
  Forall startsLine chunks'
  /\ ~ In 10 r
  /\ exists pre', woven chunks' pre' /\ pre ++ line = pre' ++ r.
Proof.
  induction fuel as [|fuel IH]; intros chunks line pre chunks' r Hw Hc Hl Hs;
    cbn [hardSplit] in Hs;
    destruct (Nat.leb (length line) maxLen) eqn:E;
    try discriminate;
    try (injection Hs as <- <-; split; [exact Hc | split; [exact Hl |]];
         exists pre; split; [exact Hw | reflexivity]).
  apply Nat.leb_gt in E.
  apply (IH _ _ (pre ++ firstn maxLen line)) in Hs.
  - destruct Hs as (Hc' & Hr & pre' & Hw' & Ep).
    split; [exact Hc' | split; [exact Hr |]].
    exists pre'. split; [exact Hw' |].
    rewrite <- Ep, <- app_assoc, firstn_skipn. reflexivity.
  - apply woven_snoc, Hw.
  - apply Forall_app. split; [exact Hc |]. constructor; [|constructor].
    destruct line as [|x line]; [simpl in E; lia |].
    destruct maxLen as [|m]; [lia |]. unfold startsLine. simpl.
    intros Ex. apply Hl. left. exact Ex.
  - intros Hin. apply Hl. rewrite <- (firstn_skipn maxLen line).
    apply in_or_app. right. exact Hin.
Qed.

Lemma splitStep_woven processed chunks current line chunks' current' :
  ~ In 10 line ->
  weaveInv processed chunks current ->
  splitStep maxLen (Some (chunks, current)) line = Some (chunks', current') ->
  weaveInv (processed ++ [line]) chunks' current'.
Proof.
  intros Hl (Hc & Hcur & pre & Hw & Ej) Hs.
  set (candidate := if Js.truthyStr current
                    then current ++ [10] ++ line else line) in *.
  assert (Hcand : exists pre0,
             woven chunks pre0
             /\ Js.join [10] (processed ++ [line]) = pre0 ++ candidate
             /\ (candidate = [] \/ startsLine candidate)).
  { destruct processed as [|first rest].
    - simpl in Ej. symmetry in Ej. apply app_eq_nil in Ej as [-> ->].
      exists []. subst candidate. cbn [Js.truthyStr].
      split; [exact Hw | split; [simpl; rewrite ?app_nil_r; reflexivity |]].
      apply line_starts, Hl.
    - rewrite join_snoc by discriminate. rewrite Ej.
      destruct current as [|x cur]; subst candidate; cbn [Js.truthyStr].
      + exists (pre ++ [10]).
        split; [apply woven_gap; [exact Hw | repeat constructor] |].
        split; [rewrite app_nil_r, <- app_assoc; reflexivity |].
        apply line_starts, Hl.
      + exists pre. split; [exact Hw |].
        split; [rewrite <- app_assoc; reflexivity |].
        right. destruct Hcur as [E | Hx]; [discriminate | exact Hx]. }
  destruct Hcand as (pre0 & Hw0 & Ej0 & Hst0).
  assert (Hpush : exists pre1,
             woven (if Js.truthyStr current then chunks ++ [current]
                    else chunks) pre1
             /\ Js.join [10] (processed ++ [line]) = pre1 ++ line
             /\ Forall startsLine (if Js.truthyStr current
                                   then chunks ++ [current] else chunks)).
  { destruct current as [|x cur]; cbn [Js.truthyStr] in *.
    - exists pre0. subst candidate. auto.
    - exists (pre0 ++ (x :: cur) ++ [10]). subst candidate.
      split; [|split].
      + rewrite app_assoc. apply woven_gap; [|repeat constructor].
        apply woven_snoc, Hw0.
      + rewrite Ej0, <- !app_assoc. reflexivity.
      + apply Forall_app. split; [exact Hc |].
        constructor; [|constructor].
        destruct Hcur as [E | Hx]; [discriminate | exact Hx]. }
  unfold splitStep in Hs. fold candidate in Hs.
  destruct (Nat.leb (length candidate) maxLen).
  - injection Hs as <- <-. split; [exact Hc | split; [exact Hst0 |]].
    exists pre0. auto.
  - destruct Hpush as (pre1 & Hw1 & Ej1 & Hc1).
    destruct (Nat.leb (length line) maxLen).
    + injection Hs as <- <-.
      split; [exact Hc1 | split; [apply line_starts, Hl |]].
      exists pre1. auto.
    + apply (hardSplit_woven _ _ _ pre1) in Hs; [|assumption..].
      destruct Hs as (Hc' & Hr & pre' & Hw' & Ep).
      split; [exact Hc' | split; [apply line_starts, Hr |]].
      exists pre'. split; [exact Hw' |]. rewrite Ej1. exact Ep.
Qed.

Lemma split_fold_woven lines : forall processed chunks current chunks' current',
  Forall (fun l => ~ In 10 l) lines ->
  weaveInv processed chunks current ->
  fold_left (splitStep maxLen) lines (Some (chunks, current))
  = Some (chunks', current') ->
  weaveInv (processed ++ lines) chunks' current'.
Proof.
  induction lines as [|line lines IH];
    intros processed chunks current chunks' current' Hl Hinv Hfold.
  - simpl in Hfold. injection Hfold as <- <-. rewrite app_nil_r. exact Hinv.
  - cbn [fold_left] in Hfold. inversion Hl; subst.
    destruct (splitStep maxLen (Some (chunks, current)) line)
      as [[chunks1 current1]|] eqn:Es;
      [|rewrite splitStep_None in Hfold; discriminate].
    replace (processed ++ line :: lines)
      with ((processed ++ [line]) ++ lines)
      by (rewrite <- app_assoc; reflexivity).
    apply (IH _ chunks1 current1); [assumption | | exact Hfold].
    eapply splitStep_woven; eassumption.
Qed.

(** The chunks of a text longer than the limit are consecutive pieces
    of it, each starting a line or a piece of one. *)
Lemma splitForTelegram_woven (text : jsstring) chunks :
  (maxLen < length text)%nat ->
  splitForTelegram text maxLen = Some chunks ->
  woven chunks text /\ Forall startsLine chunks.
Proof.
  intros Hlong. unfold splitForTelegram.
  replace (Nat.leb (length text) maxLen) with false
    by (symmetry; apply Nat.leb_gt; exact Hlong).
  destruct (fold_left (splitStep maxLen) (Js.split 10 text) (Some ([], [])))
    as [[cs current]|] eqn:Efold; [|discriminate].
  intros H. injection H as <-.
  apply (split_fold_woven _ [] [] []) in Efold;
    [|apply split_lines
     |split; [constructor | split; [left; reflexivity |]];
      exists []; split; [constructor | reflexivity]].
  simpl app in Efold. destruct Efold as (Hc & Hcur & pre & Hw & Ej).
  rewrite join_split in Ej. subst text.
  destruct current as [|x cur]; cbn [Js.truthyStr].
  - rewrite app_nil_r. auto.
  - split; [apply woven_snoc, Hw |].
    apply Forall_app. split; [exact Hc |]. constructor; [|constructor].
    destruct Hcur as [E | Hx]; [discriminate | exact Hx].
Qed.

(** The chunks returned for a text longer than the limit. *)
Lemma splitForTelegram_final (text : jsstring) :
  (maxLen < length text)%nat ->
  exists final,
    splitForTelegram text maxLen = Some final
    /\ Forall (fun c => (0 < length c <= maxLen)%nat) final
    /\ nonEmpty (flat_map (Js.split 10) final)
       = nonEmpty (flat_map (hardPieces maxLen) (Js.split 10 text))
    /\ (framed text = true -> (2 <= length final)%nat).
Proof.
  intros Hlong. unfold splitForTelegram.
  replace (Nat.leb (length text) maxLen) with false
    by (symmetry; apply Nat.leb_gt; exact Hlong).
  destruct (split_fold_inv (Js.split 10 text) [] (Some ([], []))
              (split_lines 10 text))
    as (chunks & current & Hfold & Hc & Hcur & Hl).
  { exists [], []. repeat split; auto. simpl. lia. }
  simpl app in Hl, Hfold. rewrite Hfold.
  set (final := if Js.truthyStr current then chunks ++ [current]
                else chunks).
  exists final. split; [reflexivity | split; [|split]].
  - subst final. destruct (Js.truthyStr current) eqn:Et; [|exact Hc].
    apply Forall_app. split; [exact Hc |]. constructor; [|constructor].
    apply truthyStr_length in Et. lia.
  - rewrite <- Hl. subst final. destruct current as [|c0 cur].
    + cbn [Js.truthyStr]. rewrite nonEmpty_app. simpl.
      rewrite app_nil_r. reflexivity.
    + cbn [Js.truthyStr]. rewrite flat_map_snoc. reflexivity.
  - intros Hframed. unfold framed in Hframed.
    apply andb_prop in Hframed as [Hhd Hlast].
    pose proof (split_fold_flow (Js.split 10 text) [] [] [] chunks current)
      as Hflow.
    simpl app in Hflow.
    destruct (Js.split 10 text) as [|first rest] eqn:Esp;
      [discriminate |].
    destruct Hflow as (_ & Hj & Hne).
    + intros _. left. simpl. simpl in Hhd.
      destruct first; [discriminate | discriminate].
    + split; reflexivity.
    + exact Hfold.
    + assert (Hcne : current <> []).
      { apply Hne. destruct (List.last (first :: rest) []); [discriminate |].
        discriminate. }
      assert (Hchunks : chunks <> []).
      { intros E. specialize (Hj E). rewrite <- Esp, join_split in Hj.
        subst current. lia. }
      subst final. destruct current; [congruence |].
      cbn [Js.truthyStr]. rewrite length_app. simpl.
      destruct chunks; [congruence | simpl; lia].
Qed.

(** C8, as amended.  With a positive limit, a text longer than the
    limit is split into chunks that are each non-empty and within the
    limit.  The chunks are consecutive pieces of the text, in order,
    each beginning with a unit that is not a line break: the text is the
    chunks with nothing but line breaks (possibly none) before, between
    and after them, so joining the chunks with line breaks gives back
    the text up to line breaks.  The lines of the chunks are, empty
    lines apart, the lines of the text in order, each line longer than
    the limit cut into consecutive pieces of the limit (the last
    possibly shorter).  And there are at least two chunks whenever the
    first and the last line of the text are not empty, or the text holds
    more units other than line breaks than the limit. *)
Theorem splitForTelegram_chunks (text : jsstring) :
  (maxLen < length text)%nat ->
  exists chunks,
    splitForTelegram text maxLen = Some chunks
    /\ Forall (fun c => (0 < length c <= maxLen)%nat) chunks
    /\ woven chunks text
    /\ Forall startsLine chunks
    /\ nonEmpty (flat_map (Js.split 10) chunks)
       = nonEmpty (flat_map (hardPieces maxLen) (Js.split 10 text))
    /\ noBreaks (Js.join [10] chunks) = noBreaks text
    /\ (framed text = true \/ (maxLen < length (noBreaks text))%nat ->
        (2 <= length chunks)%nat).
Proof.
  intros Hlong.
  destruct (splitForTelegram_final text Hlong)
    as (final & Hs & Hfin & Hlines & Hframed).
  destruct (splitForTelegram_woven text final Hlong Hs) as [Hwoven Hstart].
  assert (Hjoin : noBreaks (Js.join [10] final) = noBreaks text).
  { rewrite noBreaks_join, <- concat_nonEmpty, Hlines, concat_nonEmpty.
    rewrite concat_flat_map_hardPieces. apply split_concat. }
  exists final.
  split; [exact Hs | split; [exact Hfin |]].
  split; [exact Hwoven | split; [exact Hstart |]].
  split; [exact Hlines | split; [exact Hjoin |]].
  intros [Hf | Hunits]; [apply Hframed; exact Hf |].
  rewrite <- Hjoin in Hunits.
  destruct final as [|c1 [|c2 rest]]; simpl in *; [lia | | lia].
  inversion Hfin; subst.
  pose proof (noBreaks_length c1). lia.
Qed.

End Splitting.

Lemma splitForTelegram_chunks_witness :
  exists chunks,
    splitForTelegram (str "ab" ++ [10] ++ str "cdefg" ++ [10] ++ str "h") 3
    = Some chunks
    /\ (2 <= length chunks)%nat.
Proof.
  destruct (splitForTelegram_chunks 3 ltac:(lia)
              (str "ab" ++ [10] ++ str "cdefg" ++ [10] ++ str "h")
              ltac:(vm_compute; lia))
    as (chunks & Hs & _ & _ & _ & _ & _ & Hn).
  exists chunks. split; [exact Hs |].
  apply Hn. vm_compute. lia.
Defined.

(** A text longer than the limit that is sent as a single chunk: a line
    break followed by one line of exactly the limit. *)
Lemma splitForTelegram_single_chunk :
  ~ (forall text : jsstring,
       (telegramLimit < length text)%nat ->
       exists chunks,
         splitForTelegram text telegramLimit = Some chunks
         /\ (2 <= length chunks)%nat).
Proof.
  intros H.
  destruct (H (10 :: repeat 97 telegramLimit)) as (chunks & Hs & Hn).
  - rewrite length_cons, repeat_length. lia.
  - vm_compute in Hs. inversion Hs; subst. simpl in Hn. lia.
Qed.

Example splitForTelegram_example :
  splitForTelegram (str "ab" ++ [10] ++ str "cdefg" ++ [10] ++ str "h") 3
  = Some [str "ab"; str "cde"; str "fg"; str "h"].
Proof. vm_compute. reflexivity. Qed.

(** An alert starts with its title line and ends with its URL line, so
    it is split in two chunks at least once it is longer than the
    limit. *)
Lemma buildAlertText_framed foundSlots now calendarUrl :
  ~ In 10 calendarUrl ->
  SplitSpec.framed (buildAlertText foundSlots now calendarUrl) = true.
Proof.
  intros Hurl. unfold SplitSpec.framed, buildAlertText.
  set (middle := [] :: flat_map alertLines foundSlots
                 ++ [str "Checked at: " ++ now]).
  assert (Hnl : ~ In 10 (str "URL: " ++ calendarUrl)).
  { intros Hin. apply in_app_or in Hin as [Hin | Hin]; [|tauto].
    vm_compute in Hin. intuition discriminate. }
  assert (Etext :
            Js.join [10]
              ([str "Japan visa slot available"; []]
               ++ flat_map alertLines foundSlots
               ++ [str "Checked at: " ++ now; str "URL: " ++ calendarUrl])
            = str "Japan visa slot available"
              ++ 10 :: Js.join [10] middle
              ++ 10 :: (str "URL: " ++ calendarUrl)).
  { replace ([str "Japan visa slot available"; []]
             ++ flat_map alertLines foundSlots
             ++ [str "Checked at: " ++ now; str "URL: " ++ calendarUrl])
      with ((str "Japan visa slot available" :: middle)
            ++ [str "URL: " ++ calendarUrl]).
    - rewrite join_snoc by discriminate.
      change (Js.join [10] (str "Japan visa slot available" :: middle))
        with (str "Japan visa slot available"
              ++ [10] ++ Js.join [10] middle).
      rewrite <- !app_assoc. reflexivity.
    - subst middle. simpl. rewrite <- app_assoc. reflexivity. }
  rewrite Etext, split_app_sep.
  rewrite (split_no_sep 10 (str "Japan visa slot available"))
    by (vm_compute; intuition discriminate).
  cbn [app hd]. rewrite split_app_sep, (split_no_sep 10 _ Hnl).
  rewrite app_comm_cons, last_snoc. reflexivity.
Qed.

Corollary alert_split_twice foundSlots now calendarUrl :
  ~ In 10 calendarUrl ->
  (telegramLimit
   < length (buildAlertText foundSlots now calendarUrl))%nat ->
  exists chunks,
    splitForTelegram (buildAlertText foundSlots now calendarUrl)
      telegramLimit = Some chunks
    /\ (2 <= length chunks)%nat
    /\ Forall (fun c => (0 < length c <= telegramLimit)%nat) chunks.
Proof.
  intros Hurl Hlong.
  assert (Hpos : (0 < telegramLimit)%nat) by (unfold telegramLimit; lia).
  destruct (splitForTelegram_final telegramLimit Hpos _ Hlong)
    as (chunks & Hs & Hc & _ & Hn).
  exists chunks. split; [exact Hs | split; [|exact Hc]].
  apply Hn. apply buildAlertText_framed. exact Hurl.
Qed.

(** ** Markup extractor: plans *)

Section Plans.
Import PlanSpec.

Lemma str_inj a b : str a = str b -> a = b.
Proof.
  unfold str. intros H.
  rewrite <- (string_of_list_ascii_of_string a),
          <- (string_of_list_ascii_of_string b).
  f_equal. revert H.
  generalize (list_ascii_of_string a) (list_ascii_of_string b).
  induction l as [|x l IH]; intros [|y l'] H; simpl in H;
    try discriminate; [reflexivity |].
  inversion H as [[Hx Hl]]. f_equal; [|apply IH; exact Hl].
  rewrite <- (ascii_N_embedding x), <- (ascii_N_embedding y), Hx.
  reflexivity.
Qed.

Lemma numToString_inj a b : Js.numToString a = Js.numToString b -> a = b.
Proof.
  unfold Js.numToString. intros H. apply str_inj in H.
  assert (E : Z.to_int a = Z.to_int b).
  { pose proof (NilEmpty.isi (Z.to_int a)) as Ha.
    pose proof (NilEmpty.isi (Z.to_int b)) as Hb.
    rewrite H in Ha. congruence. }
  rewrite <- (DecimalZ.of_to a), <- (DecimalZ.of_to b), E. reflexivity.
Qed.

Lemma string_of_uint_units d :
  Forall (fun c => c <> 124) (str (NilEmpty.string_of_uint d)).
Proof.
  induction d; simpl; try (constructor; [discriminate | exact IHd]).
  constructor.
Qed.

(** The decimal form of a number holds no vertical bar. *)
Lemma numToString_units z : Forall (fun c => c <> 124) (Js.numToString z).
Proof.
  unfold Js.numToString. destruct (Z.to_int z) as [d|d]; simpl.
  - apply string_of_uint_units.
  - constructor; [discriminate | apply string_of_uint_units].
Qed.

Lemma app_sep_inj (sep : N) a b (x y : jsstring) :
  Forall (fun c => c <> sep) a -> Forall (fun c => c <> sep) b ->
  a ++ sep :: x = b ++ sep :: y -> a = b /\ x = y.
Proof.
  intros Ha. revert b. induction Ha as [|c a Hc _ IH]; intros b Hb H.
  - destruct b as [|d b]; simpl in H.
    + inversion H. auto.
    + inversion H; subst. inversion Hb; subst. congruence.
  - destruct b as [|d b]; simpl in H.
    + inversion H; subst. congruence.
    + inversion H; subst. inversion Hb; subst.
      destruct (IH b) as [-> ->]; auto.
Qed.

(** Two plans have the same key iff they agree on id and label. *)
Lemma planKey_inj p q : planKey p = planKey q -> p = q.
Proof.
  unfold planKey. intros H.
  change (str "|" ++ label p) with (124 :: label p) in H.
  change (str "|" ++ label q) with (124 :: label q) in H.
  apply app_sep_inj in H as [Hi Hl]; try apply numToString_units.
  apply numToString_inj in Hi. destruct p, q; simpl in *. congruence.
Qed.

Lemma dedupe_fold plans : forall (seen : gset jsstring) out before,
  (forall p, planKey p ∈ seen <-> p ∈ before) ->
  snd (fold_left
         (fun (acc : gset jsstring * list Plan) p =>
            let '(seen, out) := acc in
            let key := planKey p in
            if bool_decide (key ∈ seen) then acc
            else ({[key]} ∪ seen, out ++ [p]))
         plans (seen, out))
  = out ++ keepFirst before plans.
Proof.
  induction plans as [|p rest IH]; intros seen out before Hinv.
  - simpl. rewrite app_nil_r. reflexivity.
  - cbn [fold_left keepFirst].
    rewrite (bool_decide_ext _ _ (Hinv p)).
    destruct (bool_decide (p ∈ before)).
    + apply IH. exact Hinv.
    + rewrite (IH _ _ (p :: before)).
      * rewrite <- app_assoc. reflexivity.
      * intros q. rewrite elem_of_union, elem_of_singleton, elem_of_cons.
        rewrite Hinv. split; intros [H | H]; auto.
        -- left. apply planKey_inj. exact H.
        -- left. congruence.
Qed.

(** [dedupePlans] keeps the first entry of every [(id, label)] pair. *)
Lemma dedupePlans_keepFirst plans :
  dedupePlans plans = keepFirst [] plans.
Proof.
  unfold dedupePlans. rewrite (dedupe_fold plans ∅ [] []); [reflexivity |].
  intros p. rewrite elem_of_nil. set_solver.
Qed.

Lemma keepFirst_spec plans : forall before,
  List.NoDup (keepFirst before plans)
  /\ (forall p, In p (keepFirst before plans)
                <-> In p plans /\ ~ In p before).
Proof.
  induction plans as [|p rest IH]; intros before; simpl.
  - split; [constructor | tauto].
  - destruct (decide (p ∈ before)) as [Hin | Hnin].
    + rewrite bool_decide_eq_true_2 by exact Hin.
      destruct (IH before) as [Hn Hm]. split; [exact Hn |].
      intros q. rewrite Hm. apply list_elem_of_In in Hin.
      split; [tauto |]. intros [[-> | H] Hq]; tauto.
    + rewrite bool_decide_eq_false_2 by exact Hnin.
      destruct (IH (p :: before)) as [Hn Hm].
      rewrite list_elem_of_In in Hnin. split.
      * constructor; [|exact Hn]. rewrite Hm. simpl. tauto.
      * intros q. simpl. rewrite Hm. simpl. split.
        -- intros [<- | [H1 H2]]; tauto.
        -- intros [[<- | H] Hq]; [tauto |].
           destruct (decide (p = q)) as [->|Hne]; tauto.
Qed.

(** C6.  [parsePlans] returns the parsed plans de-duplicated by their
    [(id, label)] pair, first-seen order preserved: an entry is kept iff
    no entry with the same id and the same label precedes it, so the
    result has no two equal entries and the plans of the input;
    two identical pairs give one entry, the same id with two label
    texts gives two. *)
Theorem parsePlans_dedupes (html : jsstring) :
  parsePlans html = keepFirst [] (parsedPlans html)
  /\ List.NoDup (parsePlans html)
  /\ (forall p, In p (parsePlans html) <-> In p (parsedPlans html))
  /\ parsePlans twoIdenticalPairs
     = [{| id := 20; label := str "VISA up to 4" |}]
  /\ parsePlans sameIdTwoLabels
     = [{| id := 20; label := str "VISA up to 4" |};
        {| id := 20; label := str "VISA with COE" |}].
Proof.
  unfold parsePlans. rewrite dedupePlans_keepFirst.
  destruct (keepFirst_spec (parsedPlans html) []) as [Hn Hm].
  split; [reflexivity | split; [exact Hn | split]].
  - intros p. rewrite Hm. simpl. tauto.
  - rewrite !dedupePlans_keepFirst. split; vm_compute; reflexivity.
Qed.

End Plans.

(** ** Markup extractor: available dates *)

Section SortedDates.
Import CellSpec.

Lemma strLe_refl a : strLe a a = true.
Proof.
  induction a as [|x a IH]; simpl; [reflexivity |].
  rewrite N.eqb_refl, IH. apply orb_true_r.
Qed.

Lemma strLe_total a : forall b, strLe a b = false -> strLe b a = true.
Proof.
  induction a as [|x a IH]; intros [|y b] H; simpl in *;
    try reflexivity; try discriminate.
  apply orb_false_elim in H as [H1 H2].
  apply N.ltb_ge in H1.
  destruct (x =? y) eqn:E; simpl in H2.
  - apply N.eqb_eq in E. subst. rewrite N.eqb_refl, (IH b H2).
    apply orb_true_r.
  - apply N.eqb_neq in E.
    replace (y <? x) with true by (symmetry; apply N.ltb_lt; lia).
    reflexivity.
Qed.

Lemma strLe_trans a : forall b c,
  strLe a b = true -> strLe b c = true -> strLe a c = true.
Proof.
  induction a as [|x a IH]; intros [|y b] [|z c] H1 H2; simpl in *;
    try reflexivity; try discriminate.
  apply orb_true_iff in H1, H2. apply orb_true_iff.
  destruct H1 as [H1 | H1], H2 as [H2 | H2];
    rewrite ?andb_true_iff, ?N.ltb_lt, ?N.eqb_eq in *.
  - left. lia.
  - left. destruct H2 as [-> _]. exact H1.
  - left. destruct H1 as [-> _]. exact H2.
  - right. destruct H1 as [-> H1], H2 as [-> H2].
    split; [reflexivity | eapply IH; eassumption].
Qed.

Lemma insertSorted_In d l x : In x (insertSorted d l) <-> x = d \/ In x l.
Proof.
  induction l as [|y l IH]; simpl; [intuition |].
  destruct (strLe d y); simpl; [intuition |].
  rewrite IH. intuition.
Qed.

Lemma insertSorted_sorted d l :
  StronglySorted (fun a b => strLe a b = true) l ->
  StronglySorted (fun a b => strLe a b = true) (insertSorted d l).
Proof.
  induction 1 as [|y l Hs IH Hy]; simpl.
  - repeat constructor.
  - destruct (strLe d y) eqn:E.
    + constructor; [constructor; assumption |].
      constructor; [exact E |].
      eapply Forall_impl; [exact Hy |].
      intros z Hz. simpl in Hz. eapply strLe_trans; eassumption.
    + constructor; [exact IH |].
      apply List.Forall_forall. intros z Hz.
      apply insertSorted_In in Hz as [-> | Hz].
      * apply strLe_total. exact E.
      * revert z Hz. apply List.Forall_forall. exact Hy.
Qed.

Lemma insertSorted_NoDup d l :
  ~ In d l -> List.NoDup l -> List.NoDup (insertSorted d l).
Proof.
  induction l as [|y l IH]; simpl; intros Hd Hn.
  - repeat constructor. intros [].
  - destruct (strLe d y); [constructor; assumption |].
    inversion Hn; subst. constructor.
    + rewrite insertSorted_In. intuition.
    + apply IH; tauto.
Qed.

Lemma sortStrings_In l x : In x (sortStrings l) <-> In x l.
Proof.
  induction l as [|d l IH]; simpl; [tauto |].
  rewrite insertSorted_In, IH. intuition.
Qed.

Lemma sortStrings_sorted l :
  StronglySorted (fun a b => strLe a b = true) (sortStrings l).
Proof.
  induction l as [|d l IH]; simpl; [constructor |].
  apply insertSorted_sorted. exact IH.
Qed.

Lemma sortStrings_NoDup l : List.NoDup l -> List.NoDup (sortStrings l).
Proof.
  induction 1 as [|d l Hd Hn IH]; simpl; [constructor |].
  apply insertSorted_NoDup; [|exact IH].
  rewrite sortStrings_In. exact Hd.
Qed.

Lemma setOf_fold (dates : list jsstring) : forall out : list jsstring,
  List.NoDup out ->
  let out' := fold_left
                (fun (out : list jsstring) d =>
                   if bool_decide (d ∈ out) then out else out ++ [d])
                dates out in
  List.NoDup out' /\ (forall x, In x out' <-> In x out \/ In x dates).
Proof.
  induction dates as [|d dates IH]; intros out Hn; simpl.
  - split; [exact Hn | tauto].
  - destruct (decide (d ∈ out)) as [Hin | Hnin].
    + rewrite bool_decide_eq_true_2 by exact Hin.
      destruct (IH out Hn) as [H1 H2]. split; [exact H1 |].
      intros x. rewrite H2. apply list_elem_of_In in Hin.
      split; [tauto |]. intros [H | [<- | H]]; tauto.
    + rewrite bool_decide_eq_false_2 by exact Hnin.
      rewrite list_elem_of_In in Hnin.
      destruct (IH (out ++ [d])) as [H1 H2].
      { apply List.NoDup_app; [exact Hn | |].
        - repeat constructor. intros [].
        - intros x Hx [<- | []]. tauto. }
      split; [exact H1 |]. intros x. rewrite H2, in_app_iff. simpl.
      tauto.
Qed.

Lemma setOf_NoDup dates : List.NoDup (setOf dates).
Proof. apply (setOf_fold dates []). constructor. Qed.

Lemma setOf_In dates x : In x (setOf dates) <-> In x dates.
Proof.
  destruct (setOf_fold dates [] (List.NoDup_nil _)) as [_ H].
  unfold setOf. rewrite H. simpl. tauto.
Qed.

(** A duplicate-free list sorted by [strLe] is strictly ascending. *)
Lemma sorted_set_ascending l : ascending (sortStrings (setOf l)).
Proof.
  pose proof (sortStrings_sorted (setOf l)) as Hs.
  pose proof (sortStrings_NoDup _ (setOf_NoDup l)) as Hn.
  unfold ascending.
  induction Hs as [|x s Hs IH Hx]; [constructor |].
  inversion Hn as [|? ? Hnin Hn']; subst.
  constructor; [apply IH; exact Hn' |].
  apply List.Forall_forall. intros y Hy.
  split; [revert y Hy; apply List.Forall_forall; exact Hx |].
  intros ->. tauto.
Qed.

End SortedDates.

Section DataDates.
Import CellSpec RegexSpec RegexFacts.

Lemma rsvDateToIso_digits a b c d e f g h :
  Js.isDigit a = true -> Js.isDigit b = true -> Js.isDigit c = true ->
  Js.isDigit d = true -> Js.isDigit e = true -> Js.isDigit f = true ->
  Js.isDigit g = true -> Js.isDigit h = true ->
  rsvDateToIso [a; b; c; d; 47; e; f; 47; g; h]
  = [a; b; c; d; 45; e; f; 45; g; h].
Proof.
  intros Ha Hb Hc Hd He Hf Hg Hh.
  unfold rsvDateToIso, exec, rsvDatePattern.
  change (str "/") with [47]. change (str "-") with [45].
  cbn -[Js.isDigit]. rewrite Ha, Hb, Hc, Hd.
  cbn -[Js.isDigit]. rewrite He, Hf.
  cbn -[Js.isDigit]. rewrite Hg, Hh.
  cbn -[Js.isDigit]. reflexivity.
Qed.

Lemma digit_not_slash x : Js.isDigit x = true -> (x =? 47) = false.
Proof.
  unfold Js.isDigit. intros H. apply andb_prop in H as [H _].
  apply N.leb_le in H. apply N.eqb_neq. lia.
Qed.

(** [rsvDateToIso] turns a date between slashes into its ISO form. *)
Lemma rsvDateToIso_slashed w :
  slashedDate w -> rsvDateToIso w = slashedToIso w /\ rsvDateToIso w <> [].
Proof.
  intros (a & b & c & d & e & f & g & h & -> & Hd).
  repeat match goal with
         | H : Forall _ (_ :: _) |- _ => inversion H; subst; clear H
         end.
  rewrite rsvDateToIso_digits by assumption.
  split; [|discriminate].
  unfold slashedToIso. cbn [map].
  rewrite (digit_not_slash a), (digit_not_slash b), (digit_not_slash c),
    (digit_not_slash d), (digit_not_slash e), (digit_not_slash f),
    (digit_not_slash g), (digit_not_slash h) by assumption.
  reflexivity.
Qed.

Lemma lang_slashedDate ci w : lang ci slashedDatePattern w -> slashedDate w.
Proof.
  unfold slashedDatePattern. cbn [seq lang].
  intros (w1 & ? & -> & H1 & w2 & ? & -> & H2 & w3 & ? & -> & H3
          & w4 & w5 & -> & H4 & H5).
  apply lang_digits in H1 as [L1 D1], H3 as [L3 D3], H5 as [L5 D5].
  apply lang_slash in H2, H4. subst w2 w4.
  destruct w1 as [|a [|b [|c [|d [|]]]]]; try discriminate.
  destruct w3 as [|e [|f [|]]]; try discriminate.
  destruct w5 as [|g [|h [|]]]; try discriminate.
  exists a, b, c, d, e, f, g, h. split; [reflexivity |].
  repeat match goal with
         | H : Forall _ (_ :: _) |- _ => inversion H; subst; clear H
         end.
  repeat constructor; assumption.
Qed.

(** The first capture of a [data-date] match is a date between
    slashes. *)
Lemma dataDate_capture res :
  matchOf true dataDatePattern res -> slashedDate (capture 1 res).
Proof.
  intros (pos & prev & rest & s' & Hm & Hcaps).
  unfold dataDatePattern in Hm. cbn [seq rmatch] in Hm.
  apply rmatch_sound in Hm as (w1 & s1 & _ & _ & _ & Hm).
  apply rmatch_sound in Hm as (w2 & s2 & _ & _ & _ & Hm).
  apply rmatch_sound in Hm as (w3 & s3 & Hr3 & Hw3 & _ & Hm).
  unfold quote in Hm. cbn [rmatch set_cap m_rest] in Hm.
  destruct (m_rest s3) as [|x rest3] eqn:E3; [discriminate |].
  destruct (class_mem true false [CChar 34; CChar 39] x); [|discriminate].
  inversion Hm; subst s'. clear Hm.
  unfold capture. rewrite Hcaps.
  cbn [advance1 set_cap m_caps cap_lookup Nat.eqb].
  rewrite Hr3, length_app. cbn [length].
  replace (length w3 + S (length rest3) - S (length rest3))%nat
    with (length w3) by lia.
  rewrite firstn_app, Nat.sub_diag, firstn_all. simpl. rewrite app_nil_r.
  eapply lang_slashedDate. exact Hw3.
Qed.

Lemma dataDates_slashed cell : Forall slashedDate (dataDates cell).
Proof.
  unfold dataDates. apply List.Forall_map.
  eapply Forall_impl; [apply matchAll_matchOf |].
  intros res. apply dataDate_capture.
Qed.

Lemma pushDataDates_app ms :
  Forall slashedDate (map (capture 1) ms) ->
  forall dates,
    pushDataDates dates ms = dates ++ map slashedToIso (map (capture 1) ms).
Proof.
  unfold pushDataDates.
  induction ms as [|m ms IH]; intros H dates; simpl.
  - rewrite app_nil_r. reflexivity.
  - inversion H as [|? ? Hm Hms]; subst.
    destruct (rsvDateToIso_slashed _ Hm) as [E Hne].
    rewrite IH by exact Hms.
    destruct (rsvDateToIso (capture 1 m)) eqn:Ei; [congruence |].
    cbn [Js.truthyStr]. rewrite <- E, <- app_assoc. reflexivity.
Qed.

End DataDates.

Section CellRules.
Import CellSpec.

Variable ym : YearMonth.

Lemma validDay_guard d :
  (d <? 1)%Z || (31 <? d)%Z = negb (validDay d).
Proof.
  unfold validDay.
  destruct (d <? 1)%Z eqn:E1, (31 <? d)%Z eqn:E2,
           (1 <=? d)%Z eqn:E3, (d <=? 31)%Z eqn:E4; try reflexivity;
    rewrite ?Z.ltb_lt, ?Z.ltb_ge, ?Z.leb_le, ?Z.leb_gt in *; lia.
Qed.

Lemma textStep_app dates cell :
  textStep ym dates cell = dates ++ textDates ym cell.
Proof.
  unfold textStep, textDates, textDatesWith, labelDayWith,
    hasAvailableText.
  rewrite <- negb_orb.
  destruct (test true availablePattern cell
            || test false uketsukePattern cell); simpl;
    [|rewrite app_nil_r; reflexivity].
  destruct (exec true dayPattern cell) as [m|];
    [|rewrite app_nil_r; reflexivity].
  destruct (Js.NumberOfDigits (capture 1 m)) as [d|];
    [|rewrite app_nil_r; reflexivity].
  rewrite validDay_guard.
  destruct (validDay d); simpl; [reflexivity |].
  rewrite app_nil_r. reflexivity.
Qed.

Lemma legacy_cellStep_app dates cell :
  Legacy.cellStep ym dates cell = dates ++ legacyCellDates ym cell.
Proof.
  unfold Legacy.cellStep, legacyCellDates, textDatesWith, labelDayWith,
    hasAvailableText.
  rewrite <- negb_orb.
  destruct (test true availablePattern cell
            || test false uketsukePattern cell); simpl;
    [|rewrite app_nil_r; reflexivity].
  destruct (exec true Legacy.dayPattern cell) as [m|];
    [|rewrite app_nil_r; reflexivity].
  destruct (Js.NumberOfDigits (capture 1 m)) as [d|];
    [|rewrite app_nil_r; reflexivity].
  rewrite validDay_guard.
  destruct (validDay d); simpl; [reflexivity |].
  rewrite app_nil_r. reflexivity.
Qed.

(** One iteration of the loop appends what the rules give for the
    cell. *)
Lemma cellStep_app dates cell :
  cellStep ym dates cell = dates ++ cellDates ym cell.
Proof.
  unfold cellStep, cellDates, isoDataDates, dataDates, hasAvailableIcon,
    hasDisabledIcon.
  destruct (test true iconCirclePattern cell); simpl.
  - rewrite length_map.
    destruct (Nat.ltb 0 (length (matchAll true dataDatePattern cell))).
    + apply pushDataDates_app. apply dataDates_slashed.
    + destruct (test true iconDisabledPattern cell);
        [rewrite app_nil_r; reflexivity | apply textStep_app].
  - destruct (test true iconDisabledPattern cell);
      [rewrite app_nil_r; reflexivity | apply textStep_app].
Qed.

Lemma cell_fold (step : list jsstring -> jsstring -> list jsstring)
  (rule : jsstring -> list jsstring) cells :
  (forall dates cell, step dates cell = dates ++ rule cell) ->
  forall dates, fold_left step cells dates = dates ++ flat_map rule cells.
Proof.
  intros Hstep. induction cells as [|cell cells IH]; intros dates; simpl.
  - rewrite app_nil_r. reflexivity.
  - rewrite IH, Hstep, <- app_assoc. reflexivity.
Qed.

End CellRules.

Section AvailableDates.
Import CellSpec.

Variables (html : jsstring) (fallbackDate : JsDate).

Lemma parseAvailableDates_cells :
  parseAvailableDates html fallbackDate
  = sortStrings
      (setOf (flat_map (cellDates (parseYearMonth html fallbackDate))
                (tdCells html))).
Proof.
  unfold parseAvailableDates.
  rewrite (cell_fold _ _ _ (cellStep_app _)). reflexivity.
Qed.

Lemma legacy_parseAvailableDates_cells :
  Legacy.parseAvailableDates html fallbackDate
  = sortStrings
      (setOf (flat_map
                (legacyCellDates (parseYearMonth html fallbackDate))
                (tdCells html))).
Proof.
  unfold Legacy.parseAvailableDates.
  rewrite (cell_fold _ _ _ (legacy_cellStep_app _)). reflexivity.
Qed.


(** The dates of the text rule are dates of the month of the page, with
    the day of the date label, an integer from 1 to 31. *)
Lemma textDatesWith_day pat ym cell d :
  In d (textDatesWith pat ym cell) ->
  exists day,
    labelDayWith pat cell = Some (Some day) /\ (1 <= day <= 31)%Z
    /\ d = toIsoDate (year ym) (month ym) day.
Proof.
  unfold textDatesWith.
  destruct (hasAvailableText cell); [|intros []].
  destruct (labelDayWith pat cell) as [[day|]|]; try intros [].
  destruct (validDay day) eqn:E; [|intros []].
  intros [<- | []]. exists day. split; [reflexivity | split; [|reflexivity]].
  unfold validDay in E. apply andb_prop in E as [E1 E2].
  apply Z.leb_le in E1, E2. lia.
Qed.

Lemma cellDates_origin ym cell d :
  In d (cellDates ym cell) ->
  (hasAvailableIcon cell = true
   /\ exists raw, In raw (dataDates cell) /\ slashedDate raw
                  /\ d = slashedToIso raw)
  \/ (exists day,
        labelDay cell = Some (Some day) /\ (1 <= day <= 31)%Z
        /\ d = toIsoDate (year ym) (month ym) day).
Proof.
  unfold cellDates.
  destruct (hasAvailableIcon cell && Nat.ltb 0 (length (dataDates cell)))
    eqn:E.
  - apply andb_prop in E as [Hicon _]. intros Hin. left.
    split; [exact Hicon |].
    unfold isoDataDates in Hin. apply in_map_iff in Hin as (raw & <- & Hraw).
    exists raw. split; [exact Hraw | split; [|reflexivity]].
    pose proof (dataDates_slashed cell) as Hs.
    rewrite List.Forall_forall in Hs. apply Hs, Hraw.
  - destruct (hasDisabledIcon cell); [intros [] |].
    intros Hin. right. apply (textDatesWith_day dayPattern), Hin.
Qed.

(** C4, as amended.  The list [parseAvailableDates] returns is strictly
    ascending in the order of [sort()], so sorted and free of
    duplicates, in both variants.  Every date of the list is either the
    ISO form of a [data-date] value of a cell with the available icon
    (four, two and two digits, whatever the numbers they spell: these
    are not range-checked) or the date of the year and month of the page
    with the day of the date label of a cell, an integer from 1 to 31;
    in the earlier variant every date is of the second kind.  So a day
    captured from a date label that is not an integer from 1 to 31 gives
    no date: where every cell comes to the text rule with such a day,
    the list is empty. *)
Theorem parseAvailableDates_sorted :
  let ym := parseYearMonth html fallbackDate in
  ascending (parseAvailableDates html fallbackDate)
  /\ List.NoDup (parseAvailableDates html fallbackDate)
  /\ ascending (Legacy.parseAvailableDates html fallbackDate)
  /\ List.NoDup (Legacy.parseAvailableDates html fallbackDate)
  /\ (forall d,
        In d (parseAvailableDates html fallbackDate) ->
        (exists cell raw,
           In cell (tdCells html) /\ hasAvailableIcon cell = true
           /\ In raw (dataDates cell) /\ slashedDate raw
           /\ d = slashedToIso raw)
        \/ (exists cell day,
              In cell (tdCells html)
              /\ labelDay cell = Some (Some day) /\ (1 <= day <= 31)%Z
              /\ d = toIsoDate (year ym) (month ym) day))
  /\ (forall d,
        In d (Legacy.parseAvailableDates html fallbackDate) ->
        exists cell day,
          In cell (tdCells html)
          /\ labelDayWith Legacy.dayPattern cell = Some (Some day)
          /\ (1 <= day <= 31)%Z
          /\ d = toIsoDate (year ym) (month ym) day)
  /\ ((forall cell,
         In cell (tdCells html) ->
         (hasAvailableIcon cell = false \/ dataDates cell = [])
         /\ (forall day, labelDay cell = Some (Some day) ->
                         validDay day = false)) ->
      parseAvailableDates html fallbackDate = [])
  /\ ((forall cell day,
         In cell (tdCells html) ->
         labelDayWith Legacy.dayPattern cell = Some (Some day) ->
         validDay day = false) ->
      Legacy.parseAvailableDates html fallbackDate = []).
Proof.
  intros ym.
  assert (Hnew : forall d,
             In d (parseAvailableDates html fallbackDate) ->
             (exists cell raw,
                In cell (tdCells html) /\ hasAvailableIcon cell = true
                /\ In raw (dataDates cell) /\ slashedDate raw
                /\ d = slashedToIso raw)
             \/ (exists cell day,
                   In cell (tdCells html)
                   /\ labelDay cell = Some (Some day) /\ (1 <= day <= 31)%Z
                   /\ d = toIsoDate (year ym) (month ym) day)).
  { intros d Hd.
    rewrite parseAvailableDates_cells, sortStrings_In, setOf_In in Hd.
    apply in_flat_map in Hd as (cell & Hcell & Hd).
    apply cellDates_origin in Hd
      as [(Hicon & raw & Hraw & Hs & ->) | (day & Hl & Hr & ->)].
    - left. exists cell, raw. auto.
    - right. exists cell, day. auto. }
  assert (Hold : forall d,
             In d (Legacy.parseAvailableDates html fallbackDate) ->
             exists cell day,
               In cell (tdCells html)
               /\ labelDayWith Legacy.dayPattern cell = Some (Some day)
               /\ (1 <= day <= 31)%Z
               /\ d = toIsoDate (year ym) (month ym) day).
  { intros d Hd.
    rewrite legacy_parseAvailableDates_cells, sortStrings_In, setOf_In in Hd.
    apply in_flat_map in Hd as (cell & Hcell & Hd).
    apply (textDatesWith_day Legacy.dayPattern) in Hd as (day & Hl & Hr & ->).
    exists cell, day. auto. }
  assert (Hvalid : forall day, (1 <= day <= 31)%Z -> validDay day = true).
  { intros day Hr. unfold validDay.
    apply andb_true_intro. split; apply Z.leb_le; lia. }
  split; [rewrite parseAvailableDates_cells; apply sorted_set_ascending |].
  split; [rewrite parseAvailableDates_cells;
          apply sortStrings_NoDup, setOf_NoDup |].
  split; [rewrite legacy_parseAvailableDates_cells;
          apply sorted_set_ascending |].
  split; [rewrite legacy_parseAvailableDates_cells;
          apply sortStrings_NoDup, setOf_NoDup |].
  split; [exact Hnew | split; [exact Hold | split]].
  - intros Hcells.
    destruct (parseAvailableDates html fallbackDate) as [|d l] eqn:E;
      [reflexivity | exfalso].
    destruct (Hnew d (or_introl eq_refl))
      as [(cell & raw & Hcell & Hicon & Hraw & _)
         | (cell & day & Hcell & Hl & Hr & _)];
      destruct (Hcells cell Hcell) as [Hrule Hday].
    + destruct Hrule as [Hno | Hno]; [congruence |].
      rewrite Hno in Hraw. destruct Hraw.
    + specialize (Hvalid day Hr). rewrite (Hday day Hl) in Hvalid.
      discriminate.
  - intros Hcells.
    destruct (Legacy.parseAvailableDates html fallbackDate) as [|d l] eqn:E;
      [reflexivity | exfalso].
    destruct (Hold d (or_introl eq_refl)) as (cell & day & Hcell & Hl & Hr & _).
    specialize (Hvalid day Hr). rewrite (Hcells cell day Hcell Hl) in Hvalid.
    discriminate.
Qed.

End AvailableDates.


(** The day of a [data-date] value is not range-checked: a cell with
    the available icon whose [data-date] spells month 13 and day 99
    gives that date. *)
Lemma parseAvailableDates_data_date_unchecked :
  parseAvailableDates
    (str "<td><img src='icon_circle.svg'><a data-date='2025/13/99'></a></td>")
    CellSpec.march2025
  = [str "2025-13-99"].
Proof. vm_compute. reflexivity. Qed.

Example parseAvailableDates_icon_only :
  parseAvailableDates CellSpec.iconOnlyCalendar CellSpec.march2025
  = [str "2025-03-05"].
Proof. vm_compute. reflexivity. Qed.

Example cell_day_out_of_range :
  parseAvailableDates
    (str "<td>Available<div class='sc_cal_date'>32</div></td><td>Available<div class='sc_cal_date'>0</div></td>")
    CellSpec.march2025 = [].
Proof. vm_compute. reflexivity. Qed.

(** * Properties of the rest of the program *)

(** ** Plan selection *)


Section PlanSelection.

Lemma length_pos_nil {A} (l : list A) : Nat.ltb 0 (length l) = false <-> l = [].
Proof.
  destruct l; simpl; split; intros H; try reflexivity; discriminate.
Qed.

(** X1.  The selection is empty only when no plan id is configured and the
    page shows no plan: with PLAN_IDS set, [checkOnce] never stops on
    [No plans detected]. *)
Theorem selectTargetPlans_empty (planIds : list Z) (allPlans : list Plan) :
  selectTargetPlans planIds allPlans = [] <-> planIds = [] /\ allPlans = [].
Proof.
  unfold selectTargetPlans. split.
  - destruct planIds as [|i ids]; [simpl; auto |].
    cbn [length Nat.ltb Nat.leb].
    destruct (List.filter _ allPlans) as [|p fp]; simpl; discriminate.
  - intros [-> ->]. reflexivity.
Qed.

(** X2.  With PLAN_IDS set, every selected plan carries a configured id; and
    when the page shows a plan with a configured id, the selection is
    the plans of the page with a configured id, in page order. *)
Theorem selectTargetPlans_wanted (planIds : list Z) (allPlans : list Plan) :
  planIds <> [] ->
  Forall (fun p => In (id p) planIds) (selectTargetPlans planIds allPlans)
  /\ (Exists (fun p => In (id p) planIds) allPlans ->
      selectTargetPlans planIds allPlans
      = List.filter (fun plan => bool_decide (id plan ∈ planIds)) allPlans).
Proof.
  intros Hne. unfold selectTargetPlans.
  destruct planIds as [|i ids]; [congruence |].
  cbn [length Nat.ltb Nat.leb].
  set (ids' := i :: ids) in *.
  destruct (List.filter _ allPlans) as [|p fp] eqn:Ef.
  - split.
    + apply List.Forall_forall. intros p Hin.
      apply in_map_iff in Hin as (x & <- & Hx). exact Hx.
    + intros Hex. exfalso. apply List.Exists_exists in Hex as (p & Hp & Hid).
      assert (Hin : In p (List.filter
                (fun plan => bool_decide (id plan ∈ ids')) allPlans)).
      { apply filter_In. split; [exact Hp |].
        apply bool_decide_eq_true_2, list_elem_of_In, Hid. }
      rewrite Ef in Hin. destruct Hin.
  - cbn [length Nat.ltb Nat.leb]. split; [|reflexivity].
    rewrite <- Ef. apply List.Forall_forall. intros q Hq.
    apply filter_In in Hq as [_ Hq].
    apply bool_decide_eq_true_1 in Hq. apply list_elem_of_In, Hq.
Qed.

Lemma filter_sublist_of {A} (f : A -> bool) l : sublist (List.filter f l) l.
Proof.
  induction l as [|x l IH]; simpl; [constructor |].
  destruct (f x); [apply sublist_skip | apply sublist_cons]; exact IH.
Qed.

Lemma filter_nil_iff {A} (f : A -> bool) l :
  List.filter f l = [] <-> Forall (fun x => f x = false) l.
Proof.
  induction l as [|x l IH]; simpl; [split; auto |].
  destruct (f x) eqn:E; split; intros H.
  - discriminate.
  - inversion H; congruence.
  - constructor; [exact E | apply IH, H].
  - inversion H; subst. apply IH. assumption.
Qed.

(** X3.  The earlier variant only ever selects plans of the page, in page
    order; with PLAN_IDS set its selection is empty as soon as the page
    shows no plan with a configured id, and without PLAN_IDS only when
    the page shows no plan. *)
Theorem legacy_selectTargetPlans_sublist (planIds : list Z)
  (allPlans : list Plan) :
  sublist (LegacyPlans.selectTargetPlans planIds allPlans) allPlans
  /\ (LegacyPlans.selectTargetPlans planIds allPlans = []
      <-> if Nat.ltb 0 (length planIds)
          then Forall (fun p => ~ In (id p) planIds) allPlans
          else allPlans = []).
Proof.
  unfold LegacyPlans.selectTargetPlans.
  destruct (Nat.ltb 0 (length planIds)).
  - split; [apply filter_sublist_of |].
    rewrite filter_nil_iff. split; apply List.Forall_impl; intros p H.
    + apply bool_decide_eq_false_1 in H. rewrite list_elem_of_In in H.
      exact H.
    + apply bool_decide_eq_false_2. rewrite list_elem_of_In. exact H.
  - destruct (List.filter _ allPlans) as [|p fp] eqn:Ef;
      cbn [length Nat.ltb Nat.leb].
    + split; [reflexivity | tauto].
    + split; [rewrite <- Ef; apply filter_sublist_of |].
      split; [discriminate |]. intros ->. discriminate.
Qed.

End PlanSelection.

Lemma selectTargetPlans_wanted_witness :
  Forall (fun p => In (id p) [20%Z; 34%Z])
    (selectTargetPlans [20%Z; 34%Z]
       [{| id := 7; label := str "Passport" |};
        {| id := 34; label := str "Working Holiday" |}]).
Proof.
  refine (proj1 (selectTargetPlans_wanted [20%Z; 34%Z] _ _)).
  discriminate.
Defined.

(** ** Found slots *)

Section FoundSlots.

Lemma strLe_antisym a : forall b,
  strLe a b = true -> strLe b a = true -> a = b.
Proof.
  induction a as [|x a IH]; intros [|y b] H1 H2; simpl in *;
    try reflexivity; try discriminate.
  apply orb_true_iff in H1, H2.
  rewrite ?andb_true_iff, ?N.ltb_lt, ?N.eqb_eq in *.
  destruct H1 as [H1 | [-> H1]], H2 as [H2 | [E H2]]; try lia.
  f_equal. apply IH; assumption.
Qed.

Lemma slotLe_order a b : slotLe a b = true <-> slotOrder a b.
Proof.
  unfold slotLe, slotOrder. destruct (bool_decide (date a = date b)) eqn:E.
  - apply bool_decide_eq_true_1 in E. rewrite E, strLe_refl, Z.leb_le.
    tauto.
  - apply bool_decide_eq_false_1 in E. tauto.
Qed.

Lemma slotOrder_total a b : slotLe a b = false -> slotOrder b a.
Proof.
  unfold slotLe, slotOrder. destruct (bool_decide (date a = date b)) eqn:E.
  - apply bool_decide_eq_true_1 in E. rewrite E, strLe_refl, Z.leb_gt.
    intros H. split; [reflexivity | lia].
  - apply bool_decide_eq_false_1 in E. intros H.
    split; [apply strLe_total, H | congruence].
Qed.

Lemma slotOrder_trans a b c : slotOrder a b -> slotOrder b c -> slotOrder a c.
Proof.
  unfold slotOrder. intros [H1 P1] [H2 P2]. split.
  - eapply strLe_trans; eassumption.
  - intros E. rewrite E in H1.
    assert (Ebc : date b = date c) by (apply strLe_antisym; assumption).
    assert (Eab : date a = date b) by congruence.
    specialize (P1 Eab). specialize (P2 Ebc). lia.
Qed.

Lemma insertSlot_perm x l : Permutation (insertSlot x l) (x :: l).
Proof.
  induction l as [|y l IH]; simpl; [reflexivity |].
  destruct (slotLe x y); [reflexivity |].
  rewrite IH. apply perm_swap.
Qed.

Lemma sortSlots_perm l : Permutation (fold_right insertSlot [] l) l.
Proof.
  induction l as [|x l IH]; simpl; [reflexivity |].
  rewrite insertSlot_perm, IH. reflexivity.
Qed.

Lemma insertSlot_sorted x l :
  StronglySorted slotOrder l -> StronglySorted slotOrder (insertSlot x l).
Proof.
  induction 1 as [|y l Hs IH Hy]; simpl.
  - constructor; constructor.
  - destruct (slotLe x y) eqn:E.
    + apply slotLe_order in E. constructor.
      * constructor; assumption.
      * constructor; [exact E |].
        eapply List.Forall_impl; [|exact Hy].
        intros z Hz. eapply slotOrder_trans; eassumption.
    + apply slotOrder_total in E. constructor; [exact IH |].
      apply List.Forall_forall. intros z Hz.
      apply (Permutation_in _ (insertSlot_perm x l)) in Hz.
      destruct Hz as [<- | Hz]; [exact E |].
      rewrite List.Forall_forall in Hy. apply Hy, Hz.
Qed.

Lemma sortSlots_sorted l : StronglySorted slotOrder (fold_right insertSlot [] l).
Proof.
  induction l as [|x l IH]; simpl; [constructor |].
  apply insertSlot_sorted, IH.
Qed.

Lemma existsb_key acc k :
  existsb (fun s => bool_decide (key s = k)) acc = true
  <-> In k (map key acc).
Proof.
  rewrite existsb_exists, in_map_iff. split.
  - intros (s & Hs & E). apply bool_decide_eq_true_1 in E. eauto.
  - intros (s & E & Hs). exists s. split; [exact Hs |].
    apply bool_decide_eq_true_2, E.
Qed.

Lemma byKey_fold slots : forall acc,
  List.NoDup (map key acc) ->
  let out :=
    fold_left
      (fun (acc : list Slot) slot =>
         if existsb (fun s => bool_decide (key s = key slot)) acc
         then acc else acc ++ [slot])
      slots acc in
  List.NoDup (map key out)
  /\ forall s, In s out
       <-> In s acc
           \/ (~ In (key s) (map key acc) /\ firstWithKey slots s = Some s).
Proof.
  induction slots as [|a slots IH]; intros acc Hnd; cbn zeta.
  - simpl. split; [exact Hnd |]. intros s. unfold firstWithKey. simpl.
    split; [auto | intros [H | [_ H]]; [exact H | discriminate]].
  - cbn [fold_left].
    destruct (existsb _ acc) eqn:Ex.
    + apply existsb_key in Ex.
      destruct (IH acc Hnd) as [Hn Hin]. split; [exact Hn |].
      intros s. rewrite Hin. unfold firstWithKey. cbn [find].
      destruct (bool_decide (key a = key s)) eqn:E.
      * apply bool_decide_eq_true_1 in E. rewrite <- E.
        split; (intros [H | [H1 H2]]; [left; exact H | tauto]).
      * reflexivity.
    + assert (Hna : ~ In (key a) (map key acc)).
      { intros H. apply existsb_key in H. congruence. }
      assert (Hnd' : List.NoDup (map key (acc ++ [a]))).
      { rewrite map_app. apply List.NoDup_app. repeat split.
        - exact Hnd.
        - simpl. constructor; [intros [] | constructor].
        - intros x Hx [<- | []]. exact (Hna Hx). }
      destruct (IH (acc ++ [a]) Hnd') as [Hn Hin]. split; [exact Hn |].
      intros s. rewrite Hin. unfold firstWithKey. cbn [find].
      rewrite map_app, !in_app_iff. simpl.
      destruct (bool_decide (key a = key s)) eqn:E.
      * apply bool_decide_eq_true_1 in E. split.
        -- intros [[H | [<- | []]] | [H1 H2]]; [left; exact H | | ].
           ++ right. split; [exact Hna | reflexivity].
           ++ exfalso. apply H1. right. left. exact E.
        -- intros [H | [H1 H2]]; [left; left; exact H |].
           injection H2 as <-. left. right. left. reflexivity.
      * apply bool_decide_eq_false_1 in E. split.
        -- intros [[H | [<- | []]] | [H1 H2]];
             [left; exact H | congruence |].
           right. split; [tauto | exact H2].
        -- intros [H | [H1 H2]]; [left; left; exact H |].
           right. split; [|exact H2]. intros [H | [H | []]]; tauto.
Qed.

Lemma dedupeFoundSlots_perm slots :
  exists byKey,
    Permutation (dedupeFoundSlots slots) byKey
    /\ List.NoDup (map key byKey)
    /\ forall s, In s byKey <-> firstWithKey slots s = Some s.
Proof.
  unfold dedupeFoundSlots.
  destruct (byKey_fold slots [] (List.NoDup_nil _)) as [Hn Hin].
  cbn zeta in Hn, Hin.
  eexists. split; [apply sortSlots_perm | split; [exact Hn |]].
  intros s. rewrite Hin. simpl. tauto.
Qed.

(** The key of a slot made by [mkSlot] stands for its plan id and its
    date. *)
Lemma mkSlot_key_inj p d q e :
  key (mkSlot p d) = key (mkSlot q e) -> id p = id q /\ d = e.
Proof.
  unfold mkSlot. cbn [key]. intros H.
  change (str "|" ++ d) with (124 :: d) in H.
  change (str "|" ++ e) with (124 :: e) in H.
  apply app_sep_inj in H as [Hi Hd]; try apply numToString_units.
  apply numToString_inj in Hi. auto.
Qed.

Lemma foundSlots_made results s :
  In s (foundSlots results)
  <-> exists plan dates,
        In (plan, dates) results /\ In (date s) dates
        /\ s = mkSlot plan (date s).
Proof.
  unfold foundSlots. rewrite in_flat_map. split.
  - intros ([plan dates] & Hr & Hs). cbn [fst snd] in Hs.
    apply in_map_iff in Hs as (d & <- & Hd).
    exists plan, dates. auto.
  - intros (plan & dates & Hr & Hd & ->).
    exists (plan, dates). split; [exact Hr |].
    cbn [fst snd]. apply in_map, Hd.
Qed.

Lemma find_some_key slots s :
  In s slots -> exists s0, firstWithKey slots s = Some s0.
Proof.
  intros Hin. unfold firstWithKey.
  destruct (find _ slots) as [s0|] eqn:E; [eauto |].
  exfalso. eapply find_none in E; [|exact Hin].
  apply bool_decide_eq_false_1 in E. congruence.
Qed.

Lemma firstWithKey_fixed slots s s0 :
  firstWithKey slots s = Some s0 ->
  In s0 slots /\ key s0 = key s /\ firstWithKey slots s0 = Some s0.
Proof.
  unfold firstWithKey. intros H.
  pose proof (find_some _ _ H) as [Hin E].
  apply bool_decide_eq_true_1 in E. rewrite E. auto.
Qed.

End FoundSlots.

(** X4.  [dedupeFoundSlots] keeps, for every key, the first slot pushed with
    it and nothing else, so no key occurs twice in its result. *)
Theorem dedupeFoundSlots_first (slots : list Slot) :
  List.NoDup (map key (dedupeFoundSlots slots))
  /\ forall s, In s (dedupeFoundSlots slots)
       <-> firstWithKey slots s = Some s.
Proof.
  destruct (dedupeFoundSlots_perm slots) as (byKey & Hp & Hn & Hin).
  split.
  - eapply Permutation_NoDup; [|exact Hn].
    apply Permutation_map. symmetry. exact Hp.
  - intros s. rewrite <- Hin. split; apply Permutation_in;
      [exact Hp | symmetry; exact Hp].
Qed.

(** X5.  The result of dedupeFoundSlots is in ascending order of date and,
    on the same date, of plan id. *)
Theorem dedupeFoundSlots_sorted (slots : list Slot) :
  StronglySorted slotOrder (dedupeFoundSlots slots).
Proof. apply sortSlots_sorted. Qed.

(** X6.  The slots alerted for the calendars fetched in a cycle: every
    (plan id, date) pair found is alerted, and exactly once. *)
Theorem found_pairs_once (results : list (Plan * list jsstring)) :
  let pairs :=
    map (fun s => (planId s, date s))
      (dedupeFoundSlots (foundSlots results)) in
  List.NoDup pairs
  /\ forall i d,
       In (i, d) pairs
       <-> exists plan dates,
             In (plan, dates) results /\ id plan = i /\ In d dates.
Proof.
  cbn zeta.
  destruct (dedupeFoundSlots_perm (foundSlots results))
    as (byKey & Hp & Hn & Hin).
  assert (Hmade : forall s, In s byKey ->
            exists plan dates, In (plan, dates) results
              /\ In (date s) dates /\ s = mkSlot plan (date s)).
  { intros s Hs. apply Hin, firstWithKey_fixed in Hs as [Hs _].
    apply foundSlots_made, Hs. }
  split.
  - eapply Permutation_NoDup;
      [apply Permutation_map; symmetry; exact Hp |].
    clear Hp Hin. induction byKey as [|s l IH]; [constructor |].
    simpl in Hn. inversion Hn as [|? ? Hs Hl]; subst.
    simpl. constructor.
    + intros Hc. apply Hs. apply in_map_iff in Hc as (t & Et & Ht).
      apply in_map_iff. exists t. split; [|exact Ht].
      destruct (Hmade s (or_introl eq_refl)) as (p & ? & _ & _ & Es).
      destruct (Hmade t (or_intror Ht)) as (q & ? & _ & _ & Eq).
      injection Et as Ei Ed.
      rewrite Es, Eq. rewrite Es, Eq in Ei. cbn [planId mkSlot] in Ei.
      unfold mkSlot. cbn [key]. rewrite Ei, Ed. reflexivity.
    + apply IH; [exact Hl |]. intros t Ht. apply Hmade. right. exact Ht.
  - intros i d. split.
    + intros Hc. apply in_map_iff in Hc as (s & Es & Hs).
      apply (Permutation_in _ Hp) in Hs.
      destruct (Hmade s Hs) as (plan & dates & Hr & Hd & E).
      injection Es as Ei Ed. exists plan, dates.
      rewrite E in Ei. cbn [planId mkSlot] in Ei.
      rewrite <- Ed. auto.
    + intros (plan & dates & Hr & Ei & Hd).
      assert (Hs : In (mkSlot plan d) (foundSlots results)).
      { apply foundSlots_made. exists plan, dates. auto. }
      destruct (find_some_key _ _ Hs) as (s0 & Hf).
      destruct (firstWithKey_fixed _ _ _ Hf) as (Hin0 & Ek & Hfix).
      apply in_map_iff. exists s0. split.
      * apply foundSlots_made in Hin0 as (q & ? & _ & _ & E0).
        rewrite E0 in Ek. apply mkSlot_key_inj in Ek as [Eid Ed].
        rewrite E0. cbn [planId mkSlot date]. cbn [date mkSlot] in Ed.
        rewrite Ed. congruence.
      * apply (Permutation_in _ (Permutation_sym Hp)), Hin, Hfix.
Qed.

Lemma filter_fold_fixed clock found : forall seen newMatches reads,
  (forall slot, In slot found ->
     SeenSpec.isSeenIn seen (key slot) = true) ->
  fold_left (Legacy.filterStep clock) found (seen, newMatches, reads)
  = (seen, newMatches, reads).
Proof.
  induction found as [|slot rest IH]; intros seen newMatches reads H;
    [reflexivity |].
  cbn [fold_left Legacy.filterStep].
  change (truthyOpt (seen !! key slot))
    with (SeenSpec.isSeenIn seen (key slot)).
  rewrite (H slot (or_introl eq_refl)). cbn [negb].
  apply IH. intros s Hs. apply H. right. exact Hs.
Qed.

(** X7.  In the earlier variant a slot is marked as seen before the alert is
    sent.  When the dispatch of a cycle fails, the state file is left as
    it was, and the next cycle that discovers the same slots finds them
    all seen: it changes nothing, sends nothing and ends normally. *)
Theorem legacy_failed_send_not_retried (c1 c2 : Cycle) (w : World)
  (slots : list Slot) :
  found c1 = Some slots -> sendOk c1 = false -> found c2 = Some slots ->
  let w1 := fst (Legacy.checkOnce c1 w) in
  disk w1 = disk w
  /\ Legacy.checkOnce c2 w1 = (w1, false).
Proof.
  intros H1 Hs H2. cbn zeta.
  assert (Hd : disk (fst (Legacy.checkOnce c1 w)) = disk w).
  { unfold Legacy.checkOnce. rewrite H1, Hs.
    destruct (Legacy.filterNew (clock c1) slots (seen w)) as [seen' nm].
    destruct (Nat.ltb 0 (length nm)); reflexivity. }
  split; [exact Hd |].
  destruct (legacy_checkOnce_marks c1 w slots H1) as [Hseen _].
  set (w1 := fst (Legacy.checkOnce c1 w)) in *.
  unfold Legacy.checkOnce. rewrite H2. unfold Legacy.filterNew at 1.
  rewrite filter_fold_fixed.
  - cbn [fst length Nat.ltb Nat.leb]. destruct w1; reflexivity.
  - intros slot Hin. rewrite Hseen, filterNew_marks.
    rewrite (bool_decide_eq_true_2 (key slot ∈ map key slots)).
    + apply orb_true_r.
    + apply list_elem_of_In, in_map, Hin.
Qed.

Lemma legacy_failed_send_not_retried_witness :
  let failing := {| found := Some [demoSlot]; clock := fun _ => demoInstant;
                    sendOk := false |} in
  let w1 := fst (Legacy.checkOnce failing freshWorld) in
  disk w1 = ∅ /\ Legacy.checkOnce demoCycle w1 = (w1, false).
Proof.
  intros failing.
  apply (legacy_failed_send_not_retried failing demoCycle freshWorld
           [demoSlot]); reflexivity.
Defined.

Section Sending.

Variables (url chatId : jsstring) (replies : nat -> Reply).

Lemma postChunks_accepted chunks : forall n,
  (forall i, (i < length chunks)%nat -> replies (n + i) = Accepted) ->
  postChunks url chatId replies n chunks = (map (postOf url chatId) chunks, Returns).
Proof.
  induction chunks as [|chunk rest IH]; intros n H; [reflexivity |].
  cbn [postChunks map].
  pose proof (H O ltac:(simpl; lia)) as H0. rewrite Nat.add_0_r in H0.
  rewrite H0, IH; [reflexivity |].
  intros i Hi. replace (S n + i)%nat with (n + S i)%nat by lia.
  apply H. simpl. lia.
Qed.

Lemma postChunks_refused chunks : forall n k,
  (k < length chunks)%nat ->
  (forall i, (i < k)%nat -> replies (n + i) = Accepted) ->
  replies (n + k) <> Accepted ->
  exists message,
    postChunks url chatId replies n chunks
    = (map (postOf url chatId) (firstn (S k) chunks), Throws message).
Proof.
  induction chunks as [|chunk rest IH]; intros n k Hk Hacc Href;
    [simpl in Hk; lia |].
  destruct k as [|k].
  - rewrite Nat.add_0_r in Href. cbn [postChunks firstn map].
    destruct (replies n) as [message | status [message | body] |];
      [eauto | eauto | eauto | congruence].
  - cbn [postChunks].
    pose proof (Hacc O ltac:(lia)) as H0. rewrite Nat.add_0_r in H0.
    rewrite H0.
    destruct (IH (S n) k) as (message & ->).
    + simpl in Hk. lia.
    + intros i Hi. replace (S n + i)%nat with (n + S i)%nat by lia.
      apply Hacc. lia.
    + replace (S n + k)%nat with (n + S k)%nat by lia. exact Href.
    + exists message. reflexivity.
Qed.

Lemma postChunks_prefix chunks : forall n,
  exists m, fst (postChunks url chatId replies n chunks)
            = map (postOf url chatId) (firstn m chunks).
Proof.
  induction chunks as [|chunk rest IH]; intros n.
  - exists O. reflexivity.
  - cbn [postChunks].
    destruct (replies n) as [message | status [message | body] |];
      try (exists 1%nat; reflexivity).
    destruct (IH (S n)) as (m & Hm).
    destruct (postChunks url chatId replies (S n) rest) as [posts outcome].
    exists (S m). simpl in *. rewrite Hm. reflexivity.
Qed.

End Sending.

Lemma splitForTelegram_bounded text :
  exists chunks,
    splitForTelegram text telegramLimit = Some chunks
    /\ Forall (fun c => (length c <= telegramLimit)%nat) chunks.
Proof.
  destruct (Nat.leb (length text) telegramLimit) eqn:E.
  - exists [text]. unfold splitForTelegram. rewrite E.
    split; [reflexivity |]. constructor; [|constructor].
    apply Nat.leb_le, E.
  - apply Nat.leb_gt in E.
    assert (Hpos : (0 < telegramLimit)%nat) by (unfold telegramLimit; lia).
    destruct (splitForTelegram_final telegramLimit Hpos text E)
      as (chunks & Hs & Hc & _).
    exists chunks. split; [exact Hs |].
    eapply List.Forall_impl; [|exact Hc]. simpl. intros c Hc'. lia.
Qed.

(** X8.  [sendTelegramMessage] always comes to an end; no text it posts is
    longer than 3900 code units, every one goes to the configured chat,
    and it posts nothing in a dry run or when the bot token or the chat
    id is missing. *)
Theorem sendTelegramMessage_posts (config : TelegramConfig)
  (now : jsstring) (replies : nat -> Reply) (text : jsstring) :
  exists posts logs outcome,
    sendTelegramMessage config now replies text
    = Some (posts, logs, outcome)
    /\ Forall (fun p => (length (postText p) <= 3900)%nat
                        /\ chat_id p = telegramChatId config) posts
    /\ (posts <> [] ->
        dryRun config = false /\ telegramBotToken config <> []
        /\ telegramChatId config <> []).
Proof.
  unfold sendTelegramMessage.
  destruct (dryRun config).
  { do 3 eexists. split; [reflexivity |]. split; [constructor | congruence]. }
  destruct (telegramBotToken config) as [|t token] eqn:Et.
  { do 3 eexists. split; [reflexivity |]. split; [constructor | congruence]. }
  destruct (telegramChatId config) as [|c chat] eqn:Ec.
  { do 3 eexists. split; [reflexivity |]. split; [constructor | congruence]. }
  cbn [Js.truthyStr negb orb].
  destruct (splitForTelegram_bounded text) as (chunks & -> & Hc).
  destruct (postChunks_prefix (sendMessageUrl config) (c :: chat) replies
              chunks 0) as (m & Hm).
  destruct (postChunks (sendMessageUrl config) (c :: chat) replies 0 chunks)
    as [posts outcome].
  simpl in Hm. subst posts.
  do 3 eexists. split; [reflexivity |]. split.
  - apply List.Forall_forall. intros p Hp.
    apply in_map_iff in Hp as (chunk & <- & Hin). simpl.
    split; [|reflexivity].
    rewrite List.Forall_forall in Hc.
    apply (Hc chunk). rewrite <- (firstn_skipn m chunks).
    apply in_or_app. left. exact Hin.
  - intros _. repeat split; congruence.
Qed.

(** X9.  The chunks are posted in order and the loop stops at the first call
    that is not accepted: the chunks before it have been delivered, the
    ones after it are never posted, and nothing is sent again. *)
Theorem sendTelegramMessage_stops_at_refusal (config : TelegramConfig)
  (now : jsstring) (replies : nat -> Reply) (text : jsstring)
  (chunks : list jsstring) (k : nat) :
  dryRun config = false ->
  telegramBotToken config <> [] -> telegramChatId config <> [] ->
  splitForTelegram text telegramLimit = Some chunks ->
  (forall i, (i < k)%nat -> replies i = Accepted) ->
  let post := postOf (sendMessageUrl config) (telegramChatId config) in
  ((length chunks <= k)%nat ->
   sendTelegramMessage config now replies text
   = Some (map post chunks, [], Returns))
  /\ ((k < length chunks)%nat -> replies k <> Accepted ->
      exists message,
        sendTelegramMessage config now replies text
        = Some (map post (firstn (S k) chunks), [], Throws message)).
Proof.
  intros Hdry Htoken Hchat Hsplit Hacc. cbn zeta.
  unfold sendTelegramMessage. rewrite Hdry, Hsplit.
  destruct (telegramBotToken config) as [|t token] eqn:Et; [congruence |].
  destruct (telegramChatId config) as [|c chat] eqn:Ec; [congruence |].
  cbn [Js.truthyStr negb orb]. split.
  - intros Hk. rewrite postChunks_accepted; [reflexivity |].
    intros i Hi. apply Hacc. lia.
  - intros Hk Href.
    destruct (postChunks_refused (sendMessageUrl config) (c :: chat) replies
                chunks 0 k Hk Hacc Href) as (message & ->).
    exists message. reflexivity.
Qed.

Lemma sendTelegramMessage_stops_at_refusal_witness :
  let config := {| dryRun := false; telegramBotToken := str "123:abc";
                   telegramChatId := str "42" |} in
  let replies := fun n : nat =>
    match n with
    | O => Accepted
    | _ => NotOk 429 (inr (str "Too Many Requests"))
    end in
  let text := repeat 97 3900 ++ [10] ++ repeat 98 3900 ++ [10] ++ str "c" in
  exists message,
    sendTelegramMessage config (str "now") replies text
    = Some (map (postOf (sendMessageUrl config) (str "42"))
              [repeat 97 3900; repeat 98 3900],
            [], Throws message).
Proof.
  intros config replies text.
  refine (proj2 (sendTelegramMessage_stops_at_refusal config (str "now")
                   replies text
                   [repeat 97 3900; repeat 98 3900; str "c"] 1
                   _ _ _ _ _) _ _).
  - reflexivity.
  - discriminate.
  - discriminate.
  - vm_compute. reflexivity.
  - intros i Hi. destruct i; [reflexivity | lia].
  - simpl. lia.
  - discriminate.
Defined.

Section CookieHeader.
Import CookieSpec JsFacts.

Lemma trimStart_In c s : In c (Js.trimStart s) -> In c s.
Proof.
  destruct (trimStart_suffix s) as (ws & E & _). intros H.
  rewrite E. apply in_or_app. right. exact H.
Qed.

Lemma trimEnd_In c s : In c (Js.trimEnd s) -> In c s.
Proof.
  destruct (trimEnd_prefix s) as (ws & E & _). intros H.
  rewrite E. apply in_or_app. left. exact H.
Qed.

Lemma trim_In c s : In c (Js.trim s) -> In c s.
Proof. intros H. apply trimStart_In, trimEnd_In, H. Qed.

Lemma trim_space s : Js.trim (32 :: s) = Js.trim s.
Proof. reflexivity. Qed.



(** The segments of a header joined from segments that hold no [;]. *)
Lemma split_join_segments segs :
  Forall (fun s => ~ In 59 s) segs -> segs <> [] ->
  Js.split 59 (Js.join (str "; ") segs)
  = hd [] segs :: map (cons 32) (tl segs).
Proof.
  induction 1 as [|p ps Hp Hps IH]; intros Hne; [congruence |].
  destruct ps as [|q ps].
  - simpl. apply split_no_sep, Hp.
  - change (Js.join (str "; ") (p :: q :: ps))
      with (p ++ 59 :: 32 :: Js.join (str "; ") (q :: ps)).
    rewrite split_app_sep, (split_no_sep 59 p Hp).
    cbn [app hd tl map]. f_equal.
    cbn [Js.split]. change (32 =? 59) with false. cbv iota.
    rewrite IH by discriminate. reflexivity.
Qed.

Lemma map_trim_segments segs :
  Forall (fun s => Js.trim s = s) segs ->
  map Js.trim (hd [] segs :: map (cons 32) (tl segs))
  = match segs with [] => [[]] | _ => segs end.
Proof.
  intros H. destruct segs as [|p ps]; [reflexivity |].
  inversion H as [|? ? Hp Hps]; subst. cbn [hd tl map].
  rewrite Hp. f_equal. clear H Hp.
  induction Hps as [|q ps Hq _ IH]; [reflexivity |].
  cbn [map]. rewrite trim_space, Hq, IH. reflexivity.
Qed.



End CookieHeader.


Section CookieSession.
Import CookieSpec JsFacts.

Lemma segmentPair_trim s : segmentPair (Js.trim s) = segmentPair s.
Proof. unfold segmentPair. rewrite trim_idem. reflexivity. Qed.

Lemma omap_segmentPair_trim parts :
  omap segmentPair (map Js.trim parts) = omap segmentPair parts.
Proof.
  induction parts as [|p ps IH]; [reflexivity |].
  cbn [map omap list_omap]. rewrite segmentPair_trim, IH. reflexivity.
Qed.



Lemma split_space sep s :
  sep <> 32 ->
  exists l ls, Js.split sep s = l :: ls
               /\ Js.split sep (32 :: s) = (32 :: l) :: ls.
Proof.
  intros Hsep. cbn [Js.split].
  replace (32 =? sep) with false by (symmetry; apply N.eqb_neq; congruence).
  destruct (Js.split sep s) as [|l ls] eqn:E.
  - exfalso. exact (split_nonempty sep s E).
  - eauto.
Qed.


Lemma lastValue_app k a b :
  lastValue k (a ++ b)
  = match lastValue k b with
    | Some v => Some v
    | None => lastValue k a
    end.
Proof.
  induction a as [|[k' v] a IH]; simpl.
  - destruct (lastValue k b); reflexivity.
  - rewrite IH. destruct (lastValue k b); reflexivity.
Qed.

End CookieSession.

(** ** Session client: the merged header read back *)

Section MergedHeader.
Import CookieSpec JsFacts.

Lemma splitAtEq_app s k v :
  splitAtEq s = Some (k, v) -> s = k ++ 61 :: v /\ ~ In 61 k.
Proof.
  revert k v. induction s as [|c s IH]; intros k v; simpl; [discriminate |].
  destruct (c =? 61) eqn:E.
  - apply N.eqb_eq in E. subst c. intros H. injection H as <- <-.
    split; [reflexivity | intros []].
  - apply N.eqb_neq in E.
    destruct (splitAtEq s) as [[k' v']|]; [|discriminate].
    intros H. injection H as <- <-.
    destruct (IH k' v' eq_refl) as [-> Hk].
    split; [reflexivity |]. intros [H | H]; [congruence | tauto].
Qed.

Lemma splitAtEq_here k v :
  ~ In 61 k -> splitAtEq (k ++ 61 :: v) = Some (k, v).
Proof.
  induction k as [|c k IH]; intros Hk; simpl.
  - reflexivity.
  - destruct (c =? 61) eqn:E;
      [apply N.eqb_eq in E; exfalso; apply Hk; left; exact E |].
    rewrite IH by (intros H; apply Hk; right; exact H). reflexivity.
Qed.

(** A trimmed text does not end with white space either. *)
Lemma trim_rev_noLeadingWs s : Js.trim s = s -> noLeadingWs (rev s).
Proof.
  intros E. rewrite <- E. unfold Js.trim, Js.trimEnd.
  rewrite rev_involutive. apply trimStart_noLeadingWs.
Qed.

Lemma noLeadingWs_app a b : a <> [] -> noLeadingWs a -> noLeadingWs (a ++ b).
Proof. destruct a; [congruence | auto]. Qed.

Lemma trim_fixed s : noLeadingWs s -> noLeadingWs (rev s) -> Js.trim s = s.
Proof.
  intros H1 H2. unfold Js.trim, Js.trimEnd.
  rewrite (trimStart_fixed s H1), (trimStart_fixed _ H2).
  apply rev_involutive.
Qed.

(** The entry of a trimmed key and a trimmed value is a trimmed text. *)
Lemma trim_entry k v :
  k <> [] -> Js.trim k = k -> Js.trim v = v ->
  Js.trim (k ++ 61 :: v) = k ++ 61 :: v.
Proof.
  intros Hne Hk Hv. apply trim_fixed.
  - apply noLeadingWs_app; [exact Hne |].
    rewrite <- Hk. apply trim_noLeadingWs.
  - rewrite rev_app_distr. cbn [rev]. rewrite <- app_assoc.
    destruct v as [|x v].
    + reflexivity.
    + apply noLeadingWs_app.
      * intros E. apply (f_equal (@length _)) in E.
        rewrite length_rev in E. discriminate.
      * apply trim_rev_noLeadingWs, Hv.
Qed.

Lemma segmentPair_entry k v :
  k <> [] -> ~ In 61 k -> Js.trim k = k -> Js.trim v = v ->
  segmentPair (k ++ 61 :: v) = Some (k, v).
Proof.
  intros Hne Hk Ek Ev. unfold segmentPair.
  rewrite trim_entry, splitAtEq_here by assumption.
  rewrite Ek, Ev. destruct k; [congruence | reflexivity].
Qed.

(** What the pair of a segment is made of. *)
Lemma segmentPair_units segment k v :
  segmentPair segment = Some (k, v) ->
  k <> [] /\ ~ In 61 k /\ Js.trim k = k /\ Js.trim v = v
  /\ (forall c, In c (k ++ v) -> In c segment).
Proof.
  unfold segmentPair.
  destruct (splitAtEq (Js.trim segment)) as [[rk rv]|] eqn:E; [|discriminate].
  apply splitAtEq_app in E as [E Hrk].
  destruct (Js.trim rk) as [|x t] eqn:Ek; cbn [Js.truthyStr]; [discriminate |].
  intros H. injection H as <- <-.
  split; [discriminate | split; [|split; [|split]]].
  - intros Hin. rewrite <- Ek in Hin. apply trim_In in Hin. tauto.
  - rewrite <- Ek. apply trim_idem.
  - apply trim_idem.
  - intros c Hin. apply trim_In. rewrite E.
    apply in_app_or in Hin as [Hin | Hin].
    + rewrite <- Ek in Hin. apply trim_In in Hin.
      apply in_or_app. left. exact Hin.
    + apply trim_In in Hin. apply in_or_app. right. right. exact Hin.
Qed.

Lemma lastValue_In k v pairs :
  lastValue k pairs = Some v -> In (k, v) pairs.
Proof.
  induction pairs as [|[k' v'] pairs IH]; simpl; [discriminate |].
  destruct (lastValue k pairs) as [v0|].
  - intros H. injection H as ->. right. apply IH. reflexivity.
  - destruct (decide (k' = k)) as [->|Hne].
    + rewrite bool_decide_eq_true_2 by reflexivity.
      intros H. injection H as ->. left. reflexivity.
    + rewrite bool_decide_eq_false_2 by exact Hne. discriminate.
Qed.

Lemma valueOf_None k m : ~ In k (map fst m) -> valueOf k m = None.
Proof.
  induction m as [|[k' v'] m IH]; simpl; [reflexivity |].
  intros H. rewrite bool_decide_eq_false_2 by tauto. apply IH. tauto.
Qed.

Lemma valueOf_In k v m :
  List.NoDup (map fst m) -> In (k, v) m -> valueOf k m = Some v.
Proof.
  induction m as [|[k' v'] m IH]; simpl; intros Hn; [intros [] |].
  inversion Hn as [|? ? Hnin Hnd]; subst.
  intros [E | Hin].
  - injection E as -> ->. rewrite bool_decide_eq_true_2 by reflexivity.
    reflexivity.
  - rewrite bool_decide_eq_false_2; [apply IH; assumption |].
    intros ->. apply Hnin. apply in_map_iff. exists (k, v). auto.
Qed.

(** In a list without repeated keys the last value of a key is its
    only one. *)
Lemma lastValue_valueOf k m :
  List.NoDup (map fst m) -> lastValue k m = valueOf k m.
Proof.
  induction m as [|[k' v'] m IH]; simpl; intros Hn; [reflexivity |].
  inversion Hn as [|? ? Hnin Hnd]; subst. rewrite (IH Hnd).
  destruct (decide (k' = k)) as [->|Hne].
  - rewrite bool_decide_eq_true_2 by reflexivity.
    rewrite valueOf_None by exact Hnin. reflexivity.
  - rewrite bool_decide_eq_false_2 by exact Hne.
    destruct (valueOf k m); reflexivity.
Qed.

(** The pairs of the two headers, one after the other. *)
Lemma cookiePairs_app existing new :
  cookiePairs existing new = headerPairs existing ++ headerPairs new.
Proof.
  unfold cookiePairs, headerPairs.
  change (str "; " ++ new) with (59 :: 32 :: new).
  rewrite split_app_sep, omap_app. f_equal.
  destruct (split_space 59 new ltac:(discriminate)) as (l & ls & E1 & E2).
  rewrite E1, E2. cbn [omap list_omap]. unfold segmentPair at 1 3.
  rewrite trim_space. reflexivity.
Qed.

(** Every entry of the map is the pair of a segment of the headers. *)
Lemma cookieMap_entries existing new k v :
  In (k, v) (cookieMap existing new) ->
  k <> [] /\ ~ In 61 k /\ Js.trim k = k /\ Js.trim v = v
  /\ ~ In 59 (k ++ 61 :: v).
Proof.
  intros Hin.
  destruct (cookie_fold
              (Js.split 59 (existing ++ str "; " ++ new)) [])
    as (Hv & Hn & _).
  fold (cookieMap existing new) in Hv, Hn.
  specialize (Hn ltac:(constructor)).
  pose proof (valueOf_In k v _ Hn Hin) as E. rewrite Hv in E.
  destruct (lastValue k _) as [v'|] eqn:El; [|discriminate].
  injection E as ->. apply lastValue_In in El.
  apply list_elem_of_In, list_elem_of_omap in El as (segment & Hseg & Hs).
  apply list_elem_of_In in Hseg.
  destruct (segmentPair_units _ _ _ Hs) as (H1 & H2 & H3 & H4 & H5).
  repeat (split; [assumption |]).
  pose proof (split_lines 59 (existing ++ str "; " ++ new)) as Hl.
  rewrite List.Forall_forall in Hl. specialize (Hl _ Hseg).
  intros H. apply in_app_or in H as [H | [H | H]];
    [| discriminate |]; apply Hl, H5, in_or_app; auto.
Qed.

Lemma omap_segmentPair_entries m :
  Forall (fun kv => segmentPair (cookieEntry kv) = Some kv) m ->
  omap segmentPair (map cookieEntry m) = m.
Proof.
  induction 1 as [|kv m H _ IH]; [reflexivity |].
  cbn [map omap list_omap]. rewrite H, IH. reflexivity.
Qed.

(** The merged header, read back as a header, gives the map it was
    written from. *)
Lemma mergeCookieHeaders_readBack existing new :
  headerPairs (mergeCookieHeaders existing new) = cookieMap existing new
  /\ (mergeCookieHeaders existing new = []
      \/ Forall (fun segment => segmentPair segment <> None)
           (Js.split 59 (mergeCookieHeaders existing new))).
Proof.
  unfold mergeCookieHeaders, headerPairs.
  pose proof (cookieMap_entries existing new) as Hent.
  destruct (cookieMap existing new) as [|kv m] eqn:Em;
    [split; [reflexivity | left; reflexivity] |].
  rewrite <- Em in *.
  assert (Hpair : Forall (fun kv => segmentPair (cookieEntry kv) = Some kv)
                    (cookieMap existing new)).
  { apply List.Forall_forall. intros [k v] Hin.
    destruct (Hent k v Hin) as (H1 & H2 & H3 & H4 & _).
    apply segmentPair_entry; assumption. }
  assert (Hsemi : Forall (fun s => ~ In 59 s)
                    (map cookieEntry (cookieMap existing new))).
  { apply List.Forall_forall. intros s Hs.
    apply in_map_iff in Hs as ([k v] & <- & Hin).
    apply (Hent k v Hin). }
  assert (Htrim : Forall (fun s => Js.trim s = s)
                    (map cookieEntry (cookieMap existing new))).
  { apply List.Forall_forall. intros s Hs.
    apply in_map_iff in Hs as ([k v] & <- & Hin).
    destruct (Hent k v Hin) as (H1 & H2 & H3 & H4 & _).
    apply trim_entry; assumption. }
  assert (Hne : map cookieEntry (cookieMap existing new) <> [])
    by (rewrite Em; discriminate).
  rewrite (split_join_segments _ Hsemi Hne).
  split.
  - rewrite <- omap_segmentPair_trim, (map_trim_segments _ Htrim).
    destruct (map cookieEntry (cookieMap existing new)) eqn:E;
      [congruence |].
    rewrite <- E. apply omap_segmentPair_entries, Hpair.
  - right.
    assert (Hsome : Forall (fun s => segmentPair s <> None)
                      (map cookieEntry (cookieMap existing new))).
    { apply List.Forall_forall. intros s Hs.
      apply in_map_iff in Hs as (kv' & <- & Hin).
      rewrite List.Forall_forall in Hpair. rewrite (Hpair kv' Hin).
      discriminate. }
    destruct (map cookieEntry (cookieMap existing new)) as [|e es];
      [congruence |].
    inversion Hsome as [|? ? He Hes]; subst. cbn [hd tl].
    constructor; [exact He |].
    apply List.Forall_forall. intros s Hs.
    apply in_map_iff in Hs as (e' & <- & Hin).
    rewrite List.Forall_forall in Hes. specialize (Hes e' Hin).
    unfold segmentPair in *. rewrite trim_space. exact Hes.
Qed.

(** White space apart, the units of a text are those of its trim. *)
Lemma trim_keeps c s : Js.isWhiteSpace c = false -> In c s -> In c (Js.trim s).
Proof.
  intros Hc Hin. unfold Js.trim.
  destruct (trimStart_suffix s) as (ws & E & Hws).
  destruct (trimEnd_prefix (Js.trimStart s)) as (ws' & E' & Hws').
  rewrite E, E' in Hin.
  rewrite List.Forall_forall in Hws, Hws'.
  apply in_app_or in Hin as [Hin | Hin]; [apply Hws in Hin; congruence |].
  apply in_app_or in Hin as [Hin | Hin]; [exact Hin |].
  apply Hws' in Hin. congruence.
Qed.

(** The segments that have no pair: those with no [=] and those with an
    empty key. *)
Lemma segmentPair_None segment :
  segmentPair segment = None
  <-> ~ In 61 segment \/ (exists rest, Js.trim segment = 61 :: rest).
Proof.
  split; [|apply segmentPair_malformed].
  unfold segmentPair.
  pose proof (trim_noLeadingWs segment) as Hlead.
  destruct (splitAtEq (Js.trim segment)) as [[rk rv]|] eqn:E.
  - apply splitAtEq_app in E as [E _].
    destruct rk as [|x rk]; [intros _; right; eauto |].
    rewrite E in Hlead. simpl in Hlead.
    assert (Hne : Js.trim (x :: rk) <> [])
      by (apply trim_nonempty; [exact Hlead | discriminate]).
    destruct (Js.trim (x :: rk)); [congruence | discriminate].
  - intros _. left. apply splitAtEq_None in E.
    intros Hin. apply E, trim_keeps; [reflexivity | exact Hin].
Qed.

End MergedHeader.

(** C7.  The merge of two cookie headers, read as a cookie header
    itself.  The header returned is written [k=v; k=v; ...] from the
    pairs it holds, every segment of it is well formed, and no key
    occurs twice in it.  A key has in it the value of its last
    well-formed segment in the two headers, the new header coming after
    the existing one, so that the new value wins; keys are compared unit
    by unit, so case matters.  Nothing is in it that was not a
    well-formed segment of one of the headers: the segments with no [=]
    and those with an empty key, and only those, have no pair and are
    dropped. *)
Theorem mergeCookieHeaders_semantics (existingCookie newCookie : jsstring) :
  let merged := mergeCookieHeaders existingCookie newCookie in
  merged
  = Js.join (str "; ")
      (map (fun kv => fst kv ++ str "=" ++ snd kv)
         (CookieSpec.headerPairs merged))
  /\ (merged = []
      \/ Forall (fun segment => CookieSpec.segmentPair segment <> None)
           (Js.split 59 merged))
  /\ List.NoDup (map fst (CookieSpec.headerPairs merged))
  /\ (forall k,
        CookieSpec.lastValue k (CookieSpec.headerPairs merged)
        = match CookieSpec.lastValue k (CookieSpec.headerPairs newCookie)
          with
          | Some v => Some v
          | None =>
              CookieSpec.lastValue k (CookieSpec.headerPairs existingCookie)
          end)
  /\ (forall k v,
        In (k, v) (CookieSpec.headerPairs merged) ->
        In (k, v) (CookieSpec.headerPairs existingCookie
                   ++ CookieSpec.headerPairs newCookie))
  /\ (forall segment,
        CookieSpec.segmentPair segment = None
        <-> ~ In 61 segment
            \/ (exists rest, Js.trim segment = 61 :: rest)).
Proof.
  intros merged.
  destruct (mergeCookieHeaders_readBack existingCookie newCookie)
    as [Eback Hsegs].
  fold merged in Eback, Hsegs.
  destruct (cookie_fold
              (Js.split 59 (existingCookie ++ str "; " ++ newCookie)) [])
    as (Hv & Hn & _).
  fold (cookieMap existingCookie newCookie) in Hv, Hn.
  fold (CookieSpec.cookiePairs existingCookie newCookie) in Hv.
  specialize (Hn ltac:(constructor)).
  assert (Hlast : forall k,
             CookieSpec.lastValue k (CookieSpec.headerPairs merged)
             = CookieSpec.lastValue k
                 (CookieSpec.headerPairs existingCookie
                  ++ CookieSpec.headerPairs newCookie)).
  { intros k. rewrite Eback, (lastValue_valueOf k _ Hn), Hv.
    rewrite cookiePairs_app.
    destruct (CookieSpec.lastValue k _); reflexivity. }
  split; [rewrite Eback; reflexivity |].
  split; [exact Hsegs |].
  split; [rewrite Eback; exact Hn |].
  split; [intros k; rewrite Hlast; apply lastValue_app |].
  split; [|apply segmentPair_None].
  intros k v Hin. apply lastValue_In. rewrite <- Hlast.
  rewrite Eback in *. rewrite (lastValue_valueOf k _ Hn).
  apply valueOf_In; assumption.
Qed.


Module CaptureFacts.
Import RegexSpec RegexFacts CaptureSpec.

Lemma rep_caps P L m g fuel :
  soundCaps P L m ->
  forall lo hi, soundCaps P (quantLang L lo hi) (rep m g fuel lo hi).
Proof.
  intros Hm. induction fuel as [|fuel IH]; intros lo hi k s res H Hc.
  - discriminate.
  - assert (Hstop : hi = Some 0%nat \/ lo = 0%nat ->
                    k s = Some res ->
                    exists w s', m_rest s = w ++ m_rest s'
                      /\ quantLang L lo hi w /\ capsIn P s'
                      /\ k s' = Some res).
    { intros Hz Hk. exists [], s. repeat split; auto.
      exists []. split; [reflexivity | split; [constructor |]].
      apply count_ok_zero. exact Hz. }
    assert (Hagain :
              hi <> Some 0%nat ->
              m (fun s' =>
                   if Nat.eqb lo 0
                      && Nat.eqb (length (m_rest s')) (length (m_rest s))
                   then None
                   else rep m g fuel (Nat.pred lo) (option_map Nat.pred hi)
                          k s') s = Some res ->
              exists w s', m_rest s = w ++ m_rest s'
                /\ quantLang L lo hi w /\ capsIn P s'
                /\ k s' = Some res).
    { intros Hhi Ha.
      destruct (Hm _ _ _ Ha Hc) as (w & s1 & Hr & Hw & Hc1 & Hk).
      destruct (Nat.eqb lo 0
                && Nat.eqb (length (m_rest s1)) (length (m_rest s)));
        [discriminate |].
      destruct (IH _ _ _ _ _ Hk Hc1)
        as (w2 & s2 & Hr2 & (ws & -> & Hws & Hn) & Hc2 & Hk2).
      exists (w ++ concat ws), s2. split; [|split; [|split]].
      - rewrite Hr, Hr2, app_assoc. reflexivity.
      - exists (w :: ws).
        split; [reflexivity | split; [constructor; assumption |]].
        apply count_ok_succ; assumption.
      - assumption.
      - assumption. }
    simpl in H.
    destruct hi as [[|hi]|].
    + auto.
    + destruct lo as [|lo]; [|apply Hagain; [discriminate | exact H]].
      cbn [Nat.ltb Nat.leb] in H.
      destruct g.
      * match type of H with
        | match ?a with _ => _ end = _ => destruct a eqn:Ea
        end; [inversion H; subst; apply Hagain; [discriminate | reflexivity]
             | auto].
      * destruct (k s) eqn:Ek;
          [inversion H; subst; auto
          | apply Hagain; [discriminate | exact H]].
    + destruct lo as [|lo]; [|apply Hagain; [discriminate | exact H]].
      cbn [Nat.ltb Nat.leb] in H.
      destruct g.
      * match type of H with
        | match ?a with _ => _ end = _ => destruct a eqn:Ea
        end; [inversion H; subst; apply Hagain; [discriminate | reflexivity]
             | auto].
      * destruct (k s) eqn:Ek;
          [inversion H; subst; auto
          | apply Hagain; [discriminate | exact H]].
Qed.

Lemma advance_caps w : forall s s',
  advance w s = Some s' ->
  (exists v, m_rest s = v ++ m_rest s') /\ m_caps s' = m_caps s.
Proof.
  induction w as [|c w IH]; intros s s' H; simpl in H.
  - inversion H; subst. split; [exists []; reflexivity | reflexivity].
  - destruct (m_rest s) as [|x rest] eqn:Er; [discriminate |].
    apply IH in H as ((v & Hv) & Hc). simpl in Hv, Hc.
    split; [exists (x :: v); simpl; congruence | exact Hc].
Qed.

(** The matcher records, for a group, a text of the group's language. *)
Lemma rmatch_caps ci P r :
  (forall n w, groupLang ci r n w -> P n w) ->
  soundCaps P (lang ci r) (rmatch ci r).
Proof.
  induction r as [|c|neg items|r1 IH1 r2 IH2|g lo hi r IH|n r IH|n| | |];
    intros HP k s res H Hc; simpl in H.
  - exists [], s. simpl. repeat split; auto.
  - destruct (m_rest s) as [|x rest] eqn:Er; [discriminate |].
    destruct (canon ci x =? canon ci c) eqn:Ec; [|discriminate].
    apply N.eqb_eq in Ec.
    exists [x], (advance1 x rest s). simpl. repeat split; eauto.
  - destruct (m_rest s) as [|x rest] eqn:Er; [discriminate |].
    destruct (class_mem ci neg items x) eqn:Ec; [|discriminate].
    exists [x], (advance1 x rest s). simpl. repeat split; eauto.
  - assert (HP1 : forall n w, groupLang ci r1 n w -> P n w)
      by (intros; apply HP; simpl; auto).
    assert (HP2 : forall n w, groupLang ci r2 n w -> P n w)
      by (intros; apply HP; simpl; auto).
    destruct (IH1 HP1 _ _ _ H Hc) as (w1 & s1 & Hr1 & Hw1 & Hc1 & H1).
    destruct (IH2 HP2 _ _ _ H1 Hc1) as (w2 & s2 & Hr2 & Hw2 & Hc2 & H2).
    exists (w1 ++ w2), s2. split; [|split; [|split]]; auto.
    + rewrite Hr1, Hr2, app_assoc. reflexivity.
    + simpl. eauto.
  - exact (rep_caps P (lang ci r) _ g _ (IH HP) _ _ _ _ _ H Hc).
  - assert (HP1 : forall i w, groupLang ci r i w -> P i w)
      by (intros; apply HP; simpl; auto).
    destruct (IH HP1 _ _ _ H Hc) as (w & s1 & Hr & Hw & Hc1 & H1).
    eexists w, (set_cap n _ s1). simpl.
    split; [exact Hr | split; [exact Hw | split; [|exact H1]]].
    unfold capsIn. cbn [set_cap m_caps]. constructor; [|exact Hc1].
    cbn [fst snd]. apply HP. simpl. left. split; [reflexivity |].
    rewrite Hr, length_app.
    replace (length w + length (m_rest s1) - length (m_rest s1))%nat
      with (length w) by lia.
    rewrite firstn_app, Nat.sub_diag, firstn_all. simpl.
    rewrite app_nil_r. exact Hw.
  - destruct (cap_lookup n (m_caps s)) as [w|].
    + destruct (prefix_ci ci w (m_rest s)); [|discriminate].
      destruct (advance w s) as [s1|] eqn:Ea; [|discriminate].
      apply advance_caps in Ea as ((v & Hv) & Hcaps).
      exists v, s1. simpl. unfold capsIn in *. rewrite Hcaps. auto.
    + exists [], s. simpl. repeat split; auto.
  - destruct (Nat.eqb (m_pos s) 0); [|discriminate].
    exists [], s. simpl. repeat split; auto.
  - destruct (m_rest s) eqn:Er; [|discriminate].
    exists [], s. simpl. rewrite Er. repeat split; auto.
  - destruct (xorb _ _); [|discriminate].
    exists [], s. simpl. repeat split; auto.
Qed.

Lemma cap_lookup_In n caps w :
  cap_lookup n caps = Some w -> In (n, w) caps.
Proof.
  induction caps as [|[i v] caps IH]; simpl; [discriminate |].
  destruct (Nat.eqb i n) eqn:E.
  - apply Nat.eqb_eq in E. intros H. inversion H; subst. auto.
  - auto.
Qed.

(** A capture of a match is empty (the group took no part) or a text of
    a group with its number. *)
Lemma matchOf_capture ci r res n :
  matchOf ci r res ->
  capture n res = [] \/ groupLang ci r n (capture n res).
Proof.
  intros (pos & prev & rest & s' & Hm & Hcaps).
  destruct (rmatch_caps ci (groupLang ci r) r (fun _ _ H => H) _ _ _ Hm)
    as (w & s1 & _ & _ & Hc & Hk); [constructor |].
  inversion Hk; subst s1. unfold capture. rewrite Hcaps.
  destruct (cap_lookup n (m_caps s')) as [v|] eqn:E; [|left; reflexivity].
  right. apply cap_lookup_In in E. unfold capsIn in Hc.
  rewrite List.Forall_forall in Hc. apply (Hc (n, v) E).
Qed.

Lemma exec_capture ci r s res n :
  exec ci r s = Some res ->
  capture n res = [] \/ groupLang ci r n (capture n res).
Proof.
  intros H. apply matchOf_capture. eapply search_matchOf. exact H.
Qed.

End CaptureFacts.

Section Banner.
Import RegexSpec RegexFacts CaptureSpec CaptureFacts.

Lemma groupLang_lit ci v n w : groupLang ci (lit v) n w -> False.
Proof.
  induction v as [|c v IH]; simpl; [tauto |].
  destruct v; simpl in *; tauto.
Qed.

Lemma quantLang_class_bound ci neg items lo hi w :
  quantLang (lang ci (RClass neg items)) lo (Some hi) w ->
  (length w <= hi)%nat /\ Forall (fun x => class_mem ci neg items x = true) w.
Proof.
  intros (ws & -> & Hws & Hn). unfold count_ok in Hn.
  assert (Hlen : (length ws <= hi)%nat) by lia. clear Hn.
  revert hi Hlen.
  induction Hws as [|w ws Hw _ IH]; intros hi Hlen; simpl;
    [split; [lia | constructor] |].
  destruct Hw as (x & -> & Hx). simpl in Hlen.
  destruct hi as [|hi]; [lia |].
  destruct (IH hi ltac:(lia)) as [IH1 IH2].
  simpl. split; [lia | constructor; assumption].
Qed.

Lemma lang_digits_bound ci lo hi w :
  lang ci (times lo hi digit) w ->
  (length w <= hi)%nat /\ Forall (fun x => Js.isDigit x = true) w.
Proof.
  intros H. apply quantLang_class_bound in H as [Hl Hf].
  split; [exact Hl |].
  eapply List.Forall_impl; [|exact Hf]. intros x Hx.
  unfold class_mem in Hx. simpl in Hx. rewrite orb_false_r in Hx. exact Hx.
Qed.

Lemma digits_fold w : forall acc,
  Forall (fun x => Js.isDigit x = true) w -> (0 <= acc)%Z ->
  (acc * 10 ^ Z.of_nat (length w)
   <= fold_left (fun acc c => acc * 10 + (Z.of_N c - 48)) w acc
   < (acc + 1) * 10 ^ Z.of_nat (length w))%Z.
Proof.
  induction w as [|c w IH]; intros acc Hd Hacc.
  - simpl. lia.
  - inversion Hd as [|? ? Hc Hw]; subst.
    unfold Js.isDigit in Hc. apply andb_prop in Hc as [H1 H2].
    apply N.leb_le in H1, H2.
    cbn [fold_left length].
    specialize (IH (acc * 10 + (Z.of_N c - 48))%Z Hw ltac:(lia)).
    rewrite Nat2Z.inj_succ, Z.pow_succ_r by lia.
    assert (Hp : (0 < 10 ^ Z.of_nat (length w))%Z)
      by (apply Z.pow_pos_nonneg; lia).
    nia.
Qed.

Lemma digitsValue_bound w :
  Forall (fun x => Js.isDigit x = true) w ->
  (0 <= Js.digitsValue w < 10 ^ Z.of_nat (length w))%Z.
Proof.
  intros H. pose proof (digits_fold w 0%Z H ltac:(lia)) as Hb.
  unfold Js.digitsValue. lia.
Qed.

(** A run of at most 15 digits is converted exactly. *)
Lemma NumberOfDigits_short w :
  Forall (fun x => Js.isDigit x = true) w -> (length w <= 15)%nat ->
  Js.NumberOfDigits w = Some (Js.digitsValue w)
  /\ (0 <= Js.digitsValue w < 10 ^ Z.of_nat (length w))%Z.
Proof.
  intros Hd Hl. pose proof (digitsValue_bound w Hd) as Hb.
  split; [|exact Hb].
  unfold Js.NumberOfDigits, Js.roundDouble.
  assert (Hp : (10 ^ Z.of_nat (length w) <= 10 ^ 15)%Z)
    by (apply Z.pow_le_mono_r; lia).
  replace (Js.digitsValue w <? 2 ^ 53)%Z with true; [reflexivity |].
  symmetry. apply Z.ltb_lt.
  change (10 ^ 15)%Z with 1000000000000000%Z in Hp.
  change (2 ^ 53)%Z with 9007199254740992%Z. lia.
Qed.

Lemma banner_group1 w :
  groupLang true bannerPattern 1 w -> lang true (times 4 4 digit) w.
Proof.
  unfold bannerPattern. cbn [seq groupLang].
  intros H.
  repeat match type of H with
         | _ \/ _ => destruct H as [H | H]
         | _ /\ _ => destruct H as [? H]
         end;
    try (exfalso; exact (groupLang_lit _ _ _ _ H));
    try (exfalso; exact H); try discriminate; try exact H.
Qed.

Lemma banner_group2 w :
  groupLang true bannerPattern 2 w -> lang true (times 1 2 digit) w.
Proof.
  unfold bannerPattern. cbn [seq groupLang].
  intros H.
  repeat match type of H with
         | _ \/ _ => destruct H as [H | H]
         | _ /\ _ => destruct H as [? H]
         end;
    try (exfalso; exact (groupLang_lit _ _ _ _ H));
    try (exfalso; exact H); try discriminate; try exact H.
Qed.

Lemma banner_captures html m :
  exec true bannerPattern html = Some m ->
  (Forall (fun x => Js.isDigit x = true) (capture 1 m)
   /\ (length (capture 1 m) <= 4)%nat)
  /\ (Forall (fun x => Js.isDigit x = true) (capture 2 m)
      /\ (length (capture 2 m) <= 2)%nat).
Proof.
  intros H. split.
  - destruct (exec_capture _ _ _ _ 1%nat H) as [-> | Hg];
      [split; [constructor | simpl; lia] |].
    apply banner_group1, lang_digits_bound in Hg. tauto.
  - destruct (exec_capture _ _ _ _ 2%nat H) as [-> | Hg];
      [split; [constructor | simpl; lia] |].
    apply banner_group2, lang_digits_bound in Hg. tauto.
Qed.

End Banner.

(** X12.  Where the banner block is found, the year and the month are the
    numbers written in it: a year of at most four digits and a month of
    at most two.  No range is imposed on the month beyond that, and the
    conversion of so short a run of digits is always an integer: the
    second fallback of the function is never taken. *)
Theorem parseYearMonth_in_banner (html : jsstring) (fallbackDate : JsDate) :
  test true bannerPattern html = true ->
  exists blockMatch,
    exec true bannerPattern html = Some blockMatch
    /\ parseYearMonth html fallbackDate
       = {| year := Js.digitsValue (capture 1 blockMatch);
            month := Js.digitsValue (capture 2 blockMatch) |}
    /\ (0 <= year (parseYearMonth html fallbackDate) <= 9999)%Z
    /\ (0 <= month (parseYearMonth html fallbackDate) <= 99)%Z.
Proof.
  unfold test, parseYearMonth.
  destruct (exec true bannerPattern html) as [m|] eqn:E; [|discriminate].
  intros _. exists m. split; [reflexivity |].
  destruct (banner_captures html m E) as [[D1 L1] [D2 L2]].
  destruct (NumberOfDigits_short _ D1 ltac:(lia)) as [-> B1].
  destruct (NumberOfDigits_short _ D2 ltac:(lia)) as [-> B2].
  split; [reflexivity |]. cbn [year month].
  assert (P1 : (10 ^ Z.of_nat (length (capture 1 m)) <= 10 ^ 4)%Z)
    by (apply Z.pow_le_mono_r; lia).
  assert (P2 : (10 ^ Z.of_nat (length (capture 2 m)) <= 10 ^ 2)%Z)
    by (apply Z.pow_le_mono_r; lia).
  change (10 ^ 4)%Z with 10000%Z in P1. change (10 ^ 2)%Z with 100%Z in P2.
  lia.
Qed.

Lemma parseYearMonth_in_banner_witness :
  parseYearMonth
    (str "<div class='date'>2025" ++ [24180] ++ str " <b>13</b>"
     ++ [26376] ++ str "</div>")
    CellSpec.march2025
  = {| year := 2025; month := 13 |}.
Proof.
  destruct (parseYearMonth_in_banner
              (str "<div class='date'>2025" ++ [24180] ++ str " <b>13</b>"
               ++ [26376] ++ str "</div>")
              CellSpec.march2025 ltac:(vm_compute; reflexivity))
    as (m & Hm & -> & _).
  vm_compute in Hm. injection Hm as <-. vm_compute. reflexivity.
Defined.

Section RsvDate.
Import RegexSpec RegexFacts CellSpec.

Lemma search_bol ci r : forall rest pos prev,
  (0 < pos)%nat -> search ci (RSeq RBol r) pos prev rest = None.
Proof.
  induction rest as [|x rest IH]; intros pos prev Hpos; simpl;
    destruct pos; try lia; simpl; [reflexivity |].
  apply IH. lia.
Qed.

Lemma rsvDate_match raw m :
  exec false rsvDatePattern raw = Some m -> slashedDate raw.
Proof.
  unfold exec. intros H.
  assert (Hm : exists s', rmatch false rsvDatePattern Some
                            (MState 0 None raw []) = Some s').
  { destruct raw as [|x raw]; cbn [search] in H.
    - destruct (rmatch false rsvDatePattern Some (MState 0 None [] []))
        eqn:E; [eauto | discriminate].
    - destruct (rmatch false rsvDatePattern Some
                  (MState 0 None (x :: raw) [])) eqn:E; [eauto |].
      unfold rsvDatePattern in H. cbn [seq] in H.
      rewrite search_bol in H by lia. discriminate. }
  clear H. destruct Hm as (s' & Hm).
  unfold rsvDatePattern in Hm. cbn [seq] in Hm.
  cbn [rmatch m_pos Nat.eqb] in Hm.
  destruct (rmatch_sound _ _ _ _ _ Hm) as (w1 & s1 & Hr1 & Hw1 & _ & H1).
  destruct (rmatch_sound _ _ _ _ _ H1) as (w2 & s2 & Hr2 & Hw2 & _ & H2).
  destruct (rmatch_sound _ _ _ _ _ H2) as (w3 & s3 & Hr3 & Hw3 & _ & H3).
  destruct (rmatch_sound _ _ _ _ _ H3) as (w4 & s4 & Hr4 & Hw4 & _ & H4).
  destruct (rmatch_sound _ _ _ _ _ H4) as (w5 & s5 & Hr5 & Hw5 & _ & H5).
  cbn [rmatch set_cap m_rest] in H5.
  destruct (m_rest s5) eqn:E5; [|discriminate].
  cbn [set_cap m_rest] in Hr1, Hr2, Hr3, Hr4, Hr5.
  rewrite Hr2, Hr3, Hr4, Hr5, app_nil_r in Hr1.
  apply (lang_slashedDate false). unfold slashedDatePattern.
  cbn [seq lang]. cbn [lang] in Hw1, Hw3, Hw5.
  rewrite Hr1.
  exists w1, (w2 ++ w3 ++ w4 ++ w5). split; [reflexivity |].
  split; [exact Hw1 |].
  exists w2, (w3 ++ w4 ++ w5). split; [reflexivity |].
  split; [exact Hw2 |].
  exists w3, (w4 ++ w5). split; [reflexivity |].
  split; [exact Hw3 |].
  exists w4, w5. auto.
Qed.

End RsvDate.

(** X13.  [rsvDateToIso] turns a text of the form dddd/dd/dd (digits and two
    slashes, nothing else) into the same text with hyphens for the
    slashes, and every other text into the empty string. *)
Theorem rsvDateToIso_total (raw : jsstring) :
  (CellSpec.slashedDate raw /\ rsvDateToIso raw = CellSpec.slashedToIso raw
   /\ length (rsvDateToIso raw) = 10%nat)
  \/ (~ CellSpec.slashedDate raw /\ rsvDateToIso raw = []).
Proof.
  destruct (exec false rsvDatePattern raw) as [m|] eqn:E.
  - left. apply rsvDate_match in E.
    destruct (rsvDateToIso_slashed raw E) as [Hs _].
    split; [exact E | split; [exact Hs |]].
    rewrite Hs. destruct E as (a & b & c & d & e & f & g & h & -> & _).
    unfold CellSpec.slashedToIso. rewrite length_map. reflexivity.
  - right. split.
    + intros Hs. destruct (rsvDateToIso_slashed raw Hs) as [_ Hne].
      apply Hne. unfold rsvDateToIso. rewrite E. reflexivity.
    + unfold rsvDateToIso. rewrite E. reflexivity.
Qed.

Section IsoOrder.

Lemma strLe_app a : forall a' b b',
  length a = length a' ->
  strLe (a ++ b) (a' ++ b') = true
  <-> (a <> a' /\ strLe a a' = true) \/ (a = a' /\ strLe b b' = true).
Proof.
  induction a as [|x a IH]; intros [|y a'] b b' Hl; try discriminate.
  - simpl. split; [auto | intros [[H _] | [_ H]]; [congruence | exact H]].
  - injection Hl as Hl. cbn [app strLe].
    rewrite !orb_true_iff, !andb_true_iff, N.ltb_lt, N.eqb_eq.
    rewrite (IH a' b b' Hl). split.
    + intros [H | [-> [[H1 H2] | [-> H2]]]].
      * left. split; [intros E; injection E; lia | auto].
      * left. split; [congruence | auto].
      * right. auto.
    + intros [[H1 [H2 | [-> H2]]] | [E H2]].
      * auto.
      * right. split; [reflexivity |]. left. split; [congruence | exact H2].
      * injection E as -> ->. right. split; [reflexivity |]. right. auto.
Qed.

Lemma below_check (P : Z -> bool) (n : nat) :
  forallb P (map Z.of_nat (List.seq 0 n)) = true ->
  forall z, (0 <= z < Z.of_nat n)%Z -> P z = true.
Proof.
  intros H z Hz. rewrite forallb_forall in H. apply H.
  apply in_map_iff. exists (Z.to_nat z). split; [lia |].
  apply in_seq. lia.
Qed.

Lemma pad2_order m m' :
  (0 <= m < 100)%Z -> (0 <= m' < 100)%Z ->
  length (pad2 m) = 2%nat
  /\ (strLe (pad2 m) (pad2 m') = true <-> (m <= m')%Z).
Proof.
  intros Hm Hm'.
  pose proof (below_check
    (fun a => forallb
       (fun b => Nat.eqb (length (pad2 a)) 2
                 && Bool.eqb (strLe (pad2 a) (pad2 b)) (a <=? b)%Z)
       (map Z.of_nat (List.seq 0 100))) 100 ltac:(vm_compute; reflexivity)
    m Hm) as H.
  cbv beta in H.
  pose proof (below_check _ 100 H m' Hm') as H'. cbv beta in H'.
  apply andb_prop in H' as [H1 H2].
  apply Nat.eqb_eq in H1. apply Bool.eqb_prop in H2.
  split; [exact H1 |]. rewrite H2. apply Z.leb_le.
Qed.

Lemma pad2_app_order m m' r r' :
  (0 <= m < 100)%Z -> (0 <= m' < 100)%Z ->
  strLe (pad2 m ++ r) (pad2 m' ++ r') = true
  <-> (m < m')%Z \/ (m = m' /\ strLe r r' = true).
Proof.
  intros Hm Hm'.
  destruct (pad2_order m m' Hm Hm') as [L1 O1].
  destruct (pad2_order m' m Hm' Hm) as [L2 O2].
  rewrite strLe_app by congruence. rewrite O1.
  assert (E : pad2 m = pad2 m' <-> m = m').
  { split; [|congruence]. intros E.
    assert (m <= m')%Z by (apply O1; rewrite E; apply strLe_refl).
    assert (m' <= m)%Z by (apply O2; rewrite E; apply strLe_refl).
    lia. }
  rewrite E. intuition lia.
Qed.

Lemma pad4_split y :
  (0 <= y < 10000)%Z ->
  Js.padStart0 4 (Js.numToString y) = pad2 (y / 100) ++ pad2 (y mod 100).
Proof.
  intros Hy.
  assert (Hh : (0 <= y / 100 < 100)%Z)
    by (split; [apply Z.div_pos | apply Z.div_lt_upper_bound]; lia).
  assert (Hl : (0 <= y mod 100 < 100)%Z) by (apply Z.mod_pos_bound; lia).
  pose proof (below_check
    (fun a => forallb
       (fun b =>
          strLe (Js.padStart0 4 (Js.numToString (100 * a + b)))
            (pad2 a ++ pad2 b)
          && strLe (pad2 a ++ pad2 b)
               (Js.padStart0 4 (Js.numToString (100 * a + b))))
       (map Z.of_nat (List.seq 0 100))) 100 ltac:(vm_compute; reflexivity)
    (y / 100)%Z Hh) as H.
  cbv beta in H.
  pose proof (below_check _ 100 H (y mod 100)%Z Hl) as H'. cbv beta in H'.
  rewrite <- Z.div_mod in H' by lia.
  apply andb_prop in H' as [H1 H2].
  apply strLe_antisym; assumption.
Qed.

End IsoOrder.

Lemma toIsoDate_order (y m d y' m' d' : Z) :
  (0 <= y < 10000)%Z -> (0 <= m < 100)%Z -> (0 <= d < 100)%Z ->
  (0 <= y' < 10000)%Z -> (0 <= m' < 100)%Z -> (0 <= d' < 100)%Z ->
  length (toIsoDate y m d) = 10%nat
  /\ (strLe (toIsoDate y m d) (toIsoDate y' m' d') = true
      <-> (y < y' \/ (y = y' /\ (m < m' \/ (m = m' /\ d <= d'))))%Z).
Proof.
  intros Hy Hm Hd Hy' Hm' Hd'. unfold toIsoDate.
  rewrite !pad4_split by assumption.
  change (str "-") with [45]. fold (pad2 m) (pad2 d) (pad2 m') (pad2 d').
  assert (Hh : (0 <= y / 100 < 100)%Z)
    by (split; [apply Z.div_pos | apply Z.div_lt_upper_bound]; lia).
  assert (Hh' : (0 <= y' / 100 < 100)%Z)
    by (split; [apply Z.div_pos | apply Z.div_lt_upper_bound]; lia).
  assert (Hl : (0 <= y mod 100 < 100)%Z) by (apply Z.mod_pos_bound; lia).
  assert (Hl' : (0 <= y' mod 100 < 100)%Z) by (apply Z.mod_pos_bound; lia).
  split.
  - rewrite !length_app. cbn [length].
    rewrite (proj1 (pad2_order _ _ Hh Hh)), (proj1 (pad2_order _ _ Hl Hl)),
      (proj1 (pad2_order _ _ Hm Hm)), (proj1 (pad2_order _ _ Hd Hd)).
    reflexivity.
  - rewrite <- !app_assoc.
    rewrite pad2_app_order by assumption.
    rewrite pad2_app_order by assumption.
    cbn [app strLe]. change (45 <? 45) with false.
    change (45 =? 45) with true. cbn [orb andb].
    rewrite pad2_app_order by assumption.
    cbn [app strLe]. change (45 <? 45) with false.
    change (45 =? 45) with true. cbn [orb andb].
    rewrite <- (app_nil_r (pad2 d)), <- (app_nil_r (pad2 d')).
    rewrite pad2_app_order by assumption.
    cbn [strLe].
    pose proof (Z.div_mod y 100 ltac:(lia)) as Ey.
    pose proof (Z.div_mod y' 100 ltac:(lia)) as Ey'.
    intuition lia.
Qed.

(** X14.  The dates written by toIsoDate compare, as strings, the way the
    days they stand for follow one another (for years of at most four
    digits, months and days of at most two): so the sort at the end of
    parseAvailableDates puts the dates of the text rule in calendar
    order. *)
Theorem toIsoDate_chronological (y m d y' m' d' : Z) :
  (0 <= y < 10000)%Z -> (0 <= m < 100)%Z -> (0 <= d < 100)%Z ->
  (0 <= y' < 10000)%Z -> (0 <= m' < 100)%Z -> (0 <= d' < 100)%Z ->
  length (toIsoDate y m d) = 10%nat
  /\ (strLe (toIsoDate y m d) (toIsoDate y' m' d') = true
      <-> (y < y' \/ (y = y' /\ (m < m' \/ (m = m' /\ d <= d'))))%Z).
Proof. apply toIsoDate_order. Qed.

Lemma toIsoDate_chronological_witness :
  strLe (toIsoDate 2025 3 9) (toIsoDate 2025 3 10) = true.
Proof.
  apply (proj2 (toIsoDate_chronological 2025 3 9 2025 3 10
                  ltac:(lia) ltac:(lia) ltac:(lia)
                  ltac:(lia) ltac:(lia) ltac:(lia))).
  lia.
Defined.

Section LegacyMonth.
Import CellSpec.

Lemma legacyCellDates_day ym cell x :
  In x (legacyCellDates ym cell) ->
  exists d, x = toIsoDate (year ym) (month ym) d /\ (1 <= d <= 31)%Z.
Proof.
  unfold legacyCellDates, textDatesWith.
  destruct (hasAvailableText cell); [|intros []].
  destruct (labelDayWith Legacy.dayPattern cell) as [[d|]|]; try intros [].
  destruct (validDay d) eqn:E; [|intros []].
  intros [<- | []]. exists d. split; [reflexivity |].
  unfold validDay in E. apply andb_prop in E as [E1 E2].
  apply Z.leb_le in E1, E2. lia.
Qed.

Lemma ascending_days y m l :
  (0 <= y < 10000)%Z -> (0 <= m < 100)%Z ->
  ascending l ->
  (forall x, In x l -> exists d, x = toIsoDate y m d /\ (1 <= d <= 31)%Z) ->
  exists days,
    l = map (toIsoDate y m) days
    /\ StronglySorted Z.lt days
    /\ Forall (fun d => 1 <= d <= 31)%Z days.
Proof.
  intros Hy Hm Hasc. unfold ascending in Hasc.
  induction Hasc as [|x s Hs IH Hx]; intros Hd.
  - exists []. repeat split; constructor.
  - destruct (Hd x (or_introl eq_refl)) as (d & -> & Hr).
    destruct IH as (days & -> & Hsorted & Hrange).
    { intros z Hz. apply Hd. right. exact Hz. }
    exists (d :: days). split; [reflexivity |].
    split; [|constructor; assumption].
    constructor; [exact Hsorted |].
    apply List.Forall_forall. intros d' Hd'.
    rewrite List.Forall_forall in Hx, Hrange.
    destruct (Hx (toIsoDate y m d') (in_map _ _ _ Hd')) as [Hle Hne].
    specialize (Hrange d' Hd').
    apply (proj2 (toIsoDate_order y m d y m d' ltac:(lia) ltac:(lia)
                    ltac:(lia) ltac:(lia) ltac:(lia) ltac:(lia))) in Hle.
    assert (d <> d') by congruence. lia.
Qed.

End LegacyMonth.

(** X15.  In the earlier variant the dates returned are days of the month of
    the page, each from 1 to 31, in increasing order of the day and
    without repetition (for a year of at most four digits and a month of
    at most two): at most 31 dates. *)
Theorem legacy_dates_of_month (html : jsstring) (fallbackDate : JsDate) :
  let ym := parseYearMonth html fallbackDate in
  (0 <= year ym < 10000)%Z -> (0 <= month ym < 100)%Z ->
  exists days,
    Legacy.parseAvailableDates html fallbackDate
    = map (toIsoDate (year ym) (month ym)) days
    /\ StronglySorted Z.lt days
    /\ Forall (fun d => 1 <= d <= 31)%Z days.
Proof.
  intros ym Hy Hm.
  rewrite legacy_parseAvailableDates_cells. fold ym.
  apply ascending_days; try assumption.
  - apply sorted_set_ascending.
  - intros x Hx. rewrite sortStrings_In, setOf_In in Hx.
    apply in_flat_map in Hx as (cell & _ & Hx).
    eapply legacyCellDates_day, Hx.
Qed.

Lemma legacy_dates_of_month_witness :
  exists days,
    Legacy.parseAvailableDates
      (str "<td>Available<div class='sc_cal_date'>9</div></td><td>available<div class='sc_cal_date'>7</div></td>")
      CellSpec.march2025
    = map (toIsoDate 2025 3) days
    /\ StronglySorted Z.lt days.
Proof.
  destruct (legacy_dates_of_month
              (str "<td>Available<div class='sc_cal_date'>9</div></td><td>available<div class='sc_cal_date'>7</div></td>")
              CellSpec.march2025
              ltac:(vm_compute; split; [discriminate | reflexivity])
              ltac:(vm_compute; split; [discriminate | reflexivity]))
    as (days & Hd & Hs & _).
  exists days. split; [exact Hd | exact Hs].
Defined.

Section ZeroLimit.




End ZeroLimit.


Section ParsedPlans.
Import RegexSpec RegexFacts CaptureSpec CaptureFacts.

Lemma roundDouble_nonneg z n :
  (0 <= z)%Z -> Js.roundDouble z = Some n -> (0 <= n)%Z.
Proof.
  unfold Js.roundDouble. intros Hz.
  destruct (z <? 2 ^ 53)%Z; [intros H; inversion H; subst; exact Hz |].
  set (e := (Z.log2 z - 52)%Z).
  assert (Hp : (0 <= 2 ^ e)%Z) by (apply Z.pow_nonneg; lia).
  assert (Hq : (0 <= z / 2 ^ e)%Z).
  { destruct (Z.eq_dec (2 ^ e)%Z 0%Z) as [E | E].
    - rewrite E, Z.div_0_r. lia.
    - apply Z.div_pos; lia. }
  match goal with
  | |- context [if ?c then (?q + 1)%Z else _] => destruct c
  end; cbv zeta;
  match goal with
  | |- (if ?c then _ else _) = _ -> _ => destruct c
  end; intros H; inversion H; subst; nia.
Qed.

Lemma plan_group1 w :
  groupLang true planPattern 1 w -> lang true (plus digit) w.
Proof.
  unfold planPattern. cbn [seq groupLang].
  intros H.
  repeat match type of H with
         | _ \/ _ => destruct H as [H | H]
         | _ /\ _ => destruct H as [? H]
         end;
    try (exfalso; exact (groupLang_lit _ _ _ _ H));
    try (exfalso; exact H); try discriminate; try exact H.
Qed.

Lemma quantLang_class ci neg items lo hi w :
  quantLang (lang ci (RClass neg items)) lo hi w ->
  Forall (fun x => class_mem ci neg items x = true) w.
Proof.
  intros (ws & -> & Hws & _).
  induction Hws as [|w ws Hw _ IH]; simpl; [constructor |].
  destruct Hw as (x & -> & Hx). simpl. constructor; assumption.
Qed.

Lemma digitsValue_nonneg w :
  Forall (fun x => Js.isDigit x = true) w -> (0 <= Js.digitsValue w)%Z.
Proof. intros H. apply digitsValue_bound in H. lia. Qed.

Lemma planStep_plans m plans p :
  matchOf true planPattern m ->
  In p (planStep plans m) ->
  In p plans \/ (Js.trim (label p) = label p /\ (0 <= id p)%Z).
Proof.
  intros Hm. unfold planStep.
  destruct (Js.NumberOfDigits (capture 1 m)) as [n|] eqn:En; [|auto].
  destruct (Js.truthyStr _); [|auto].
  intros Hin. apply in_app_or in Hin as [Hin | [<- | []]]; [auto |].
  right. cbn [label id]. split; [apply JsFacts.decodeHtml_trimmed |].
  eapply roundDouble_nonneg; [|exact En].
  destruct (matchOf_capture true planPattern m 1 Hm) as [-> | Hg];
    [reflexivity |].
  apply plan_group1 in Hg. apply digitsValue_nonneg.
  apply quantLang_class in Hg.
  eapply List.Forall_impl; [|exact Hg]. intros x Hx.
  unfold class_mem in Hx. simpl in Hx. rewrite orb_false_r in Hx. exact Hx.
Qed.

Lemma parsedPlans_fold ms : forall plans p,
  Forall (matchOf true planPattern) ms ->
  In p (fold_left planStep ms plans) ->
  In p plans \/ (Js.trim (label p) = label p /\ (0 <= id p)%Z).
Proof.
  induction ms as [|m ms IH]; intros plans p Hms Hin; [auto |].
  inversion Hms as [|? ? Hm Hms']; subst. cbn [fold_left] in Hin.
  apply IH in Hin as [Hin | Hin]; [|auto | exact Hms'].
  eapply planStep_plans; eassumption.
Qed.

End ParsedPlans.

(** X17.  Every plan that parsePlans returns has a non-negative id and a label
    with no white space at either end.  The label may be empty: the
    emptiness test is made before the entities are decoded. *)
Theorem parsePlans_wellformed (html : jsstring) :
  Forall (fun p => (0 <= id p)%Z /\ Js.trim (label p) = label p)
    (parsePlans html)
  /\ parsePlans
       (str "<input name='plan' id='plan-7'><label for='plan-7'>&nbsp;</label>")
     = [{| id := 7; label := [] |}].
Proof.
  split; [|vm_compute; reflexivity].
  apply List.Forall_forall. intros p Hp.
  unfold parsePlans in Hp. rewrite dedupePlans_keepFirst in Hp.
  apply (keepFirst_spec (parsedPlans html) []) in Hp as [Hp _].
  unfold parsedPlans in Hp.
  apply parsedPlans_fold in Hp as [[] | Hp];
    [tauto | apply RegexFacts.matchAll_matchOf].
Qed.

Module RewriteFacts.
Import RewriteSpec.

Section Rewrite.

Variables (ci : bool) (r : regex) (matchLen : jsstring -> option nat).
Variables (f : mresult -> jsstring) (g : jsstring -> jsstring).
Hypothesis Hloc : locates ci r matchLen.
Hypothesis Hf : forall m, f m = g (r_text m).

Lemma rewrite_skip k : forall rest,
  (k <= length rest)%nat ->
  rewriteWith matchLen g k rest = rewriteWith matchLen g 0 (skipn k rest).
Proof.
  induction k as [|k IH]; intros rest Hk; [reflexivity |].
  destruct rest as [|x rest]; [simpl in Hk; lia |].
  cbn [rewriteWith skipn]. apply IH. simpl in Hk. lia.
Qed.

Lemma rewrite_match rest n :
  matchLen rest = Some n ->
  rewriteWith matchLen g 0 rest
  = g (firstn n rest) ++ rewriteWith matchLen g 0 (skipn n rest).
Proof.
  intros Hn. pose proof (proj2 Hloc rest n Hn) as Hb.
  destruct rest as [|x rest]; [simpl in Hb; lia |].
  cbn [rewriteWith]. rewrite Hn. f_equal.
  rewrite rewrite_skip by (simpl in Hb; lia).
  destruct n as [|n]; [lia |]. cbn [skipn Nat.sub]. rewrite Nat.sub_0_r.
  reflexivity.
Qed.

Lemma search_rewrite : forall rest pos prev,
  match search ci r pos prev rest with
  | None => rewriteWith matchLen g 0 rest = rest
  | Some res =>
      exists i n,
        r_index res = (pos + i)%nat /\ r_end res = (pos + i + n)%nat
        /\ (0 < n)%nat /\ (i + n <= length rest)%nat
        /\ r_text res = firstn n (skipn i rest)
        /\ rewriteWith matchLen g 0 rest
           = firstn i rest ++ g (firstn n (skipn i rest))
             ++ rewriteWith matchLen g 0 (skipn (i + n) rest)
  end.
Proof.
  induction rest as [|x rest IH]; intros pos prev; cbn [search];
    pose proof (proj1 Hloc pos prev) as H1.
  - specialize (H1 []).
    destruct (rmatch ci r Some (MState pos prev [] [])) as [s'|];
      [|reflexivity].
    destruct H1 as (n & Hn & _).
    apply (proj2 Hloc) in Hn. simpl in Hn. lia.
  - specialize (H1 (x :: rest)).
    destruct (rmatch ci r Some (MState pos prev (x :: rest) [])) as [s'|].
    + destruct H1 as (n & Hn & Hp).
      pose proof (proj2 Hloc _ _ Hn) as Hb.
      exists O, n. cbn [r_index r_end r_text]. rewrite Hp.
      replace (pos + n - pos)%nat with n by lia.
      cbn [skipn firstn app Nat.add].
      repeat split; try lia.
      apply rewrite_match, Hn.
    + specialize (IH (S pos) (Some x)).
      destruct (search ci r (S pos) (Some x) rest) as [res|].
      * destruct IH as (i & n & Hi & He & Hn & Hb & Ht & Hr).
        exists (S i), n. cbn [skipn firstn length Nat.add].
        repeat split; try lia; try assumption.
        cbn [rewriteWith]. rewrite H1, Hr. reflexivity.
      * cbn [rewriteWith]. rewrite H1, IH. reflexivity.
Qed.

Lemma matches_rewrite fuel : forall rest pos prev,
  (length rest < fuel)%nat ->
  spliceFrom pos rest (matchesFrom fuel ci r pos prev rest) f
  = rewriteWith matchLen g 0 rest.
Proof.
  induction fuel as [|fuel IH]; intros rest pos prev Hfuel; [lia |].
  cbn [matchesFrom].
  pose proof (search_rewrite rest pos prev) as Hs.
  destruct (search ci r pos prev rest) as [res|];
    [|cbn [spliceFrom]; congruence].
  destruct Hs as (i & n & Hi & He & Hn & Hb & Ht & Hr).
  replace (Nat.eqb (r_end res) (r_index res)) with false
    by (symmetry; apply Nat.eqb_neq; lia).
  cbn [spliceFrom]. rewrite Hf, Ht, Hr, Hi, He.
  replace (pos + i - pos)%nat with i by lia.
  replace (pos + i + n - pos)%nat with (i + n)%nat by lia.
  f_equal. f_equal. apply IH.
  rewrite length_skipn. lia.
Qed.

(** Replacing all matches of such a pattern is [rewriteWith]. *)
Lemma replaceAll_rewrite s :
  replaceAll ci r f s = rewriteWith matchLen g 0 s.
Proof.
  unfold replaceAll, matchAll. apply matches_rewrite. lia.
Qed.

End Rewrite.

End RewriteFacts.

Section Replacements.
Import RewriteSpec RewriteFacts.

Lemma locates_class neg items :
  locates false (RClass neg items) (classLen neg items).
Proof.
  split.
  - intros pos prev rest. cbn [rmatch m_rest]. unfold classLen.
    destruct rest as [|x rest]; [reflexivity |].
    destruct (class_mem false neg items x); [|reflexivity].
    exists 1%nat. cbn [advance1 m_pos]. split; [reflexivity | lia].
  - intros rest n. unfold classLen. destruct rest as [|x rest]; [discriminate |].
    destruct (class_mem false neg items x); [|discriminate].
    intros H. injection H as <-. simpl. lia.
Qed.

Lemma canon_plain c : canon false c = c.
Proof. reflexivity. Qed.

Lemma advance_prefix w : forall s,
  prefix_ci false w (m_rest s) = true ->
  exists s', advance w s = Some s'
             /\ m_pos s' = (m_pos s + length w)%nat
             /\ (length w <= length (m_rest s))%nat.
Proof.
  induction w as [|c w IH]; intros s H.
  - exists s. simpl. repeat split; lia.
  - cbn [prefix_ci advance] in *.
    destruct (m_rest s) as [|x rest]; [discriminate |].
    apply andb_prop in H as [_ H].
    destruct (IH (advance1 x rest s) H) as (s' & Ha & Hp & Hl).
    exists s'. cbn [advance1 m_pos m_rest length] in *.
    repeat split; [exact Ha | lia | lia].
Qed.

Lemma rmatch_lit w : forall k s,
  w <> [] ->
  rmatch false (lit w) k s
  = if prefix_ci false w (m_rest s)
    then match advance w s with Some s' => k s' | None => None end
    else None.
Proof.
  induction w as [|c w IH]; intros k s Hne; [congruence |].
  destruct w as [|d w].
  - cbn [lit rmatch prefix_ci advance].
    destruct (m_rest s) as [|x rest]; [reflexivity |].
    rewrite andb_true_r. reflexivity.
  - change (lit (c :: d :: w)) with (RSeq (RChar c) (lit (d :: w))).
    cbn [rmatch]. cbn [prefix_ci advance].
    destruct (m_rest s) as [|x rest]; [reflexivity |].
    destruct (canon false x =? canon false c); [|reflexivity].
    rewrite IH by discriminate. reflexivity.
Qed.

Lemma locates_lit w : w <> [] -> locates false (lit w) (litLen w).
Proof.
  intros Hne. split.
  - intros pos prev rest. rewrite rmatch_lit by exact Hne.
    unfold litLen. cbn [m_rest].
    destruct (prefix_ci false w rest) eqn:E; [|reflexivity].
    destruct (advance_prefix w (MState pos prev rest []) E)
      as (s' & -> & Hp & _).
    exists (length w). split; [reflexivity | exact Hp].
  - intros rest n. unfold litLen.
    destruct (prefix_ci false w rest) eqn:E; [|discriminate].
    intros H. injection H as <-.
    destruct (advance_prefix w (MState 0 None rest []) E) as (_ & _ & _ & Hl).
    cbn [m_rest] in Hl. destruct w; [congruence | simpl in *; lia].
Qed.

Lemma rewrite_id matchLen g : forall rest,
  (forall a b, rest = a ++ b -> matchLen b = None) ->
  rewriteWith matchLen g 0 rest = rest.
Proof.
  induction rest as [|x rest IH]; intros H; [reflexivity |].
  cbn [rewriteWith]. rewrite (H [] (x :: rest) eq_refl).
  f_equal. apply IH. intros a b E. apply (H (x :: a) b). rewrite E.
  reflexivity.
Qed.

Lemma replaceLit_absent pat by_ text c w :
  str pat = c :: w -> ~ In c text -> replaceLit pat by_ text = text.
Proof.
  intros Ep Hc. unfold replaceLit.
  rewrite (replaceAll_rewrite false (lit (str pat)) (litLen (str pat))
             (fun _ => by_) (fun _ => by_));
    [|apply locates_lit; rewrite Ep; discriminate | reflexivity].
  apply rewrite_id. intros a b E. unfold litLen. rewrite Ep.
  destruct b as [|x b]; [reflexivity |]. cbn [prefix_ci].
  destruct (canon false x =? canon false c) eqn:Ex; [|reflexivity].
  apply N.eqb_eq in Ex. rewrite !canon_plain in Ex. subst x.
  exfalso. apply Hc. rewrite E. apply in_or_app. right. left. reflexivity.
Qed.

Lemma rewrite_class neg items : forall text,
  rewriteWith (classLen neg items) (fun w => 92 :: w) 0 text
  = flat_map (fun c => if class_mem false neg items c then [92; c] else [c])
      text.
Proof.
  induction text as [|c text IH]; [reflexivity |].
  cbn [rewriteWith classLen flat_map].
  destruct (class_mem false neg items c); cbn [firstn Nat.sub app];
    rewrite IH; reflexivity.
Qed.

Lemma special_class c :
  class_mem false false (chars ".*+?^${}()|[]" ++ [CChar 92]) c
  = bool_decide (c ∈ specialChars).
Proof.
  unfold class_mem, specialChars, chars. cbn [xorb].
  change (map CChar (str ".*+?^${}()|[]") ++ [CChar 92])
    with (map CChar (str ".*+?^${}()|[]" ++ [92])).
  generalize (str ".*+?^${}()|[]" ++ [92]). intros l.
  induction l as [|x l IH].
  - symmetry. apply bool_decide_eq_false_2. apply not_elem_of_nil.
  - cbn [map existsb item_mem]. rewrite IH, !canon_plain.
    destruct (N.eqb_spec c x) as [->|Hne].
    + symmetry. apply bool_decide_eq_true_2. left.
    + cbn [orb]. apply bool_decide_ext. rewrite elem_of_cons. tauto.
Qed.

End Replacements.

(** X18.  [escapeRegExp] puts a backslash before every occurrence of
    one of the fourteen characters of its class (. * + ? ^ $ { } ( ) | [ ]
    and the backslash itself) and passes every other unit on as it
    is. *)
Theorem escapeRegExp_units (text : jsstring) :
  escapeRegExp text
  = flat_map (fun c => if bool_decide (c ∈ specialChars) then [92; c]
                       else [c]) text.
Proof.
  unfold escapeRegExp.
  rewrite (RewriteFacts.replaceAll_rewrite false _ _ _ (fun w => 92 :: w)
             (locates_class _ _) (fun _ => eq_refl)).
  rewrite rewrite_class. apply flat_map_ext. intros c.
  rewrite special_class. reflexivity.
Qed.

(** X19.  A text with no ampersand holds no entity: decodeHtml only trims
    it. *)
Theorem decodeHtml_plain (text : jsstring) :
  ~ In 38 text -> decodeHtml text = Js.trim text.
Proof.
  intros H. unfold decodeHtml.
  rewrite (replaceLit_absent "&amp;" _ text 38 (str "amp;") eq_refl H).
  rewrite (replaceLit_absent "&lt;" _ text 38 (str "lt;") eq_refl H).
  rewrite (replaceLit_absent "&gt;" _ text 38 (str "gt;") eq_refl H).
  rewrite (replaceLit_absent "&quot;" _ text 38 (str "quot;") eq_refl H).
  rewrite (replaceLit_absent "&#39;" _ text 38 (str "#39;") eq_refl H).
  rewrite (replaceLit_absent "&nbsp;" _ text 38 (str "nbsp;") eq_refl H).
  reflexivity.
Qed.

Lemma decodeHtml_plain_witness :
  decodeHtml (str "  VISA up to 4 ") = str "VISA up to 4".
Proof.
  rewrite (decodeHtml_plain (str "  VISA up to 4 ")).
  - vm_compute. reflexivity.
  - vm_compute. intuition discriminate.
Defined.

Section Tags.
Import RewriteSpec RewriteFacts.

Lemma rep_star neg items k fuel : forall s,
  (length (m_rest s) < fuel)%nat ->
  rep (rmatch false (RClass neg items)) true fuel 0 None k s
  = starTry neg items k (m_rest s) s.
Proof.
  induction fuel as [|fuel IH]; intros s Hfuel; [lia |].
  cbn [rep Nat.ltb Nat.leb rmatch Nat.eqb andb option_map Nat.pred].
  destruct (m_rest s) as [|x rest] eqn:Er; [reflexivity |].
  cbn [starTry]. destruct (class_mem false neg items x); [|reflexivity].
  cbn [advance1 m_rest length].
  replace (Nat.eqb (length rest) (S (length rest))) with false
    by (symmetry; apply Nat.eqb_neq; lia).
  rewrite IH by (cbn [advance1 m_rest]; simpl in Hfuel; lia).
  reflexivity.
Qed.

Lemma notGt_mem x : class_mem false true (chars ">") x = negb (x =? 62).
Proof.
  unfold class_mem, chars. change (str ">") with [62].
  cbn [map existsb item_mem]. rewrite !canon_plain, orb_false_r.
  reflexivity.
Qed.

Lemma starTry_gt : forall rest s,
  m_rest s = rest ->
  match starTry true (chars ">") (rmatch false (RChar 62) Some) rest s with
  | Some s' =>
      exists n, untilGt rest = Some n /\ m_pos s' = (m_pos s + n + 1)%nat
  | None => untilGt rest = None
  end.
Proof.
  induction rest as [|x rest IH]; intros s Hs; cbn [starTry untilGt].
  - cbn [rmatch]. rewrite Hs. reflexivity.
  - rewrite notGt_mem. destruct (x =? 62) eqn:Ex; cbn [negb].
    + cbn [rmatch]. rewrite Hs, !canon_plain, Ex.
      exists O. cbn [advance1 m_pos]. split; [reflexivity | lia].
    + specialize (IH (advance1 x rest s) eq_refl).
      destruct (starTry true (chars ">") (rmatch false (RChar 62) Some) rest
                  (advance1 x rest s)) as [s'|].
      * destruct IH as (n & -> & Hp). exists (S n).
        cbn [advance1 m_pos] in Hp. split; [reflexivity | lia].
      * rewrite IH. cbn [rmatch option_map]. rewrite Hs, !canon_plain, Ex.
        reflexivity.
Qed.

Lemma untilGt_bound : forall rest n,
  untilGt rest = Some n -> (n < length rest)%nat.
Proof.
  induction rest as [|x rest IH]; intros n; cbn [untilGt]; [discriminate |].
  destruct (x =? 62); [intros H; injection H as <-; simpl; lia |].
  destruct (untilGt rest) as [k|]; [|discriminate].
  intros H. injection H as <-. specialize (IH k eq_refl). simpl. lia.
Qed.

Lemma untilGt_None rest : untilGt rest = None <-> ~ In 62 rest.
Proof.
  induction rest as [|x rest IH]; cbn [untilGt]; [simpl; tauto |].
  destruct (N.eqb_spec x 62) as [->|Hne].
  - split; [discriminate | intros H; exfalso; apply H; left; reflexivity].
  - destruct (untilGt rest) as [k|]; cbn [option_map].
    + split; [discriminate |]. intros H. exfalso.
      assert (Hn : ~ In 62 rest) by (intros Hi; apply H; right; exact Hi).
      apply IH in Hn. discriminate.
    + split; [|reflexivity]. intros _ [E | Hi]; [congruence |].
      apply (proj1 IH eq_refl Hi).
Qed.

Lemma rmatch_seq ci r1 r2 k s :
  rmatch ci (RSeq r1 r2) k s = rmatch ci r1 (fun s' => rmatch ci r2 k s') s.
Proof. reflexivity. Qed.

Lemma rmatch_char c k s :
  rmatch false (RChar c) k s
  = match m_rest s with
    | x :: rest => if x =? c then k (advance1 x rest s) else None
    | [] => None
    end.
Proof. reflexivity. Qed.

Lemma rmatch_quant ci g lo hi r k s :
  rmatch ci (RQuant g lo hi r) k s
  = rep (rmatch ci r) g (lo + length (m_rest s) + 1) lo hi k s.
Proof. reflexivity. Qed.

Lemma locates_tag :
  locates false (seq [lit (str "<"); star notGt; lit (str ">")]) tagLen.
Proof.
  change (seq [lit (str "<"); star notGt; lit (str ">")])
    with (RSeq (RChar 60) (RSeq (star notGt) (RChar 62))).
  split.
  - intros pos prev rest. rewrite rmatch_seq, rmatch_char. cbn [m_rest].
    destruct rest as [|x rest]; [reflexivity |].
    cbn [tagLen]. destruct (x =? 60); [|reflexivity].
    rewrite rmatch_seq. unfold star, notGt. rewrite rmatch_quant.
    rewrite rep_star by (cbn [advance1 m_rest]; lia).
    cbn [advance1 m_rest].
    match goal with
    | |- context [starTry ?a ?b ?k ?r ?s] =>
        pose proof (starTry_gt r s eq_refl) as H;
        change (starTry true (chars ">") (rmatch false (RChar 62) Some) r s)
          with (starTry a b k r s) in H;
        destruct (starTry a b k r s) as [s'|]
    end.
    + destruct H as (n & -> & Hp). exists (n + 2)%nat.
      cbn [advance1 m_pos] in Hp. split; [reflexivity | lia].
    + rewrite H. reflexivity.
  - intros rest n. destruct rest as [|x rest]; [discriminate |].
    cbn [tagLen]. destruct (x =? 60); [|discriminate].
    destruct (untilGt rest) as [k|] eqn:E; [|discriminate].
    intros H. injection H as <-. apply untilGt_bound in E. simpl. lia.
Qed.

Lemma stripTags_rewrite s :
  stripTags s = rewriteWith tagLen (fun _ => []) 0 s.
Proof.
  unfold stripTags.
  apply (replaceAll_rewrite false _ tagLen _ (fun _ => []) locates_tag).
  reflexivity.
Qed.

Lemma rewrite_In c : forall rest k,
  In c (rewriteWith tagLen (fun _ => []) k rest) -> In c rest.
Proof.
  induction rest as [|x rest IH]; intros k H; [exact H |].
  cbn [rewriteWith] in H. destruct k as [|k].
  - destruct (tagLen (x :: rest)).
    + right. eapply IH. exact H.
    + destruct H as [-> | H]; [left; reflexivity | right; eapply IH, H].
  - right. eapply IH, H.
Qed.

Lemma rewrite_tagFree : forall rest k,
  tagFree (rewriteWith tagLen (fun _ => []) k rest).
Proof.
  induction rest as [|x rest IH]; intros k.
  - intros a b E. destruct a; discriminate.
  - cbn [rewriteWith]. destruct k as [|k]; [|apply IH].
    destruct (tagLen (x :: rest)) eqn:Et; [apply IH |].
    intros a b E. destruct a as [|y a].
    + injection E as -> <-. intros Hin. apply rewrite_In in Hin.
      cbn [tagLen] in Et. rewrite N.eqb_refl in Et.
      destruct (untilGt rest) eqn:Eu; [discriminate |].
      apply untilGt_None in Eu. tauto.
    + injection E as _ E. exact (IH 0%nat a b E).
Qed.

Lemma tagFree_fixed s :
  tagFree s -> rewriteWith tagLen (fun _ => []) 0 s = s.
Proof.
  intros H. apply rewrite_id. intros a b E.
  destruct b as [|x b]; [reflexivity |]. cbn [tagLen].
  destruct (N.eqb_spec x 60) as [->|_]; [|reflexivity].
  replace (untilGt b) with (@None nat); [reflexivity |].
  symmetry. apply untilGt_None. exact (H a b E).
Qed.

End Tags.

(** X20.  [stripTags] removes every tag (an opening angle bracket with
    all up to the first closing one): in what it returns no opening
    bracket has a closing one after it; a text that is already so is
    returned as it is, so stripping twice is stripping once; and nothing
    is added. *)
Theorem stripTags_tagFree (text : jsstring) :
  tagFree (stripTags text)
  /\ (tagFree text -> stripTags text = text)
  /\ stripTags (stripTags text) = stripTags text
  /\ (forall c, In c (stripTags text) -> In c text).
Proof.
  assert (Hfree : tagFree (stripTags text))
    by (rewrite stripTags_rewrite; apply rewrite_tagFree).
  assert (Hfix : forall s, tagFree s -> stripTags s = s)
    by (intros s Hs; rewrite stripTags_rewrite; apply tagFree_fixed, Hs).
  split; [exact Hfree | split; [apply Hfix | split; [apply Hfix, Hfree |]]].
  intros c. rewrite stripTags_rewrite. apply rewrite_In.
Qed.

Section DecimalStrings.

Lemma str_cons c s : str (String c s) = N_of_ascii c :: str s.
Proof. reflexivity. Qed.

Lemma uint_digits d :
  Forall (fun x => Js.isDigit x = true) (str (NilEmpty.string_of_uint d)).
Proof.
  induction d; cbn [NilEmpty.string_of_uint]; rewrite ?str_cons;
    constructor; try reflexivity; assumption.
Qed.

Lemma uint_fold d : forall acc : positive,
  fold_left (fun acc c => acc * 10 + (Z.of_N c - 48))%Z
    (str (NilEmpty.string_of_uint d)) (Z.pos acc)
  = Z.pos (Pos.of_uint_acc d acc).
Proof.
  induction d; intros acc;
    cbn [NilEmpty.string_of_uint Pos.of_uint_acc]; rewrite ?str_cons;
    try reflexivity; cbn [fold_left]; rewrite <- IHd;
    apply (f_equal (fold_left _ _));
    match goal with
    | |- context [N_of_ascii ?c] =>
        let v := eval vm_compute in (N_of_ascii c) in
        change (N_of_ascii c) with v
    end; lia.
Qed.

Lemma uint_value d :
  Js.digitsValue (str (NilEmpty.string_of_uint d)) = Z.of_N (Pos.of_uint d).
Proof.
  unfold Js.digitsValue.
  induction d; cbn [NilEmpty.string_of_uint Pos.of_uint]; rewrite ?str_cons;
    try reflexivity; cbn [fold_left];
    match goal with
    | |- fold_left ?f ?l ?a = _ =>
        let v := eval vm_compute in a in change a with v
    end;
    [exact IHd | apply uint_fold ..].
Qed.

(** The decimal form of a natural number: digits that spell it. *)
Lemma numToString_digits n :
  (0 <= n)%Z ->
  Js.numToString n <> []
  /\ Forall (fun x => Js.isDigit x = true) (Js.numToString n)
  /\ Js.digitsValue (Js.numToString n) = n.
Proof.
  intros Hn. unfold Js.numToString. destruct n as [|p|p]; [| |lia].
  - repeat split; [discriminate | repeat constructor].
  - cbn [Z.to_int NilEmpty.string_of_int].
    split; [|split; [apply uint_digits |]].
    + pose proof (DecimalPos.Unsigned.to_uint_nonnil p) as Hnil.
      destruct (Pos.to_uint p); try congruence;
        cbn [NilEmpty.string_of_uint]; rewrite str_cons; discriminate.
    + rewrite uint_value, DecimalPos.Unsigned.of_to. reflexivity.
Qed.

Lemma digit_not_space c : Js.isDigit c = true -> Js.isWhiteSpace c = false.
Proof.
  unfold Js.isDigit, Js.isWhiteSpace. intros H.
  apply andb_prop in H as [H1 H2]. apply N.leb_le in H1, H2.
  rewrite !orb_false_iff, !andb_false_iff, !N.leb_gt, !N.eqb_neq. lia.
Qed.

Lemma digits_trim s :
  Forall (fun x => Js.isDigit x = true) s -> Js.trim s = s.
Proof.
  intros H. unfold Js.trim, Js.trimEnd.
  assert (Hs : forall t, Forall (fun x => Js.isDigit x = true) t ->
                         Js.trimStart t = t).
  { intros t Ht. destruct Ht as [|c t Hc _]; [reflexivity |].
    cbn [Js.trimStart]. rewrite (digit_not_space c Hc). reflexivity. }
  rewrite (Hs s H), (Hs (rev s)); [apply rev_involutive |].
  apply List.Forall_rev, H.
Qed.

Lemma spanDigits_all s :
  Forall (fun x => Js.isDigit x = true) s -> JsNumber.spanDigits s = (s, []).
Proof.
  induction 1 as [|c s Hc _ IH]; [reflexivity |].
  cbn [JsNumber.spanDigits]. rewrite Hc, IH. reflexivity.
Qed.

Lemma digits_nonDecimal s :
  Forall (fun x => Js.isDigit x = true) s -> JsNumber.nonDecimal s = None.
Proof.
  intros H. destruct H as [|c s Hc Hs]; [reflexivity |].
  destruct Hs as [|x s Hx _].
  - unfold JsNumber.nonDecimal. destruct c as [|p]; [reflexivity |].
    do 6 (destruct p; try reflexivity).
  - unfold Js.isDigit in Hx. apply andb_prop in Hx as [H1 H2].
    apply N.leb_le in H1, H2.
    assert (E : (x =? 120) || (x =? 88) = false /\
                (x =? 111) || (x =? 79) = false /\
                (x =? 98) || (x =? 66) = false).
    { rewrite !orb_false_iff, !N.eqb_neq. lia. }
    destruct E as (E1 & E2 & E3).
    unfold JsNumber.nonDecimal. rewrite E1, E2, E3.
    destruct c as [|p]; [reflexivity |].
    do 6 (destruct p; try reflexivity).
Qed.

(** The conversion of the decimal form of a natural number. *)
Lemma ofString_numToString n :
  (0 <= n)%Z ->
  JsNumber.ofString (Js.numToString n) = JsNumber.roundRatio false n 1.
Proof.
  intros Hn. destruct (numToString_digits n Hn) as (Hne & Hd & Hv).
  destruct (Js.numToString n) as [|c s] eqn:E; [congruence |].
  unfold JsNumber.ofString. rewrite (digits_trim _ Hd).
  rewrite (digits_nonDecimal _ Hd).
  pose proof (List.Forall_inv Hd) as Hc. cbv beta in Hc.
  assert (Hsign : c <> 45 /\ c <> 43 /\ c <> 73).
  { unfold Js.isDigit in Hc. apply andb_prop in Hc as [H1 H2].
    apply N.leb_le in H1, H2. lia. }
  assert (Hu : JsNumber.unsignedDecimal false (c :: s)
               = JsNumber.roundRatio false n 1).
  { unfold JsNumber.unsignedDecimal.
    rewrite bool_decide_eq_false_2
      by (change (str "Infinity") with (73 :: str "nfinity"); intros Heq;
          injection Heq; tauto).
    rewrite (spanDigits_all _ Hd). cbn [JsNumber.exponentPart].
    rewrite app_nil_r, Hv. cbn [length Z.of_nat Z.sub].
    unfold JsNumber.ofDecimal. cbn [Z.leb Z.compare Z.pow].
    rewrite Z.mul_1_r. reflexivity. }
  destruct c as [|p]; [exact Hu |].
  do 6 (destruct p; try exact Hu); tauto.
Qed.

End DecimalStrings.

Section SmallIntegers.

(** An integer below [2^53] is a Number: it is converted exactly. *)
Lemma roundRatio_exact v :
  (0 < v < 2 ^ 53)%Z ->
  exists m e,
    JsNumber.roundRatio false v 1 = JsNumber.Fin false m e
    /\ (e <= 0)%Z /\ Z.of_N m = (v * 2 ^ (- e))%Z.
Proof.
  intros Hv. unfold JsNumber.roundRatio.
  replace (v =? 0)%Z with false by (symmetry; apply Z.eqb_neq; lia).
  change (Z.log2 1) with 0%Z. rewrite Z.sub_0_r.
  pose proof (Z.log2_spec v ltac:(lia)) as [Hlo Hhi].
  assert (Hl : (0 <= Z.log2 v <= 52)%Z).
  { split; [apply Z.log2_nonneg |].
    assert (Z.log2 v < 53)%Z by (apply Z.log2_lt_pow2; lia). lia. }
  set (e1 := (Z.log2 v - 52)%Z).
  assert (Hscaled : (2 ^ 52 <= v * 2 ^ (- e1))%Z).
  { replace (2 ^ 52)%Z with (2 ^ Z.log2 v * 2 ^ (- e1))%Z
      by (rewrite <- Z.pow_add_r by lia; f_equal; lia).
    apply Z.mul_le_mono_nonneg_r; [apply Z.pow_nonneg; lia | exact Hlo]. }
  destruct (Z.eq_dec e1 0%Z) as [E0 | En].
  - rewrite E0 in *.
    change (- 0)%Z with 0%Z in *. change (2 ^ 0)%Z with 1%Z in *.
    rewrite Z.mul_1_r in Hscaled.
    change (0 <=? 0)%Z with true. cbv iota.
    change (1 * 1)%Z with 1%Z. rewrite Z.div_1_r.
    replace (v <? 2 ^ 52)%Z with false by (symmetry; apply Z.ltb_ge; lia).
    change (Z.max 0 (-1074)) with 0%Z. change (0 <=? 0)%Z with true.
    change (2 ^ 0)%Z with 1%Z. cbv iota.
    change (1 * 1)%Z with 1%Z. rewrite Z.div_1_r, Z.mod_1_r.
    change (1 <? 2 * 0)%Z with false. change (2 * 0 =? 1)%Z with false.
    cbn [orb andb]. rewrite Z.mul_1_r.
    replace (2 ^ 1024 <=? v)%Z with false.
    + exists (Z.to_N v), 0%Z. split; [reflexivity | split; [lia |]].
      rewrite Z2N.id by lia. change (- 0)%Z with 0%Z.
      change (2 ^ 0)%Z with 1%Z. lia.
    + symmetry. apply Z.leb_gt.
      assert (2 ^ 53 < 2 ^ 1024)%Z by (apply Z.pow_lt_mono_r; lia). lia.
  - assert (Hneg : (e1 < 0)%Z) by (unfold e1; lia).
    replace (0 <=? e1)%Z with false by (symmetry; apply Z.leb_gt; lia).
    cbv iota. rewrite Z.div_1_r.
    replace (v * 2 ^ (- e1) <? 2 ^ 52)%Z with false
      by (symmetry; apply Z.ltb_ge; exact Hscaled).
    replace (Z.max e1 (-1074)) with e1 by (unfold e1; lia).
    replace (0 <=? e1)%Z with false by (symmetry; apply Z.leb_gt; lia).
    cbv iota. rewrite Z.div_1_r, Z.mod_1_r.
    change (1 <? 2 * 0)%Z with false. change (2 * 0 =? 1)%Z with false.
    cbn [orb andb].
    exists (Z.to_N (v * 2 ^ (- e1))), e1.
    split; [reflexivity | split; [lia |]].
    rewrite Z2N.id; [reflexivity |].
    apply Z.mul_nonneg_nonneg; [lia | apply Z.pow_nonneg; lia].
Qed.

Lemma exact_integer v m e :
  (0 < v)%Z -> (e <= 0)%Z -> Z.of_N m = (v * 2 ^ (- e))%Z ->
  JsNumber.isInteger (JsNumber.Fin false m e) = true
  /\ JsNumber.gt0 (JsNumber.Fin false m e) = true
  /\ JsNumber.le0 (JsNumber.Fin false m e) = false
  /\ JsNumber.lt0 (JsNumber.Fin false m e) = false
  /\ JsNumber.floor (JsNumber.Fin false m e) = v.
Proof.
  intros Hv He Hm.
  assert (Hp : (0 < 2 ^ (- e))%Z) by (apply Z.pow_pos_nonneg; lia).
  assert (Hm0 : m <> 0%N) by (intros ->; simpl in Hm; nia).
  cbn [JsNumber.isInteger JsNumber.gt0 JsNumber.le0 JsNumber.lt0
       JsNumber.floor negb andb orb].
  replace (m =? 0) with false by (symmetry; apply N.eqb_neq; exact Hm0).
  rewrite Hm, Z.mod_mul by lia. rewrite Z.eqb_refl, orb_true_r.
  repeat split.
  destruct (Z.leb_spec 0 e) as [H0 | H0].
  - assert (e = 0)%Z by lia. subst e. simpl. lia.
  - apply Z.div_mul. lia.
Qed.

End SmallIntegers.

Section CsvInts.

Lemma split_join_unit sep l :
  Forall (fun s => ~ In sep s) l -> l <> [] ->
  Js.split sep (Js.join [sep] l) = l.
Proof.
  induction 1 as [|p ps Hp Hps IH]; intros Hne; [congruence |].
  destruct ps as [|q ps].
  - simpl. apply split_no_sep, Hp.
  - change (Js.join [sep] (p :: q :: ps))
      with (p ++ sep :: Js.join [sep] (q :: ps)).
    rewrite split_app_sep, (split_no_sep sep p Hp), IH by discriminate.
    reflexivity.
Qed.

Lemma digit_not_comma s :
  Forall (fun x => Js.isDigit x = true) s -> ~ In 44 s.
Proof.
  intros H Hin. rewrite List.Forall_forall in H. specialize (H 44 Hin).
  discriminate.
Qed.

Lemma ofString_small n :
  (1 <= n < 2 ^ 53)%Z ->
  let x := JsNumber.ofString (Js.numToString n) in
  JsNumber.isFinite x = true
  /\ JsNumber.isInteger x = true /\ JsNumber.gt0 x = true
  /\ JsNumber.le0 x = false /\ JsNumber.lt0 x = false
  /\ JsNumber.floor x = n.
Proof.
  intros Hn. cbn zeta. rewrite ofString_numToString by lia.
  destruct (roundRatio_exact n ltac:(lia)) as (m & e & -> & He & Hm).
  split; [reflexivity |]. apply exact_integer; [lia | exact He | exact Hm].
Qed.

Lemma csv_entries ids :
  Forall (fun n => 1 <= n < 2 ^ 53)%Z ids ->
  map JsNumber.floor
    (List.filter (fun n => JsNumber.isInteger n && JsNumber.gt0 n)
       (map JsNumber.ofString
          (List.filter Js.truthyStr
             (map Js.trim (map Js.numToString ids)))))
  = ids.
Proof.
  induction 1 as [|n ids Hn _ IH]; [reflexivity |].
  cbn [map]. destruct (numToString_digits n ltac:(lia)) as (Hne & Hd & _).
  rewrite (digits_trim _ Hd). cbn [List.filter].
  destruct (Js.numToString n) as [|c s] eqn:E; [congruence |].
  cbn [Js.truthyStr map List.filter]. rewrite <- E.
  destruct (ofString_small n Hn) as (_ & Hi & Hg & _ & _ & Hf).
  rewrite Hi, Hg. cbn [andb map]. rewrite Hf, IH. reflexivity.
Qed.

Lemma gt0_integer_floor x :
  JsNumber.isInteger x = true -> JsNumber.gt0 x = true ->
  (1 <= JsNumber.floor x)%Z.
Proof.
  destruct x as [|negative|negative m e]; try discriminate.
  cbn [JsNumber.isInteger JsNumber.gt0 JsNumber.floor].
  intros Hi Hg. apply andb_prop in Hg as [Hn Hm].
  destruct negative; [discriminate |].
  apply negb_true_iff, N.eqb_neq in Hm.
  assert (Hpos : (0 < Z.of_N m)%Z) by lia.
  destruct (Z.leb_spec 0 e) as [He | He].
  - assert (0 < 2 ^ e)%Z by (apply Z.pow_pos_nonneg; lia). nia.
  - cbn [orb] in Hi. apply Z.eqb_eq in Hi.
    assert (Hp : (0 < 2 ^ (- e))%Z) by (apply Z.pow_pos_nonneg; lia).
    pose proof (Z.div_mod (Z.of_N m) (2 ^ (- e)) ltac:(lia)) as Hdm.
    rewrite Hi in Hdm. nia.
Qed.

End CsvInts.

(** X21.  PLAN_IDS written as positive integers below 2^53 in decimal,
    separated by commas, is read back as those integers, in order. *)
Theorem parseCsvInts_round_trip (ids : list Z) :
  Forall (fun n => 1 <= n < 2 ^ 53)%Z ids ->
  parseCsvInts (Js.join (str ",") (map Js.numToString ids)) = ids.
Proof.
  intros H. unfold parseCsvInts. change (str ",") with [44].
  destruct ids as [|n ids]; [reflexivity |].
  rewrite split_join_unit; [apply csv_entries, H | | discriminate].
  apply List.Forall_forall. intros s Hs.
  apply in_map_iff in Hs as (k & <- & Hk).
  rewrite List.Forall_forall in H. specialize (H k Hk).
  apply digit_not_comma. apply numToString_digits. lia.
Qed.

Lemma parseCsvInts_round_trip_witness :
  parseCsvInts (str "20,34") = [20%Z; 34%Z].
Proof.
  apply (parseCsvInts_round_trip [20%Z; 34%Z]).
  repeat constructor; lia.
Defined.

(** X22.  Whatever PLAN_IDS holds, parseCsvInts returns positive integers
    only: an entry that is empty, not a number, not an integer, zero or
    negative is left out. *)
Theorem parseCsvInts_positive (raw : jsstring) :
  Forall (fun n => 1 <= n)%Z (parseCsvInts raw)
  /\ parseCsvInts (str "12, abc, -3, 0, 4.5, ,7") = [12%Z; 7%Z].
Proof.
  split; [|vm_compute; reflexivity].
  unfold parseCsvInts. apply List.Forall_forall. intros n Hn.
  apply in_map_iff in Hn as (x & <- & Hx).
  apply filter_In in Hx as [_ Hx]. apply andb_prop in Hx as [Hi Hg].
  apply gt0_integer_floor; assumption.
Qed.

Lemma floor_nonneg m e : (0 <= JsNumber.floor (JsNumber.Fin false m e))%Z.
Proof.
  cbn [JsNumber.floor]. destruct (Z.leb_spec 0 e) as [He | He].
  - apply Z.mul_nonneg_nonneg; [lia | apply Z.pow_nonneg; lia].
  - apply Z.div_pos; [lia | apply Z.pow_pos_nonneg; lia].
Qed.

(** X23.  [toPositiveInt] returns the fallback or an integer that is
    not negative, but not always a positive one: the value 0.5 gives 0.
    A missing or empty value gives the fallback, and a positive integer
    below 2^53 written in decimal is read as itself. *)
Theorem toPositiveInt_result (value : option jsstring) (fallback : Z) :
  (toPositiveInt value fallback = fallback
   \/ (0 <= toPositiveInt value fallback)%Z)
  /\ toPositiveInt None fallback = fallback
  /\ toPositiveInt (Some []) fallback = fallback
  /\ toPositiveInt (Some (str "0.5")) fallback = 0%Z
  /\ (forall n, (1 <= n < 2 ^ 53)%Z ->
        toPositiveInt (Some (Js.numToString n)) fallback = n).
Proof.
  split; [|split; [reflexivity | split; [reflexivity | split;
    [vm_compute; reflexivity |]]]].
  - unfold toPositiveInt. cbv zeta.
    destruct (Number value) as [|negative|negative m e];
      try (left; reflexivity).
    cbn [JsNumber.isFinite negb orb JsNumber.le0].
    destruct negative; [left; reflexivity |].
    destruct (m =? 0); [left; reflexivity |]. right.
    cbn [orb]. apply floor_nonneg.
  - intros n Hn. unfold toPositiveInt, Number. cbv zeta.
    destruct (ofString_small n Hn) as (Hfin & _ & _ & Hle & _ & Hf).
    rewrite Hfin, Hle. exact Hf.
Qed.

(** X24.  [toNonNegativeInt] returns the fallback or an integer that is
    not negative.  A missing value gives the fallback; the empty string
    is the number zero, so it gives 0 and not the fallback; a natural
    number below 2^53 written in decimal is read as itself. *)
Theorem toNonNegativeInt_result (value : option jsstring) (fallback : Z) :
  (toNonNegativeInt value fallback = fallback
   \/ (0 <= toNonNegativeInt value fallback)%Z)
  /\ toNonNegativeInt None fallback = fallback
  /\ toNonNegativeInt (Some []) fallback = 0%Z
  /\ (forall n, (0 <= n < 2 ^ 53)%Z ->
        toNonNegativeInt (Some (Js.numToString n)) fallback = n).
Proof.
  split; [|split; [reflexivity | split; [reflexivity |]]].
  - unfold toNonNegativeInt. cbv zeta.
    destruct (Number value) as [|negative|negative m e];
      try (left; reflexivity).
    cbn [JsNumber.isFinite negb orb JsNumber.lt0].
    destruct negative; cbn [andb].
    + destruct (N.eqb_spec m 0) as [-> | Hm]; cbn [negb];
        [|left; reflexivity].
      right. cbn [JsNumber.floor Z.of_N Z.opp].
      destruct (0 <=? e)%Z; [rewrite Z.mul_0_l | rewrite Zdiv_0_l]; lia.
    + right. apply floor_nonneg.
  - intros n Hn. destruct (Z.eq_dec n 0%Z) as [-> | Hn0];
      [reflexivity |].
    unfold toNonNegativeInt, Number. cbv zeta.
    destruct (ofString_small n ltac:(lia)) as (Hfin & _ & _ & _ & Hlt & Hf).
    rewrite Hfin, Hlt. exact Hf.
Qed.

Section TargetPlans.
Import PlanSpec.

Lemma keepFirst_NoDup plans : forall before,
  List.NoDup plans -> (forall p, In p plans -> ~ In p before) ->
  keepFirst before plans = plans.
Proof.
  induction plans as [|p rest IH]; intros before Hn Hb; [reflexivity |].
  inversion Hn as [|? ? Hp Hrest]; subst. cbn [keepFirst].
  rewrite bool_decide_eq_false_2
    by (rewrite list_elem_of_In; apply Hb; left; reflexivity).
  f_equal. apply IH; [exact Hrest |].
  intros q Hq [<- | Hin]; [tauto |].
  apply (Hb q); [right; exact Hq | exact Hin].
Qed.

Lemma dedupePlans_fixed plans :
  List.NoDup plans -> dedupePlans plans = plans.
Proof.
  intros H. rewrite dedupePlans_keepFirst.
  apply keepFirst_NoDup; [exact H | intros p _ []].
Qed.

Lemma parsePlans_NoDup html : List.NoDup (parsePlans html).
Proof.
  unfold parsePlans. rewrite dedupePlans_keepFirst.
  apply (keepFirst_spec (parsedPlans html) []).
Qed.

End TargetPlans.

(** X25.  Removing duplicate plans a second time changes nothing: the second
    de-duplication in checkOnce, of the plans parsePlans returned, is the
    identity. *)
Theorem dedupePlans_idempotent (plans : list Plan) (html : jsstring) :
  dedupePlans (dedupePlans plans) = dedupePlans plans
  /\ dedupePlans (parsePlans html) = parsePlans html.
Proof.
  split.
  - apply dedupePlans_fixed. rewrite dedupePlans_keepFirst.
    apply (keepFirst_spec plans []).
  - apply dedupePlans_fixed, parsePlans_NoDup.
Qed.

(** X26.  The plans a cycle checks.  With PLAN_IDS set the seed calendar plays
    no part; without, the plans of the seed calendar are checked if it
    shows any, else those of the category page.  The cycle stops on
    [No plans detected] (an empty list) exactly when PLAN_IDS is not set,
    neither page shows a plan and the selected plan of the category page
    is not a positive integer. *)
Theorem targetPlans_cases (planIds : list Z)
  (visaContextHtml seedHtml : jsstring) :
  (planIds <> [] ->
   targetPlans planIds visaContextHtml seedHtml
   = selectTargetPlans planIds (pagePlans visaContextHtml))
  /\ (planIds = [] ->
      targetPlans planIds visaContextHtml seedHtml
      = match parsePlans seedHtml with
        | [] => pagePlans visaContextHtml
        | plans => plans
        end)
  /\ (targetPlans planIds visaContextHtml seedHtml = []
      <-> planIds = [] /\ parsePlans seedHtml = []
          /\ parsePlans visaContextHtml = []
          /\ (let n := JsNumber.ofString
                         (parseSelectedValue visaContextHtml (str "plan")) in
              JsNumber.isInteger n && JsNumber.gt0 n = false)).
Proof.
  assert (Hseed : planIds = [] ->
            targetPlans planIds visaContextHtml seedHtml
            = match parsePlans seedHtml with
              | [] => pagePlans visaContextHtml
              | plans => plans
              end).
  { intros ->. unfold targetPlans. cbn [length Nat.eqb]. cbv zeta.
    pose proof (dedupePlans_fixed _ (parsePlans_NoDup seedHtml)) as Hd.
    destruct (parsePlans seedHtml) as [|p ps];
      cbn [length Nat.ltb Nat.leb]; unfold selectTargetPlans;
      cbn [length Nat.ltb Nat.leb]; [reflexivity | exact Hd]. }
  assert (Hset : planIds <> [] ->
            targetPlans planIds visaContextHtml seedHtml
            = selectTargetPlans planIds (pagePlans visaContextHtml)).
  { intros Hne. unfold targetPlans.
    destruct planIds; [congruence | reflexivity]. }
  split; [exact Hset | split; [exact Hseed |]].
  assert (Hpage : pagePlans visaContextHtml = []
            <-> parsePlans visaContextHtml = []
                /\ JsNumber.isInteger
                     (JsNumber.ofString
                        (parseSelectedValue visaContextHtml (str "plan")))
                   && JsNumber.gt0
                        (JsNumber.ofString
                           (parseSelectedValue visaContextHtml (str "plan")))
                   = false).
  { unfold pagePlans, Number. cbv zeta.
    destruct (parsePlans visaContextHtml) as [|p ps];
      cbn [length Nat.eqb andb].
    - destruct (JsNumber.isInteger _ && JsNumber.gt0 _); cbn [app].
      + split; [discriminate | intros [_ H]; discriminate].
      + tauto.
    - split; [discriminate | intros [H _]; discriminate]. }
  cbv zeta. destruct planIds as [|i ids].
  - rewrite Hseed by reflexivity.
    destruct (parsePlans seedHtml) as [|p ps].
    + rewrite Hpage. tauto.
    + split; [discriminate | intros (_ & H & _); discriminate].
  - rewrite Hset by discriminate.
    split; [|intros (H & _); discriminate].
    intros H. exfalso.
    unfold selectTargetPlans in H. cbn [length Nat.ltb Nat.leb] in H.
    destruct (List.filter _ (pagePlans visaContextHtml)); discriminate.
Qed.

Module JsTimeFacts.
Import JsTime.
Local Open Scope Z_scope.

Lemma holdsFrom_spec f n : forall z,
  holdsFrom f n z = true ->
  forall k, z <= k < z + Z.of_nat n -> f k = true.
Proof.
  induction n as [|n IH]; intros z H k Hk; [lia |].
  cbn [holdsFrom] in H. apply andb_prop in H as [H0 H1].
  destruct (Z.eq_dec k z) as [-> | Hne]; [exact H0 |].
  apply (IH (z + 1) H1). lia.
Qed.

Lemma DayFromYear_period y n :
  DayFromYear (y + 400 * n) = DayFromYear y + 146097 * n.
Proof.
  unfold DayFromYear.
  replace (y + 400 * n - 1969) with (y - 1969 + (100 * n) * 4) by lia.
  replace (y + 400 * n - 1901) with (y - 1901 + (4 * n) * 100) by lia.
  replace (y + 400 * n - 1601) with (y - 1601 + n * 400) by lia.
  rewrite !Z.div_add by lia. lia.
Qed.

Lemma DaysInYear_period y n : DaysInYear (y + 400 * n) = DaysInYear y.
Proof.
  unfold DaysInYear.
  replace (y + 400 * n) with (y + (100 * n) * 4) at 1 by lia.
  replace (y + 400 * n) with (y + (4 * n) * 100) at 1 by lia.
  replace (y + 400 * n) with (y + n * 400) at 1 by lia.
  rewrite !Z.mod_add by lia. reflexivity.
Qed.

(** The 400 years from 2000 on, checked one by one: a year begins
    [DaysInYear] days after the one before. *)
Lemma cycle_years :
  holdsFrom
    (fun y => DayFromYear (y + 1) - DayFromYear y =? DaysInYear y)
    400 2000 = true.
Proof. vm_compute. reflexivity. Qed.

Lemma DayFromYear_succ y :
  DayFromYear (y + 1) = DayFromYear y + DaysInYear y.
Proof.
  pose proof (Z.div_mod (y - 2000) 400 ltac:(lia)) as E.
  pose proof (Z.mod_pos_bound (y - 2000) 400 ltac:(lia)) as B.
  set (k := (y - 2000) mod 400) in *. set (n := (y - 2000) / 400) in *.
  replace y with (2000 + k + 400 * n) by lia.
  replace (2000 + k + 400 * n + 1) with (2000 + k + 1 + 400 * n) by lia.
  rewrite !DayFromYear_period, DaysInYear_period.
  pose proof (holdsFrom_spec _ _ _ cycle_years (2000 + k) ltac:(lia)) as H.
  cbv beta in H. apply Z.eqb_eq in H. lia.
Qed.

Lemma DaysInYear_range y : DaysInYear y = 365 \/ DaysInYear y = 366.
Proof.
  unfold DaysInYear.
  destruct (y mod 4 =? 0), (y mod 100 =? 0), (y mod 400 =? 0); auto.
Qed.

Lemma DayFromYear_mono y y' : y <= y' -> DayFromYear y <= DayFromYear y'.
Proof.
  intros H. replace y' with (y + Z.of_nat (Z.to_nat (y' - y))) by lia.
  induction (Z.to_nat (y' - y)) as [|n IH]; [rewrite Z.add_0_r; lia |].
  rewrite Nat2Z.inj_succ.
  replace (y + Z.succ (Z.of_nat n)) with (y + Z.of_nat n + 1) by lia.
  rewrite DayFromYear_succ.
  destruct (DaysInYear_range (y + Z.of_nat n)); lia.
Qed.

(** The years after 2000 begin between 365 and 366 days apart. *)
Lemma DayFromYear_bounds n :
  365 * Z.of_nat n <= DayFromYear (2000 + Z.of_nat n) - 10957
  <= 366 * Z.of_nat n.
Proof.
  induction n as [|n IH]; [vm_compute; split; discriminate |].
  rewrite Nat2Z.inj_succ.
  replace (2000 + Z.succ (Z.of_nat n)) with (2000 + Z.of_nat n + 1) by lia.
  rewrite DayFromYear_succ.
  destruct (DaysInYear_range (2000 + Z.of_nat n)); lia.
Qed.

(** A day of the first [n] years after 2000 lies in one of them. *)
Lemma year_exists n : forall r,
  0 <= r < DayFromYear (2000 + Z.of_nat n) - 10957 ->
  exists j, 0 <= j < Z.of_nat n
            /\ DayFromYear (2000 + j) - 10957 <= r
               < DayFromYear (2000 + j + 1) - 10957.
Proof.
  induction n as [|n IH]; intros r Hr.
  - assert (E0 : DayFromYear (2000 + Z.of_nat 0) - 10957 = 0)
      by (vm_compute; reflexivity).
    rewrite E0 in Hr. lia.
  - rewrite Nat2Z.inj_succ in *.
    replace (2000 + Z.succ (Z.of_nat n)) with (2000 + Z.of_nat n + 1) in Hr
      by lia.
    destruct (Z_lt_le_dec r (DayFromYear (2000 + Z.of_nat n) - 10957))
      as [Hlt | Hge].
    + destruct (IH r ltac:(lia)) as (j & Hj & Hin).
      exists j. split; [lia | exact Hin].
    + exists (Z.of_nat n). split; lia.
Qed.

(** The days of the cycle: each lies in the year that [YearFromDay]
    finds from the quotient by 366. *)
Lemma cycle_days r :
  0 <= r < 146097 ->
  let k0 := r / 366 in
  let k :=
    if DayFromYear (2000 + k0 + 2) - 10957 <=? r then k0 + 2
    else if DayFromYear (2000 + k0 + 1) - 10957 <=? r then k0 + 1
    else k0 in
  DayFromYear (2000 + k) - 10957 <= r < DayFromYear (2000 + k + 1) - 10957.
Proof.
  intros Hr.
  assert (H400 : DayFromYear (2000 + Z.of_nat 400) - 10957 = 146097)
    by (vm_compute; reflexivity).
  destruct (year_exists 400 r ltac:(lia)) as (j & Hj & Hin).
  assert (Hj' : 0 <= j < 400) by lia. clear Hj H400.
  pose proof (DayFromYear_bounds (Z.to_nat j)) as Hlo.
  pose proof (DayFromYear_bounds (Z.to_nat (j + 1))) as Hhi.
  rewrite !Z2Nat.id in Hlo, Hhi by lia.
  replace (2000 + (j + 1)) with (2000 + j + 1) in Hhi by lia.
  pose proof (DayFromYear_succ (2000 + j + 1)) as Hnext.
  pose proof (DaysInYear_range (2000 + j + 1)) as Hdays.
  assert (Hq : j - 2 <= r / 366 <= j).
  { split.
    - apply Z.div_le_lower_bound; lia.
    - assert (r / 366 < j + 1) by (apply Z.div_lt_upper_bound; lia). lia. }
  intros k0 k. subst k k0.
  assert (Hc : r / 366 = j - 2 \/ r / 366 = j - 1 \/ r / 366 = j) by lia.
  destruct Hc as [-> | [-> | ->]].
  - replace (2000 + (j - 2) + 2) with (2000 + j) by lia.
    destruct (Z.leb_spec (DayFromYear (2000 + j) - 10957) r); [|lia].
    replace (2000 + (j - 2 + 2)) with (2000 + j) by lia. exact Hin.
  - replace (2000 + (j - 1) + 2) with (2000 + j + 1) by lia.
    replace (2000 + (j - 1) + 1) with (2000 + j) by lia.
    destruct (Z.leb_spec (DayFromYear (2000 + j + 1) - 10957) r); [lia |].
    destruct (Z.leb_spec (DayFromYear (2000 + j) - 10957) r); [|lia].
    replace (2000 + (j - 1 + 1)) with (2000 + j) by lia. exact Hin.
  - replace (2000 + j + 2) with (2000 + j + 1 + 1) by lia.
    destruct (Z.leb_spec (DayFromYear (2000 + j + 1 + 1) - 10957) r); [lia |].
    destruct (Z.leb_spec (DayFromYear (2000 + j + 1) - 10957) r); [lia |].
    exact Hin.
Qed.

(** [YearFromDay] is the year of the specification: the year that the
    day lies in, which is the largest one that begins on or before
    it. *)
Lemma YearFromDay_spec day :
  DayFromYear (YearFromDay day) <= day < DayFromYear (YearFromDay day + 1).
Proof.
  unfold YearFromDay. cbv zeta.
  pose proof (Z.div_mod (day - 10957) 146097 ltac:(lia)) as E.
  pose proof (Z.mod_pos_bound (day - 10957) 146097 ltac:(lia)) as B.
  set (r := (day - 10957) mod 146097) in *.
  set (n := (day - 10957) / 146097) in *.
  pose proof (cycle_days r B) as H. cbv zeta in H.
  set (k := if DayFromYear (2000 + r / 366 + 2) - 10957 <=? r
            then r / 366 + 2
            else if DayFromYear (2000 + r / 366 + 1) - 10957 <=? r
                 then r / 366 + 1 else r / 366) in *.
  replace (2000 + 400 * n + k) with (2000 + k + 400 * n) by lia.
  replace (2000 + k + 400 * n + 1) with (2000 + k + 1 + 400 * n) by lia.
  rewrite !DayFromYear_period. lia.
Qed.

Lemma YearFromDay_unique day y :
  DayFromYear y <= day < DayFromYear (y + 1) -> YearFromDay day = y.
Proof.
  intros H. pose proof (YearFromDay_spec day) as S.
  destruct (Z.lt_trichotomy (YearFromDay day) y) as [Hlt | [E | Hgt]];
    [|exact E |].
  - pose proof (DayFromYear_mono (YearFromDay day + 1) y ltac:(lia)). lia.
  - pose proof (DayFromYear_mono (y + 1) (YearFromDay day) ltac:(lia)). lia.
Qed.

End JsTimeFacts.

Module CivilFacts.
Import JsTime JsTimeFacts.
Local Open Scope Z_scope.

Lemma InLeapYear_range y : InLeapYear y = 0 \/ InLeapYear y = 1.
Proof. unfold InLeapYear. destruct (DaysInYear_range y); lia. Qed.

Lemma monthStart_table y :
  monthStart y 0 = 0 /\ monthStart y 1 = 31
  /\ monthStart y 2 = 59 + InLeapYear y
  /\ monthStart y 3 = 90 + InLeapYear y
  /\ monthStart y 4 = 120 + InLeapYear y
  /\ monthStart y 5 = 151 + InLeapYear y
  /\ monthStart y 6 = 181 + InLeapYear y
  /\ monthStart y 7 = 212 + InLeapYear y
  /\ monthStart y 8 = 243 + InLeapYear y
  /\ monthStart y 9 = 273 + InLeapYear y
  /\ monthStart y 10 = 304 + InLeapYear y
  /\ monthStart y 11 = 334 + InLeapYear y
  /\ monthStart y 12 = 365 + InLeapYear y.
Proof. repeat split; reflexivity. Qed.

Ltac month_cases mn :=
  let H := fresh in
  assert (H : mn = 0 \/ mn = 1 \/ mn = 2 \/ mn = 3 \/ mn = 4 \/ mn = 5
              \/ mn = 6 \/ mn = 7 \/ mn = 8 \/ mn = 9 \/ mn = 10 \/ mn = 11)
    by lia;
  repeat (destruct H as [H | H]); subst mn;
  change (0 + 1) with 1 in *; change (1 + 1) with 2 in *;
  change (2 + 1) with 3 in *; change (3 + 1) with 4 in *;
  change (4 + 1) with 5 in *; change (5 + 1) with 6 in *;
  change (6 + 1) with 7 in *; change (7 + 1) with 8 in *;
  change (8 + 1) with 9 in *; change (9 + 1) with 10 in *;
  change (10 + 1) with 11 in *; change (11 + 1) with 12 in *.

Ltac month_table y :=
  let M := fresh in
  pose proof (monthStart_table y) as M;
  destruct M as (? & ? & ? & ? & ? & ? & ? & ? & ? & ? & ? & ? & ?);
  repeat match goal with
         | E : monthStart y _ = _ |- _ => rewrite !E in *; clear E
         end.

Lemma daysInMonth_range y mn :
  0 <= mn <= 11 -> 28 <= daysInMonth y mn <= 31.
Proof.
  intros H. unfold daysInMonth.
  pose proof (InLeapYear_range y) as Hl.
  pose proof (monthStart_table y)
    as (? & ? & ? & ? & ? & ? & ? & ? & ? & ? & ? & ? & ?).
  month_cases mn; lia.
Qed.

Lemma december y : daysInMonth y 11 = 31.
Proof.
  unfold daysInMonth. change (11 + 1) with 12.
  pose proof (monthStart_table y)
    as (? & ? & ? & ? & ? & ? & ? & ? & ? & ? & ? & ? & ?).
  lia.
Qed.

Lemma monthStart_range y mn :
  0 <= mn <= 11 ->
  0 <= monthStart y mn /\ monthStart y mn + daysInMonth y mn <= DaysInYear y.
Proof.
  intros H. unfold daysInMonth.
  pose proof (InLeapYear_range y) as Hl.
  assert (E : DaysInYear y = 365 + InLeapYear y)
    by (unfold InLeapYear; lia).
  pose proof (monthStart_table y)
    as (? & ? & ? & ? & ? & ? & ? & ? & ? & ? & ? & ? & ?).
  month_cases mn; lia.
Qed.

Lemma month_of_day y w :
  0 <= w < 365 + InLeapYear y ->
  let m :=
    if w <? monthStart y 1 then 0
    else if w <? monthStart y 2 then 1
    else if w <? monthStart y 3 then 2
    else if w <? monthStart y 4 then 3
    else if w <? monthStart y 5 then 4
    else if w <? monthStart y 6 then 5
    else if w <? monthStart y 7 then 6
    else if w <? monthStart y 8 then 7
    else if w <? monthStart y 9 then 8
    else if w <? monthStart y 10 then 9
    else if w <? monthStart y 11 then 10
    else 11 in
  0 <= m <= 11 /\ monthStart y m <= w < monthStart y (m + 1).
Proof.
  intros Hw.
  pose proof (InLeapYear_range y) as Hl.
  pose proof (monthStart_table y)
    as (M0 & M1 & M2 & M3 & M4 & M5 & M6 & M7 & M8 & M9 & M10 & M11 & M12).
  cbv zeta.
  repeat match goal with
         | |- context [w <? ?b] => destruct (Z.ltb_spec w b)
         end;
    (split; [lia |]);
    change (0 + 1) with 1; change (1 + 1) with 2;
    change (2 + 1) with 3; change (3 + 1) with 4;
    change (4 + 1) with 5; change (5 + 1) with 6;
    change (6 + 1) with 7; change (7 + 1) with 8;
    change (8 + 1) with 9; change (9 + 1) with 10;
    change (10 + 1) with 11; change (11 + 1) with 12; lia.
Qed.

Lemma month_unique y w m :
  0 <= m <= 11 -> monthStart y m <= w < monthStart y (m + 1) ->
  (if w <? monthStart y 1 then 0
   else if w <? monthStart y 2 then 1
   else if w <? monthStart y 3 then 2
   else if w <? monthStart y 4 then 3
   else if w <? monthStart y 5 then 4
   else if w <? monthStart y 6 then 5
   else if w <? monthStart y 7 then 6
   else if w <? monthStart y 8 then 7
   else if w <? monthStart y 9 then 8
   else if w <? monthStart y 10 then 9
   else if w <? monthStart y 11 then 10
   else 11) = m.
Proof.
  intros Hm Hw.
  pose proof (InLeapYear_range y) as Hl.
  pose proof (monthStart_table y)
    as (M0 & M1 & M2 & M3 & M4 & M5 & M6 & M7 & M8 & M9 & M10 & M11 & M12).
  month_cases m;
    repeat match goal with
           | |- context [w <? ?b] => destruct (Z.ltb_spec w b); try lia
           end.
Qed.

(** The day [dt] of month [mn] of year [y] is read back as such. *)
Lemma civil_of_day y mn dt t :
  0 <= mn <= 11 -> 1 <= dt <= daysInMonth y mn ->
  Day t = DayFromYear y + monthStart y mn + dt - 1 ->
  YearFromTime t = y /\ MonthFromTime t = mn /\ DateFromTime t = dt.
Proof.
  intros Hmn Hdt Hday.
  pose proof (monthStart_range y mn Hmn) as [Hs0 Hs1].
  assert (Hy : YearFromTime t = y).
  { unfold YearFromTime. apply YearFromDay_unique.
    rewrite DayFromYear_succ, Hday. lia. }
  assert (Hw : DayWithinYear t = monthStart y mn + dt - 1)
    by (unfold DayWithinYear; rewrite Hy, Hday; lia).
  assert (Hm : MonthFromTime t = mn).
  { unfold MonthFromTime. cbv zeta. rewrite Hy, Hw.
    apply month_unique; [exact Hmn |]. unfold daysInMonth in Hdt. lia. }
  split; [exact Hy | split; [exact Hm |]].
  unfold DateFromTime. rewrite Hy, Hm, Hw. lia.
Qed.

Lemma DayWithinYear_range t :
  0 <= DayWithinYear t < DaysInYear (YearFromTime t).
Proof.
  unfold DayWithinYear, YearFromTime.
  pose proof (YearFromDay_spec (Day t)) as H.
  rewrite DayFromYear_succ in H. lia.
Qed.

(** The fields of a time value: a month from 0 to 11 and a day of that
    month. *)
Lemma date_fields t :
  0 <= MonthFromTime t <= 11
  /\ 1 <= DateFromTime t <= daysInMonth (YearFromTime t) (MonthFromTime t)
  /\ Day t = DayFromYear (YearFromTime t)
             + monthStart (YearFromTime t) (MonthFromTime t)
             + DateFromTime t - 1.
Proof.
  pose proof (DayWithinYear_range t) as Hw.
  assert (E : DaysInYear (YearFromTime t) = 365 + InLeapYear (YearFromTime t))
    by (unfold InLeapYear; lia).
  rewrite E in Hw.
  pose proof (month_of_day (YearFromTime t) (DayWithinYear t) Hw) as Hm.
  cbv zeta in Hm. fold (MonthFromTime t) in Hm.
  destruct Hm as [Hm Hs].
  unfold DateFromTime, daysInMonth.
  assert (Hd : Day t = DayFromYear (YearFromTime t) + DayWithinYear t)
    by (unfold DayWithinYear; lia).
  lia.
Qed.

Lemma Day_MakeDate day time :
  0 <= time < msPerDay -> Day (MakeDate day time) = day.
Proof.
  intros H. unfold Day, MakeDate.
  replace (day * msPerDay + time) with (time + day * msPerDay) by lia.
  rewrite Z.div_add by (unfold msPerDay; lia).
  rewrite Z.div_small by exact H. reflexivity.
Qed.

Lemma TimeWithinDay_range t : 0 <= TimeWithinDay t < msPerDay.
Proof. apply Z.mod_pos_bound. unfold msPerDay. lia. Qed.

End CivilFacts.

(** X27.  [addMonths] moves the month on by [months], carrying into
    the years; it keeps the day of the month when the month it comes to
    has that day, and else goes on into the month after by the days in
    excess, so from the 29th on a month can be passed over.  (For a local time that exists in the zone, within the
    range of time values.) *)
Theorem addMonths_date (toLocal toUTC : Z -> Z) (tv months : Z) :
  let t := toLocal tv in
  let ym := (JsTime.YearFromTime t
             + (JsTime.MonthFromTime t + months) / 12)%Z in
  let mn := ((JsTime.MonthFromTime t + months) mod 12)%Z in
  let dt := JsTime.DateFromTime t in
  let x := JsTime.MakeDate
             (JsTime.MakeDay (JsTime.YearFromTime t)
                (JsTime.MonthFromTime t + months) dt)
             (JsTime.TimeWithinDay t) in
  toLocal (toUTC x) = x ->
  (Z.abs (toUTC x) <= 8640000000000000)%Z ->
  let d := addMonths toLocal toUTC (Some tv) months in
  d = Some (toUTC x)
  /\ DateObj.getFullYear toLocal d = Some ym
  /\ (if (dt <=? daysInMonth ym mn)%Z
      then DateObj.getMonth toLocal d = Some mn
           /\ DateObj.getDate toLocal d = Some dt
      else DateObj.getMonth toLocal d = Some (mn + 1)%Z
           /\ DateObj.getDate toLocal d = Some (dt - daysInMonth ym mn)%Z).
Proof.
  intros t ym mn dt x Hzone Hclip d.
  assert (Hd : d = Some (toUTC x)).
  { unfold d, addMonths, DateObj.setMonth, DateObj.getMonth.
    cbn [option_map]. fold t. fold dt. fold x.
    unfold JsTime.TimeClip.
    replace (8640000000000000 <? Z.abs (toUTC x))%Z with false
      by (symmetry; apply Z.ltb_ge; exact Hclip).
    reflexivity. }
  rewrite Hd. unfold DateObj.getFullYear, DateObj.getMonth, DateObj.getDate.
  cbn [option_map]. rewrite Hzone.
  assert (Hday : JsTime.Day x
                 = (JsTime.DayFromYear ym + JsTime.monthStart ym mn + dt - 1)%Z).
  { unfold x. rewrite CivilFacts.Day_MakeDate
      by apply CivilFacts.TimeWithinDay_range.
    reflexivity. }
  assert (Hmn : (0 <= mn <= 11)%Z).
  { unfold mn. pose proof (Z.mod_pos_bound (JsTime.MonthFromTime t + months)
                             12 ltac:(lia)). lia. }
  destruct (CivilFacts.date_fields t) as (Hm0 & Hdt0 & _). fold dt in Hdt0.
  pose proof (CivilFacts.daysInMonth_range (JsTime.YearFromTime t)
                (JsTime.MonthFromTime t) Hm0) as Hlen0.
  pose proof (CivilFacts.daysInMonth_range ym mn Hmn) as Hlen.
  split; [reflexivity |].
  destruct (Z.leb_spec dt (daysInMonth ym mn)) as [Hfit | Hover].
  - destruct (CivilFacts.civil_of_day ym mn dt x Hmn ltac:(lia) Hday)
      as (-> & -> & ->).
    repeat split.
  - assert (Hnot11 : (mn <> 11)%Z).
    { intros E. rewrite E, CivilFacts.december in Hover. lia. }
    assert (Hmn1 : (0 <= mn + 1 <= 11)%Z) by lia.
    pose proof (CivilFacts.daysInMonth_range ym (mn + 1) Hmn1) as Hlen1.
    destruct (CivilFacts.civil_of_day ym (mn + 1) (dt - daysInMonth ym mn) x
                Hmn1 ltac:(lia)) as (-> & -> & ->).
    + rewrite Hday. unfold daysInMonth. lia.
    + repeat split.
Qed.

Lemma addMonths_date_witness :
  let d := addMonths (fun t => t) (fun t => t) (Some 1738281600000%Z) 1 in
  DateObj.getFullYear (fun t => t) d = Some 2025%Z
  /\ DateObj.getMonth (fun t => t) d = Some 2%Z
  /\ DateObj.getDate (fun t => t) d = Some 3%Z.
Proof.
  destruct (addMonths_date (fun t => t) (fun t => t) 1738281600000 1
              eq_refl ltac:(vm_compute; discriminate))
    as (_ & Hy & Hm).
  split; [exact Hy | exact Hm].
Defined.

Section RsvDateFormat.
Import CellSpec.

Lemma pad2_digits k :
  (0 <= k < 100)%Z ->
  exists a b, pad2 k = [a; b]
              /\ Js.isDigit a = true /\ Js.isDigit b = true.
Proof.
  intros Hk.
  pose proof (below_check
    (fun k => match pad2 k with
              | [a; b] => Js.isDigit a && Js.isDigit b
              | _ => false
              end) 100 ltac:(vm_compute; reflexivity) k Hk) as H.
  cbv beta in H. destruct (pad2 k) as [|a [|b [|c l]]]; try discriminate.
  apply andb_prop in H as [Ha Hb]. eauto.
Qed.

Lemma four_digits y :
  (1000 <= y < 10000)%Z ->
  Js.numToString y = pad2 (y / 100) ++ pad2 (y mod 100).
Proof.
  intros Hy. rewrite <- pad4_split by lia.
  assert (Hh : (0 <= y / 100 < 100)%Z)
    by (split; [apply Z.div_pos | apply Z.div_lt_upper_bound]; lia).
  assert (Hl : (0 <= y mod 100 < 100)%Z) by (apply Z.mod_pos_bound; lia).
  pose proof (below_check
    (fun a => forallb
       (fun b => (a <? 10)%Z
                 || Nat.eqb (length (Js.numToString (100 * a + b))) 4)
       (map Z.of_nat (List.seq 0 100))) 100 ltac:(vm_compute; reflexivity)
    (y / 100)%Z Hh) as H.
  cbv beta in H.
  pose proof (below_check _ 100 H (y mod 100)%Z Hl) as H'. cbv beta in H'.
  rewrite <- Z.div_mod in H' by lia.
  assert (Hten : (10 <= y / 100)%Z) by (apply Z.div_le_lower_bound; lia).
  replace (y / 100 <? 10)%Z with false in H'
    by (symmetry; apply Z.ltb_ge; exact Hten).
  cbn [orb] in H'. apply Nat.eqb_eq in H'.
  unfold Js.padStart0. rewrite H'. reflexivity.
Qed.

End RsvDateFormat.

(** X28.  The date that a request carries has the form of the data-date
    values of the calendar, for a year of four digits: formatRsvDate
    gives four, two and two digits between slashes, which rsvDateToIso
    turns into the ISO date of that day.  An invalid date gives
    NaN/NaN/NaN. *)
Theorem formatRsvDate_slashed (toLocal : Z -> Z) (tv : Z) :
  let t := toLocal tv in
  (1000 <= JsTime.YearFromTime t < 10000)%Z ->
  CellSpec.slashedDate (formatRsvDate toLocal (Some tv))
  /\ rsvDateToIso (formatRsvDate toLocal (Some tv))
     = toIsoDate (JsTime.YearFromTime t) (JsTime.MonthFromTime t + 1)
         (JsTime.DateFromTime t)
  /\ formatRsvDate toLocal None = str "NaN/NaN/NaN".
Proof.
  intros t Hy.
  destruct (CivilFacts.date_fields t) as (Hm & Hd & _).
  pose proof (CivilFacts.daysInMonth_range (JsTime.YearFromTime t) _ Hm)
    as Hlen.
  assert (Hh : (0 <= JsTime.YearFromTime t / 100 < 100)%Z)
    by (split; [apply Z.div_pos | apply Z.div_lt_upper_bound]; lia).
  assert (Hl : (0 <= JsTime.YearFromTime t mod 100 < 100)%Z)
    by (apply Z.mod_pos_bound; lia).
  destruct (pad2_digits _ Hh) as (a & b & Eh & Da & Db).
  destruct (pad2_digits _ Hl) as (c & d & El & Dc & Dd).
  destruct (pad2_digits (JsTime.MonthFromTime t + 1) ltac:(lia))
    as (e & f & Em & De & Df).
  destruct (pad2_digits (JsTime.DateFromTime t) ltac:(lia))
    as (g & h & Ed & Dg & Dh).
  assert (E : formatRsvDate toLocal (Some tv)
              = [a; b; c; d; 47; e; f; 47; g; h]).
  { unfold formatRsvDate, DateObj.getFullYear, DateObj.getMonth,
      DateObj.getDate, showField. cbn [option_map]. fold t.
    rewrite four_digits by exact Hy.
    fold (pad2 (JsTime.MonthFromTime t + 1)) (pad2 (JsTime.DateFromTime t)).
    rewrite Eh, El, Em, Ed. reflexivity. }
  rewrite E. split; [|split; [|reflexivity]].
  - exists a, b, c, d, e, f, g, h. split; [reflexivity |].
    repeat constructor; assumption.
  - rewrite rsvDateToIso_digits by assumption.
    unfold toIsoDate. rewrite pad4_split by lia.
    fold (pad2 (JsTime.MonthFromTime t + 1)) (pad2 (JsTime.DateFromTime t)).
    rewrite Eh, El, Em, Ed. reflexivity.
Qed.

Lemma formatRsvDate_slashed_witness :
  formatRsvDate (fun t => t) (Some 1738281600000%Z) = str "2025/01/31"
  /\ rsvDateToIso (formatRsvDate (fun t => t) (Some 1738281600000%Z))
     = str "2025-01-31".
Proof.
  destruct (formatRsvDate_slashed (fun t => t) 1738281600000
              ltac:(vm_compute; split; [discriminate | reflexivity]))
    as (_ & H & _).
  split; [vm_compute; reflexivity |].
  rewrite H. vm_compute. reflexivity.
Defined.

Section Restart.





End Restart.



(** With the state file [{"seen": []}] the slot of the first cycle is
    alerted again after the restart. *)
Example legacy_restart_array :
  let w1 := fst (Legacy.checkOnce demoCycle freshWorld) in
  dispatched
    (fst (Legacy.checkOnce demoCycle
            (restart (ArrayObject []) (str "now") w1)))
  = [[demoSlot]; [demoSlot]].
Proof. vm_compute. reflexivity. Qed.

Section AlertsOnce.
Import SeenSpec.

Lemma newSlots_fresh found : forall f,
  List.NoDup (map key (newSlots f found))
  /\ forall slot, In slot (newSlots f found) ->
       f (key slot) = false /\ In slot found.
Proof.
  induction found as [|s rest IH]; intros f; cbn [newSlots].
  - split; [constructor | intros ? []].
  - destruct (f (key s)) eqn:E.
    + destruct (IH f) as [Hn Hf]. split; [exact Hn |].
      intros slot Hin. destruct (Hf slot Hin) as [H1 H2].
      split; [exact H1 | right; exact H2].
    + destruct (IH (fun k => bool_decide (k = key s) || f k)) as [Hn Hf].
      split.
      * cbn [map]. constructor; [|exact Hn].
        intros Hin. apply in_map_iff in Hin as (t & Et & Ht).
        destruct (Hf t Ht) as [Hfalse _]. cbv beta in Hfalse.
        rewrite Et, bool_decide_eq_true_2 in Hfalse by reflexivity.
        discriminate.
      * intros slot [<- | Hin]; [split; [exact E | left; reflexivity] |].
        destruct (Hf slot Hin) as [Hfalse Hi]. cbv beta in Hfalse.
        apply orb_false_elim in Hfalse as [_ Hfalse].
        split; [exact Hfalse | right; exact Hi].
Qed.

Lemma legacy_checkOnce_once w0 c w :
  alertedOnce w0 w -> alertedOnce w0 (fst (Legacy.checkOnce c w)).
Proof.
  intros (Hn & Hd & Hm).
  destruct (found c) as [slots|] eqn:Ef;
    [|unfold Legacy.checkOnce; rewrite Ef; cbn [fst]; exact (conj Hn (conj Hd Hm))].
  destruct (legacy_checkOnce_marks c w slots Ef) as [Hseen Hdisp].
  pose proof (filterNew_marks (clock c) slots (seen w)) as Hmarks.
  pose proof (filterNew_spec (clock c) slots (seen w)) as Hspec.
  rewrite <- Hseen in Hmarks.
  set (w' := fst (Legacy.checkOnce c w)) in *.
  destruct (newSlots_fresh slots (isSeenIn (seen w))) as [Hnew Hfresh].
  rewrite <- Hspec in Hnew, Hfresh.
  set (nm := snd (Legacy.filterNew (clock c) slots (seen w))) in *.
  assert (Hcat : concat (dispatched w') = concat (dispatched w) ++ nm).
  { rewrite Hdisp, concat_app. destruct nm; simpl; rewrite ?app_nil_r;
      reflexivity. }
  assert (Hkeep : forall k, isSeenIn (seen w) k = true ->
                            isSeenIn (seen w') k = true).
  { intros k Hk. rewrite Hmarks, Hk. reflexivity. }
  unfold alertedOnce. rewrite Hcat. split; [|split].
  - rewrite map_app. apply List.NoDup_app; [assumption | assumption |].
    intros k Hk Hk'. apply in_map_iff in Hk as (s & <- & Hs).
    apply in_map_iff in Hk' as (t & Et & Ht).
    destruct (Hd s Hs) as [Hseen_s _].
    destruct (Hfresh t Ht) as [Hun _]. congruence.
  - intros slot Hin. apply in_app_or in Hin as [Hin | Hin].
    + destruct (Hd slot Hin). auto.
    + destruct (Hfresh slot Hin) as [Hun Hfound]. split.
      * rewrite Hmarks.
        rewrite (bool_decide_eq_true_2 (key slot ∈ map key slots)).
        -- apply orb_true_r.
        -- apply list_elem_of_In, in_map, Hfound.
      * destruct (isSeenIn (seen w0) (key slot)) eqn:E; [|reflexivity].
        apply Hm in E. congruence.
  - intros k Hk. apply Hkeep, Hm, Hk.
Qed.

Lemma legacy_runCycles_once w0 cycles : forall w,
  alertedOnce w0 w -> alertedOnce w0 (Legacy.runCycles cycles w).
Proof.
  induction cycles as [|c cycles IH]; intros w H; [exact H |].
  unfold Legacy.runCycles in *. cbn [fold_left].
  apply IH, legacy_checkOnce_once, H.
Qed.

End AlertsOnce.

(** X30.  In the earlier variant one run of the process alerts a key at most
    once, whatever the cycles discover and whether the alerts go out or
    not: over any sequence of cycles no key is dispatched twice, and a
    key that was seen at the start is never dispatched. *)
Theorem legacy_alerts_once (cycles : list Cycle) (w : World) :
  dispatched w = [] ->
  let w' := Legacy.runCycles cycles w in
  List.NoDup (map key (concat (dispatched w')))
  /\ forall slot, In slot (concat (dispatched w')) ->
       SeenSpec.isSeenIn (seen w) (key slot) = false.
Proof.
  intros Hd w'.
  destruct (legacy_runCycles_once w cycles w) as (Hn & Hs & _).
  - unfold alertedOnce. rewrite Hd. cbn [concat map].
    split; [constructor | split; [intros ? [] | auto]].
  - split; [exact Hn |]. intros slot Hin. apply (Hs slot Hin).
Qed.

Lemma legacy_alerts_once_witness :
  List.NoDup
    (map key
       (concat (dispatched
                  (Legacy.runCycles [demoCycle; laterCycle; demoCycle]
                     freshWorld)))).
Proof.
  apply (legacy_alerts_once [demoCycle; laterCycle; demoCycle] freshWorld).
  reflexivity.
Defined.
